(** * Least-squares Monte Carlo BSDE option pricing (mclsq.py)

    A shallow embedding of the four pricing classes of [mclsq.py]
    ([BSDEOptionPricingEuropean], [BSDEOptionPricingAmerican],
    [BSDEOptionPricingEuropeanSpread], [BSDEOptionPricingAmericanSpread])
    and the properties of their constructor, basis expansion, path
    simulation, backward sweeps and confidence estimator.

    Numbers.  Python [int] is [Z]; a Python/NumPy float is idealised as a
    real number ([R]): arithmetic is exact, there is no NaN, infinity or
    rounding error.  [np.exp] and [np.sqrt] are the real functions.  The
    constructor's own arithmetic raises [OverflowError] on an integer
    beyond the range of a float ([py_truediv], [py_sub]); in the array
    arithmetic of the other methods an [int] converts exactly.  A [bool] is
    an [int] for [isinstance], for [range] and in arithmetic, but not as
    the length of an axis, where NumPy refuses it ([as_size]).

    External library code is not part of the program: [np.linalg.lstsq],
    [scipy.stats.norm.ppf] and the standard normal draws behind
    [np.random.normal] are fields of the class [NumPy]; a property of one of
    them that a proof needs is an explicit hypothesis of that theorem. *)

From Stdlib Require Import Reals Lra Lia List ZArith Bool.
From Stdlib Require String Ascii.
Import ListNotations String.StringSyntax.

Abbreviation string := String.string.

Open Scope string_scope.
Open Scope list_scope.

Set Implicit Arguments.

(* ================================================================= *)
(** ** Python values, exceptions, the error monad *)

Inductive PyVal : Type :=
| PyNone
| PyBool (b : bool)
| PyInt (z : Z)
| PyFloat (x : R)
| PyStr (s : string).

Inductive exn : Type :=
| ValueError (msg : string)
| TypeError (msg : string)
| AttributeError (attr : string)
| OverflowError (msg : string)
| ZeroDivisionError (msg : string).

Inductive result (A : Type) : Type :=
| Ok (a : A)
| Err (e : exn).

Arguments Ok {A} a.
Arguments Err {A} e.

Definition bind {A B} (m : result A) (f : A -> result B) : result B :=
  match m with
  | Ok a => f a
  | Err e => Err e
  end.

Declare Scope py_scope.
Delimit Scope py_scope with py.
Notation "x <- m ;; k" := (bind m (fun x => k))
  (at level 61, m at next level, right associativity) : py_scope.
Open Scope py_scope.

(** [for i in l: st = body(i, st)], stopping at the first exception. *)
Fixpoint for_each {St : Type} (l : list nat) (body : nat -> St -> result St)
    (st : St) : result St :=
  match l with
  | [] => Ok st
  | i :: l' => st' <- body i st ;; for_each l' body st'
  end.

(** [range(n)] and [range(n, 0, -1)]. *)
Definition range (n : nat) : list nat := seq 0 n.
Definition range_down (n : nat) : list nat := rev (seq 1 n).

(** *** Dynamic type tests and coercions *)

(** [isinstance(v, int)]: [bool] is a subclass of [int]. *)
Definition isinstance_int (v : PyVal) : bool :=
  match v with
  | PyInt _ | PyBool _ => true
  | _ => false
  end.

(** [type(v) is int]: an [int] that is not a [bool]. *)
Definition type_is_int (v : PyVal) : bool :=
  match v with
  | PyInt _ => true
  | _ => false
  end.

Definition isinstance_bool (v : PyVal) : bool :=
  match v with
  | PyBool _ => true
  | _ => false
  end.

Definition isinstance_float (v : PyVal) : bool :=
  match v with
  | PyFloat _ => true
  | _ => false
  end.

Definition isinstance_str (v : PyVal) : bool :=
  match v with
  | PyStr _ => true
  | _ => false
  end.

(** [isinstance(v, (int, float))]. *)
Definition isinstance_num (v : PyVal) : bool :=
  isinstance_int v || isinstance_float v.

(** The integer behind an [int] (or [bool]); 0 on anything else. *)
Definition int_of (v : PyVal) : Z :=
  match v with
  | PyInt z => z
  | PyBool true => 1%Z
  | _ => 0%Z
  end.

(** The number behind an [int], [bool] or [float]; 0 on anything else. *)
Definition real_of (v : PyVal) : R :=
  match v with
  | PyFloat x => x
  | PyInt _ | PyBool _ => IZR (int_of v)
  | _ => 0%R
  end.

(** A value used as an operand of arithmetic: a non-number raises
    [TypeError]. *)
Definition as_real (v : PyVal) : result R :=
  if isinstance_num v then Ok (real_of v)
  else Err (TypeError "unsupported operand type(s)").

(** A value used in [range] or in integer arithmetic ([self.N + 1],
    [self.degree + 1]): it has to be an integer, and a [bool] is one. *)
Definition as_index (v : PyVal) : result Z :=
  if isinstance_int v then Ok (int_of v)
  else Err (TypeError "object cannot be interpreted as an integer").

(** A value used as the length of an axis, in [np.zeros(v)] or in a shape
    tuple [(v, ...)]: NumPy wants an integer here and, unlike [range],
    refuses a [bool]; a negative length is a [ValueError]. *)
Definition as_size (v : PyVal) : result Z :=
  match v with
  | PyInt z =>
      if (z <? 0)%Z then Err (ValueError "negative dimensions are not allowed")
      else Ok z
  | PyBool _ =>
      Err (TypeError "expected a sequence of integers or a single integer")
  | _ => Err (TypeError "object cannot be interpreted as an integer")
  end.

(** *** Arithmetic between Python numbers

    Python integers are unbounded and floats are not.  Where an [int]
    meets a float it is converted first, and an integer beyond the range
    of a float raises [OverflowError]; so does a true division of two
    integers whose quotient is beyond that range.  The largest float is
    [2**1024 - 2**971], and conversion rounds to nearest: from
    [2**1024 - 2**970] on it overflows. *)

Inductive number : Type :=
| IntNum (z : Z)
| FloatNum (x : R).

Definition as_number (v : PyVal) : result number :=
  match v with
  | PyInt _ | PyBool _ => Ok (IntNum (int_of v))
  | PyFloat x => Ok (FloatNum x)
  | _ => Err (TypeError "unsupported operand type(s)")
  end.

Definition float_overflow : Z := (2 ^ 1024 - 2 ^ 970)%Z.

Definition float_of_int (z : Z) : result R :=
  if (Z.abs z <? float_overflow)%Z then Ok (IZR z)
  else Err (OverflowError "int too large to convert to float").

Definition to_float (n : number) : result R :=
  match n with
  | IntNum z => float_of_int z
  | FloatNum x => Ok x
  end.

(** [x - y]: exact on two integers, on floats otherwise. *)
Definition py_sub (x y : PyVal) : result PyVal :=
  a <- as_number x ;;
  b <- as_number y ;;
  match a, b with
  | IntNum m, IntNum n => Ok (PyInt (m - n))
  | _, _ => u <- to_float a ;; v <- to_float b ;; Ok (PyFloat (u - v))
  end.

(** [x / y]: always a float. *)
Definition py_truediv (x y : PyVal) : result PyVal :=
  a <- as_number x ;;
  b <- as_number y ;;
  match a, b with
  | IntNum m, IntNum n =>
      if (n =? 0)%Z then Err (ZeroDivisionError "division by zero")
      else if (Z.abs m <? float_overflow * Z.abs n)%Z
      then Ok (PyFloat (IZR m / IZR n))
      else Err (OverflowError "integer division result too large for a float")
  | _, _ =>
      u <- to_float a ;;
      v <- to_float b ;;
      if Req_dec_T v 0 then Err (ZeroDivisionError "float division by zero")
      else Ok (PyFloat (u / v))
  end.

(** Python comparisons of a number with an integer literal: on integers
    they are decided on [Z], on floats on [R]. *)
Definition py_le (v : PyVal) (c : Z) : bool :=
  match v with
  | PyFloat x => if Rle_dec x (IZR c) then true else false
  | _ => (int_of v <=? c)%Z
  end.

Definition py_lt (v : PyVal) (c : Z) : bool :=
  match v with
  | PyFloat x => if Rlt_dec x (IZR c) then true else false
  | _ => (int_of v <? c)%Z
  end.

Definition py_gt (v : PyVal) (c : Z) : bool :=
  match v with
  | PyFloat x => if Rlt_dec (IZR c) x then true else false
  | _ => (c <? int_of v)%Z
  end.

(** [v == "s"]: only a string can be equal to a string. *)
Definition py_eq_str (v : PyVal) (s : string) : bool :=
  match v with
  | PyStr t => String.eqb t s
  | _ => false
  end.

(** *** Strings: [str.lower] on ASCII *)

Definition lower_ascii (c : Ascii.ascii) : Ascii.ascii :=
  let n := Ascii.nat_of_ascii c in
  if (65 <=? n)%nat && (n <=? 90)%nat then Ascii.ascii_of_nat (n + 32) else c.

Fixpoint lower (s : string) : string :=
  match s with
  | String.EmptyString => String.EmptyString
  | String.String c s' => String.String (lower_ascii c) (lower s')
  end.

(** *** Objects: the attribute dictionary of an instance *)

Definition Instance : Type := list (string * PyVal).

(** [self.name = v]. *)
Definition setattr (self : Instance) (name : string) (v : PyVal) : Instance :=
  (name, v) :: self.

(** [self.name]; a name that was never assigned raises [AttributeError]. *)
Fixpoint getattr (self : Instance) (name : string) : result PyVal :=
  match self with
  | [] => Err (AttributeError name)
  | (n, v) :: rest => if String.eqb n name then Ok v else getattr rest name
  end.

Definition attr_real (self : Instance) (name : string) : result R :=
  v <- getattr self name ;; as_real v.

Definition attr_nat (self : Instance) (name : string) : result nat :=
  v <- getattr self name ;; z <- as_index v ;; Ok (Z.to_nat z).

(** [self.name] as the length of an axis. *)
Definition attr_size (self : Instance) (name : string) : result nat :=
  v <- getattr self name ;; z <- as_size v ;; Ok (Z.to_nat z).

(* ================================================================= *)
(** ** NumPy arrays: vectors are lists, matrices are lists of rows *)

Open Scope R_scope.

Definition vec : Type := list R.
Definition matrix : Type := list (list R).

(** What a solver hands to the confidence estimator: an array, or a bare
    Python number. *)
Inductive sample : Type :=
| Array (a : vec)
| Scalar (x : R).

Definition vmap2 (f : R -> R -> R) (u v : vec) : vec :=
  map (fun p => f (fst p) (snd p)) (combine u v).

Definition np_sum (v : vec) : R := fold_right Rplus 0 v.

(** [np.mean(v)]. *)
Definition np_mean (v : vec) : R := np_sum v / INR (length v).

(** [np.std(v)] with the default [ddof=0]:
    [sqrt(mean(abs(v - mean(v))**2))]. *)
Definition np_std (v : vec) : R :=
  sqrt (np_mean (map (fun x => Rabs (x - np_mean v) ^ 2) v)).

(** [np.cumsum(v)] along a row. *)
Fixpoint cumsum_from (acc : R) (v : vec) : vec :=
  match v with
  | [] => []
  | x :: v' => (acc + x) :: cumsum_from (acc + x) v'
  end.

Definition np_cumsum (v : vec) : vec := cumsum_from 0 v.

Fixpoint list_min (x : R) (v : vec) : R :=
  match v with
  | [] => x
  | y :: v' => list_min (Rmin x y) v'
  end.

(** [np.min(v, 0)] on a one-dimensional array: the second argument is the
    axis, so this is the minimum over all entries of [v]. *)
Definition np_min (v : vec) : result R :=
  match v with
  | [] => Err (ValueError "zero-size array to reduction operation minimum")
  | x :: v' => Ok (list_min x v')
  end.

(** [np.zeros(n)] and [np.zeros((m, n))]. *)
Definition zeros (n : nat) : vec := repeat 0 n.
Definition zeros2 (m n : nat) : matrix := repeat (zeros n) m.

(** [np.zeros(v)] for a Python value [v]. *)
Definition np_zeros (v : PyVal) : result vec :=
  n <- as_size v ;; Ok (zeros (Z.to_nat n)).

(** [l[i] = x]. *)
Fixpoint upd (i : nat) (x : R) (l : vec) : vec :=
  match l, i with
  | [], _ => []
  | _ :: l', O => x :: l'
  | y :: l', S i' => y :: upd i' x l'
  end.

Definition ncols (X : matrix) : nat :=
  match X with
  | [] => O
  | row :: _ => length row
  end.

(** [X[:, i]], [X[:, -1]], [X[:, i] = v] and [X[:, -1] = v]. *)
Definition col (i : nat) (X : matrix) : vec := map (fun row => nth i row 0) X.
Definition col_last (X : matrix) : vec := map (fun row => last row 0) X.
Definition set_col (i : nat) (v : vec) (X : matrix) : matrix :=
  map (fun p => upd i (snd p) (fst p)) (combine X v).
Definition set_col_last (v : vec) (X : matrix) : matrix :=
  set_col (ncols X - 1) v X.

(** [u @ v], [X.T], [A @ v], [A @ B]. *)
Definition dot (u v : vec) : R := np_sum (vmap2 Rmult u v).
Definition transpose (X : matrix) : matrix :=
  map (fun j => col j X) (seq 0 (ncols X)).
Definition matvec (A : matrix) (v : vec) : vec := map (fun row => dot row v) A.
Definition matmul (A B : matrix) : matrix :=
  map (fun row => map (fun c => dot row c) (transpose B)) A.

(** The Laguerre polynomials [L_0 = 1], [L_1 = 1 - x],
    [(k+1) L_(k+1) = (2k+1-x) L_k - k L_(k-1)]: the value of
    [np.polynomial.laguerre.Laguerre.basis(k)] at [x].
    [laguerre_pair k x] is [(L_k x, L_(k+1) x)]. *)
Fixpoint laguerre_pair (k : nat) (x : R) : R * R :=
  match k with
  | O => (1, 1 - x)
  | S k' =>
      let '(a, b) := laguerre_pair k' x in
      (b, ((2 * INR k' + 3 - x) * b - (INR k' + 1) * a) / (INR k' + 2))
  end.

Definition laguerre (k : nat) (x : R) : R := fst (laguerre_pair k x).

(** Rounding.  [rint] is round-half-to-even; [round4 x] is what
    [round(x, 4)] returns on a NumPy float: [rint(x * 10**4) / 10**4]. *)
Definition rint (x : R) : Z :=
  let f := Int_part x in
  let d := x - IZR f in
  if Rlt_dec d (1 / 2) then f
  else if Rlt_dec (1 / 2) d then (f + 1)%Z
  else if Z.even f then f else (f + 1)%Z.

Definition round4 (x : R) : R := IZR (rint (x * 10000)) / 10000.

(** ** The external numerical library *)

Class NumPy : Type := {
  (** [np.linalg.lstsq(A, b, rcond=None)[0]] *)
  lstsq : matrix -> vec -> vec;
  (** [scipy.stats.norm.ppf] *)
  norm_ppf : R -> R;
  (** entry [(m, n)] of the standard normal sample behind the [k]-th call
      of [np.random.normal] *)
  standard_normal : nat -> nat -> nat -> R
}.

(** The [k]-th call [np.random.normal(loc, scale, (rows, cols))]. *)
Definition np_random_normal `{NumPy} (k : nat) (loc scale : R)
    (rows cols : nat) : matrix :=
  map (fun m => map (fun n => loc + scale * standard_normal k m n)
                    (seq 0 cols))
      (seq 0 rows).

(* ================================================================= *)
(** ** Constructor arguments *)

(** The arguments of [__init__], defaults filled in by the caller
    ([lower=0.025], [samples=100], [option_payoff="call"], [degree=3],
    [mu=0.05], [picard=3]). *)
Record Args : Type := {
  arg_S0 : PyVal;
  arg_K : PyVal;
  arg_r : PyVal;
  arg_sigma : PyVal;
  arg_T : PyVal;
  arg_N : PyVal;
  arg_M : PyVal;
  arg_lower : PyVal;
  arg_samples : PyVal;
  arg_option_payoff : PyVal;
  arg_degree : PyVal;
  arg_mu : PyVal;
  arg_picard : PyVal
}.

(** The two further arguments of the spread classes. *)
Record SpreadArgs : Type := {
  base_args : Args;
  arg_K2 : PyVal;
  arg_R : PyVal
}.

(* ================================================================= *)
(** ** class BSDEOptionPricingEuropean *)

Module European.
Section Methods.
Context `{NumPy}.

Definition _get_opt_payoff (opt_payoff : PyVal) : result string :=
  match opt_payoff with
  | PyStr s =>
      if String.eqb (lower s) "call" then Ok "call"
      else if String.eqb (lower s) "put" then Ok "put"
      else Err (TypeError "Invalid option type! It should be call or put")
  | _ => Err (TypeError "Option type should be a string!")
  end.

Definition __init__ (a : Args) : result Instance :=
  if negb (isinstance_num (arg_S0 a)) || py_le (arg_S0 a) 0
  then Err (ValueError "S0 must be positive.") else
  if negb (isinstance_num (arg_K a)) || py_le (arg_K a) 0
  then Err (ValueError "K must be positive.") else
  if negb (isinstance_num (arg_T a)) || py_le (arg_T a) 0
  then Err (ValueError "T must be positive.") else
  if negb (isinstance_num (arg_r a))
  then Err (ValueError "r must be integer or float.") else
  if negb (isinstance_num (arg_sigma a)) || py_le (arg_sigma a) 0
  then Err (ValueError "sigma must be positive.") else
  if negb (isinstance_int (arg_N a)) || py_le (arg_N a) 0
  then Err (ValueError "N must be a positive integer.") else
  if negb (isinstance_int (arg_M a)) || py_le (arg_M a) 0
  then Err (ValueError "M must be a positive integer.") else
  if negb (isinstance_int (arg_degree a)) || py_lt (arg_degree a) 0
  then Err (ValueError "degree must be a non-negative integer.") else
  if negb (isinstance_float (arg_lower a))
  then Err (ValueError "Lower confidence number msut be a float!") else
  let self := setattr [] "S0" (arg_S0 a) in
  let self := setattr self "K" (arg_K a) in
  let self := setattr self "T" (arg_T a) in
  let self := setattr self "r" (arg_r a) in
  let self := setattr self "mu" (arg_mu a) in
  let self := setattr self "sigma" (arg_sigma a) in
  let self := setattr self "N" (arg_N a) in
  let self := setattr self "M" (arg_M a) in
  payoff <- _get_opt_payoff (arg_option_payoff a) ;;
  let self := setattr self "option_payoff" (PyStr payoff) in
  let self := setattr self "degree" (arg_degree a) in
  dt <- py_truediv (arg_T a) (arg_N a) ;;
  let self := setattr self "dt" dt in
  let self := setattr self "samples" (arg_samples a) in
  let self := setattr self "lower" (arg_lower a) in
  excess <- py_sub (arg_mu a) (arg_r a) ;;
  lamb <- py_truediv excess (arg_sigma a) ;;
  let self := setattr self "lamb" lamb in
  let self := setattr self "picard" (arg_picard a) in
  Ok self.

Definition _payoff_func (self : Instance) (S : vec) : result vec :=
  option_payoff <- getattr self "option_payoff" ;;
  if py_eq_str option_payoff "call" then
    K <- attr_real self "K" ;;
    Ok (map (fun s => Rmax (s - K) 0) S)
  else if py_eq_str option_payoff "put" then
    K <- attr_real self "K" ;;
    Ok (map (fun s => Rmax (K - s) 0) S)
  else
    (* the message is built first, and it reads [self.option_type] *)
    _ <- getattr self "option_type" ;;
    Err (ValueError "Invalid option type").

Definition _generate_regression (self : Instance) (S : vec) : result matrix :=
  degree <- getattr self "degree" ;;
  _ <- as_real degree ;;
  if py_gt degree 20 || py_lt degree 1
  then Err (ValueError "Invalid degree on Polynomial basis")
  else
    d <- as_index degree ;;
    Ok (map (fun s => map (fun deg => laguerre deg s)
                          (range (Z.to_nat d + 1)))
            S).

(** The [k]-th call of [_generate_stock_paths]. *)
Definition _generate_stock_paths (self : Instance) (k : nat)
    : result (matrix * matrix) :=
  T <- attr_real self "T" ;;
  Nr <- attr_real self "N" ;;
  let dt := T / Nr in
  M <- attr_size self "M" ;;
  N <- attr_nat self "N" ;;
  let dW := np_random_normal k 0 (sqrt dt) M (N + 1) in
  mu <- attr_real self "mu" ;;
  sigma <- attr_real self "sigma" ;;
  let log_S :=
    map (fun row =>
           np_cumsum (map (fun w => (mu - 0.5 * sigma ^ 2) * dt + sigma * w)
                          row))
        dW in
  S0 <- attr_real self "S0" ;;
  let S := map (fun row => map (fun l => S0 * exp l) (0 :: row)) log_S in
  Ok (S, dW).

(** One pass of the body of [for i in range(self.N, 0, -1)]. *)
Definition backward_step (self : Instance) (S : matrix) (i : nat) (Y : matrix)
    : result matrix :=
  X <- _generate_regression self (col i S) ;;
  let A := matmul (transpose X) X in
  let alpha := lstsq A (matvec (transpose X) (col i Y)) in
  let continuation_value := matvec X alpha in
  r <- attr_real self "r" ;;
  dt <- attr_real self "dt" ;;
  Ok (set_col (i - 1) (map (fun c => c * exp (- r * dt)) continuation_value)
              Y).

(** The body of [for k in range(self.samples)] up to the end of the
    backward sweep: the matrix [Y] of batch [k]. *)
Definition batch (self : Instance) (k : nat) : result matrix :=
  paths <- _generate_stock_paths self k ;;
  let S := fst paths in
  let dW := snd paths in
  M <- attr_size self "M" ;;
  N <- attr_nat self "N" ;;
  let Y := zeros2 M (N + 1) in
  payoff <- _payoff_func self (col_last S) ;;
  let Y := set_col_last payoff Y in
  for_each (range_down N) (backward_step self S) Y.

Definition _bsde_solver (self : Instance) : result (vec * sample) :=
  samples <- getattr self "samples" ;;
  Y0_samples <- np_zeros samples ;;
  n <- as_index samples ;;
  Y0_samples <-
    for_each (range (Z.to_nat n))
      (fun k Y0_samples =>
         Y <- batch self k ;;
         Ok (upd k (np_mean (col 0 Y)) Y0_samples))
      Y0_samples ;;
  Ok (Y0_samples, Scalar 0).

(** [np.mean] and [np.std] of what a solver returned. *)
Definition sample_mean (s : sample) : R :=
  match s with
  | Array a => np_mean a
  | Scalar x => x
  end.

Definition sample_std (s : sample) : R :=
  match s with
  | Array a => np_std a
  | Scalar x => sqrt (Rabs (x - x) ^ 2)
  end.

Definition _confidence_interval (self : Instance) (smp : sample)
    : result (R * R * (R * R)) :=
  let mean_sample := sample_mean smp in
  let std_sample := sample_std smp in
  lower <- attr_real self "lower" ;;
  M <- attr_real self "M" ;;
  let upper := mean_sample + norm_ppf (1 - lower / 2) * std_sample / sqrt M in
  lower' <- attr_real self "lower" ;;
  M' <- attr_real self "M" ;;
  let lower := mean_sample - norm_ppf (1 - lower' / 2) * std_sample / sqrt M' in
  let CI := (round4 lower, round4 upper) in
  Ok (mean_sample, std_sample, CI).

(** What [run] reports, in the order it prints it: price estimate,
    standard deviation, interval, then the same three for the hedge. *)
Definition run_with (solver : Instance -> result (vec * sample))
    (self : Instance) : result ((R * R * (R * R)) * (R * R * (R * R))) :=
  arrays <- solver self ;;
  let Y0_array := fst arrays in
  let Z0_array := snd arrays in
  y <- _confidence_interval self (Array Y0_array) ;;
  z <- _confidence_interval self Z0_array ;;
  Ok (y, z).

Definition run : Instance -> result _ := run_with _bsde_solver.

End Methods.
End European.

(* ================================================================= *)
(** ** class BSDEOptionPricingAmerican(BSDEOptionPricingEuropean) *)

Module American.
Section Methods.
Context `{NumPy}.

Definition __init__ : Args -> result Instance := European.__init__.
Definition _payoff_func : Instance -> vec -> result vec :=
  European._payoff_func.

Definition backward_step (self : Instance) (S : matrix) (i : nat) (Y : matrix)
    : result matrix :=
  X <- European._generate_regression self (col i S) ;;
  let A := matmul (transpose X) X in
  let alpha := lstsq A (matvec (transpose X) (col i Y)) in
  let continuation_value := matvec X alpha in
  exercise_value <- _payoff_func self (col i S) ;;
  r <- attr_real self "r" ;;
  dt <- attr_real self "dt" ;;
  Ok (set_col (i - 1)
        (vmap2 Rmax (map (fun c => c * exp (- r * dt)) continuation_value)
               exercise_value)
        Y).

Definition batch (self : Instance) (k : nat) : result matrix :=
  paths <- European._generate_stock_paths self k ;;
  let S := fst paths in
  let dW := snd paths in
  M <- attr_size self "M" ;;
  N <- attr_nat self "N" ;;
  let Y := zeros2 M (N + 1) in
  payoff <- _payoff_func self (col_last S) ;;
  let Y := set_col_last payoff Y in
  for_each (range_down N) (backward_step self S) Y.

Definition _bsde_solver (self : Instance) : result (vec * sample) :=
  samples <- getattr self "samples" ;;
  Y0_samples <- np_zeros samples ;;
  n <- as_index samples ;;
  Y0_samples <-
    for_each (range (Z.to_nat n))
      (fun k Y0_samples =>
         Y <- batch self k ;;
         Ok (upd k (np_mean (col 0 Y)) Y0_samples))
      Y0_samples ;;
  Ok (Y0_samples, Scalar 0).

Definition run : Instance -> result _ := European.run_with _bsde_solver.

End Methods.
End American.

(* ================================================================= *)
(** ** The spread classes *)

(** The right-hand side of the assignment in the Picard loop, the same
    expression in both spread solvers:
    [E + (-r*Y[:, i] + lamb*Z[:, i]
          - (R - r)*np.min(Y[:, i] - Z[:, i]/sigma, 0))*dt]. *)
Definition picard_rhs (self : Instance) (E Yi Zi : vec) : result vec :=
  r <- attr_real self "r" ;;
  lamb <- attr_real self "lamb" ;;
  Rr <- attr_real self "R" ;;
  sigma <- attr_real self "sigma" ;;
  m <- np_min (vmap2 (fun y z => y - z / sigma) Yi Zi) ;;
  dt <- attr_real self "dt" ;;
  Ok (vmap2 Rplus E
        (map (fun t => (t - (Rr - r) * m) * dt)
             (vmap2 Rplus (map (fun y => - r * y) Yi)
                          (map (fun z => lamb * z) Zi)))).

(** The arguments of [super().__init__(S0, K, r, sigma, T, N, M, lower,
    samples, option_payoff, degree, mu)]: [picard] is left to its
    default, 3. *)
Definition super_args (b : Args) : Args :=
  {| arg_S0 := arg_S0 b; arg_K := arg_K b; arg_r := arg_r b;
     arg_sigma := arg_sigma b; arg_T := arg_T b; arg_N := arg_N b;
     arg_M := arg_M b; arg_lower := arg_lower b;
     arg_samples := arg_samples b;
     arg_option_payoff := arg_option_payoff b;
     arg_degree := arg_degree b; arg_mu := arg_mu b;
     arg_picard := PyInt 3 |}.

(** [105 if K2 is None else K2] and [0.06 if R is None else R]. *)
Definition K2_or_default (v : PyVal) : PyVal :=
  match v with
  | PyNone => PyInt 105
  | _ => v
  end.

Definition R_or_default (v : PyVal) : PyVal :=
  match v with
  | PyNone => PyFloat 0.06
  | _ => v
  end.

(** The constructor of both spread classes. *)
Definition spread_init (base_init : Args -> result Instance) (a : SpreadArgs)
    : result Instance :=
  self <- base_init (super_args (base_args a)) ;;
  let self := setattr self "K2" (K2_or_default (arg_K2 a)) in
  let self := setattr self "R" (R_or_default (arg_R a)) in
  Ok self.

Module EuropeanSpread.
Section Methods.
Context `{NumPy}.

Definition __init__ : SpreadArgs -> result Instance :=
  spread_init European.__init__.

Definition _payoff_func (self : Instance) (S : vec) : result vec :=
  option_payoff <- getattr self "option_payoff" ;;
  if py_eq_str option_payoff "call" then
    K <- attr_real self "K" ;;
    K2 <- attr_real self "K2" ;;
    Ok (map (fun s => Rmax (s - K) 0 - 2 * Rmax (s - K2) 0) S)
  else
    _ <- getattr self "option_type" ;;
    Err (ValueError "Invalid option type").

Definition backward_step (self : Instance) (S dW : matrix) (i : nat)
    (YZ : matrix * matrix) : result (matrix * matrix) :=
  let Y := fst YZ in
  let Z := snd YZ in
  X <- European._generate_regression self (col i S) ;;
  let A := matmul (transpose X) X in
  let alpha_y := lstsq A (matvec (transpose X) (col i Y)) in
  let alpha_z :=
    lstsq A (matvec (transpose X) (vmap2 Rmult (col i Y) (col i dW))) in
  let E := matvec X alpha_y in
  let Z := set_col i (matvec X alpha_z) Z in
  picard <- getattr self "picard" ;;
  p <- as_index picard ;;
  Y <- for_each (range (Z.to_nat p))
         (fun _ Y =>
            v <- picard_rhs self E (col i Y) (col i Z) ;;
            Ok (set_col (i - 1) v Y))
         Y ;;
  Ok (Y, Z).

(** The matrices [Y] and [Z] of batch [k] after the backward sweep. *)
Definition batch (self : Instance) (k : nat) : result (matrix * matrix) :=
  paths <- European._generate_stock_paths self k ;;
  let S := fst paths in
  let dW := snd paths in
  M <- attr_size self "M" ;;
  N <- attr_nat self "N" ;;
  let Y := zeros2 M (N + 1) in
  let Z := zeros2 M (N + 1) in
  payoff <- _payoff_func self (col_last S) ;;
  let Y := set_col_last payoff Y in
  for_each (range_down N) (backward_step self S dW) (Y, Z).

Definition _bsde_solver (self : Instance) : result (vec * sample) :=
  samples <- getattr self "samples" ;;
  Y0_samples <- np_zeros samples ;;
  n <- as_index samples ;;
  Y0_samples <-
    for_each (range (Z.to_nat n))
      (fun k Y0_samples =>
         YZ <- batch self k ;;
         Ok (upd k (np_mean (col 0 (fst YZ))) Y0_samples))
      Y0_samples ;;
  Ok (Y0_samples, Scalar 0).

Definition run : Instance -> result _ := European.run_with _bsde_solver.

End Methods.
End EuropeanSpread.

Module AmericanSpread.
Section Methods.
Context `{NumPy}.

Definition __init__ : SpreadArgs -> result Instance :=
  spread_init American.__init__.

Definition _payoff_func (self : Instance) (S : vec) : result vec :=
  option_payoff <- getattr self "option_payoff" ;;
  if py_eq_str option_payoff "call" then
    K <- attr_real self "K" ;;
    K2 <- attr_real self "K2" ;;
    Ok (map (fun s => Rmax (s - K) 0 - Rmax (s - K2) 0) S)
  else
    _ <- getattr self "option_type" ;;
    Err (ValueError "Invalid option type").

Definition backward_step (self : Instance) (S dW : matrix) (i : nat)
    (YZ : matrix * matrix) : result (matrix * matrix) :=
  let Y := fst YZ in
  let Z := snd YZ in
  X <- European._generate_regression self (col i S) ;;
  let A := matmul (transpose X) X in
  let alpha_y := lstsq A (matvec (transpose X) (col i Y)) in
  let alpha_z :=
    lstsq A (matvec (transpose X) (vmap2 Rmult (col i Y) (col i dW))) in
  let E := matvec X alpha_y in
  let Z := set_col i (matvec X alpha_z) Z in
  exercise_value <- _payoff_func self (col i S) ;;
  picard <- getattr self "picard" ;;
  p <- as_index picard ;;
  Y <- for_each (range (Z.to_nat p))
         (fun _ Y =>
            v <- picard_rhs self E (col i Y) (col i Z) ;;
            Ok (set_col (i - 1) v Y))
         Y ;;
  let Y := set_col (i - 1) (vmap2 Rmax exercise_value (col (i - 1) Y)) Y in
  Ok (Y, Z).

Definition batch (self : Instance) (k : nat) : result (matrix * matrix) :=
  paths <- European._generate_stock_paths self k ;;
  let S := fst paths in
  let dW := snd paths in
  M <- attr_size self "M" ;;
  N <- attr_nat self "N" ;;
  let Y := zeros2 M (N + 1) in
  let Z := zeros2 M (N + 1) in
  payoff <- _payoff_func self (col_last S) ;;
  let Y := set_col_last payoff Y in
  for_each (range_down N) (backward_step self S dW) (Y, Z).

(** The loop over the batches fills [Y0_samples] and [Z0_samples]; the
    method returns [Y0_samples, 0]. *)
Definition batch_loop (self : Instance) : result (vec * vec) :=
  samples <- getattr self "samples" ;;
  Y0_samples <- np_zeros samples ;;
  Z0_samples <- np_zeros samples ;;
  n <- as_index samples ;;
  for_each (range (Z.to_nat n))
    (fun k YZ0 =>
       YZ <- batch self k ;;
       Ok (upd k (np_mean (col 0 (fst YZ))) (fst YZ0),
           upd k (np_mean (col 1 (snd YZ))) (snd YZ0)))
    (Y0_samples, Z0_samples).

Definition _bsde_solver (self : Instance) : result (vec * sample) :=
  YZ0 <- batch_loop self ;;
  let Y0_samples := fst YZ0 in
  let Z0_samples := snd YZ0 in
  Ok (Y0_samples, Scalar 0).

Definition run : Instance -> result _ := European.run_with _bsde_solver.

End Methods.
End AmericanSpread.

(* ================================================================= *)
(** ** The table by degree *)

(** The numerical library as it stands after [calls] calls of
    [np.random.normal]: the next call is call [calls]. *)
Definition after_calls (calls : nat) (np : NumPy) : NumPy :=
  {| lstsq := @lstsq np;
     norm_ppf := @norm_ppf np;
     standard_normal := fun k => @standard_normal np (calls + k) |}.

(** One row of the table: [[degree, est_Y0, std_Y0, CI_Y[0], CI_Y[1]]]. *)
Definition table_row : Type := PyVal * R * R * R * R.

Definition row_degree (row : table_row) : PyVal :=
  fst (fst (fst (fst row))).

(** The loop of [plot_and_show_table_by_degree] that fills [rows], for the
    solver of the class of [self]; the plot and the printing of the table
    are not modelled.  [self.degree = degree] changes the object itself, so
    the object is returned beside the outcome, also when a solver raises.
    [calls] counts the calls of [np.random.normal] so far: a solver run
    makes one per batch. *)
Fixpoint table_loop (solver : NumPy -> Instance -> result (vec * sample))
    (np : NumPy) (degrees : list PyVal) (self : Instance) (calls : nat)
    (rows : list table_row) : Instance * result (list table_row) :=
  match degrees with
  | [] => (self, Ok rows)
  | degree :: degrees' =>
      let self := setattr self "degree" degree in
      match solver (after_calls calls np) self with
      | Err e => (self, Err e)
      | Ok (Y0_array, _) =>
          match @European._confidence_interval np self (Array Y0_array) with
          | Err e => (self, Err e)
          | Ok (est_Y0, std_Y0, CI_Y) =>
              table_loop solver np degrees' self (calls + length Y0_array)
                (rows ++ [(degree, est_Y0, std_Y0, fst CI_Y, snd CI_Y)])
          end
      end
  end.

Definition plot_and_show_table_by_degree
    (solver : NumPy -> Instance -> result (vec * sample)) (np : NumPy)
    (self : Instance) (degrees : list PyVal)
    : Instance * result (list table_row) :=
  table_loop solver np degrees self 0 [].

(* ================================================================= *)
(** ** Specification-side definitions *)

(** An [m] x [c] matrix. *)
Definition shape (m c : nat) (X : matrix) : Prop :=
  length X = m /\ Forall (fun row => length row = c) X.

(** What [__init__] checks of its arguments. *)
Record valid_args (a : Args) : Prop := {
  valid_S0 : isinstance_num (arg_S0 a) = true /\ 0 < real_of (arg_S0 a);
  valid_K : isinstance_num (arg_K a) = true /\ 0 < real_of (arg_K a);
  valid_T : isinstance_num (arg_T a) = true /\ 0 < real_of (arg_T a);
  valid_r : isinstance_num (arg_r a) = true;
  valid_sigma :
    isinstance_num (arg_sigma a) = true /\ 0 < real_of (arg_sigma a);
  valid_N : isinstance_int (arg_N a) = true /\ (0 < int_of (arg_N a))%Z;
  valid_M : isinstance_int (arg_M a) = true /\ (0 < int_of (arg_M a))%Z;
  valid_degree :
    isinstance_int (arg_degree a) = true /\ (0 <= int_of (arg_degree a))%Z;
  valid_lower : isinstance_float (arg_lower a) = true;
  valid_mu : isinstance_num (arg_mu a) = true
}.

(** The configuration as numbers. *)
Definition cfg_S0 (a : Args) : R := real_of (arg_S0 a).
Definition cfg_K (a : Args) : R := real_of (arg_K a).
Definition cfg_T (a : Args) : R := real_of (arg_T a).
Definition cfg_r (a : Args) : R := real_of (arg_r a).
Definition cfg_mu (a : Args) : R := real_of (arg_mu a).
Definition cfg_sigma (a : Args) : R := real_of (arg_sigma a).
Definition cfg_lower (a : Args) : R := real_of (arg_lower a).
Definition cfg_N (a : Args) : nat := Z.to_nat (int_of (arg_N a)).
Definition cfg_M (a : Args) : nat := Z.to_nat (int_of (arg_M a)).
Definition cfg_degree (a : Args) : nat := Z.to_nat (int_of (arg_degree a)).
Definition cfg_samples (a : Args) : nat := Z.to_nat (int_of (arg_samples a)).
Definition cfg_dt (a : Args) : R := cfg_T a / real_of (arg_N a).
Definition cfg_lamb (a : Args) : R := (cfg_mu a - cfg_r a) / cfg_sigma a.

(** The object [__init__] builds from valid arguments. *)
Definition instance_of (a : Args) (payoff : string) : Instance :=
  [ ("picard", arg_picard a);
    ("lamb", PyFloat (cfg_lamb a));
    ("lower", arg_lower a);
    ("samples", arg_samples a);
    ("dt", PyFloat (cfg_dt a));
    ("degree", arg_degree a);
    ("option_payoff", PyStr payoff);
    ("M", arg_M a);
    ("N", arg_N a);
    ("sigma", arg_sigma a);
    ("mu", arg_mu a);
    ("r", arg_r a);
    ("T", arg_T a);
    ("K", arg_K a);
    ("S0", arg_S0 a) ].

(** [self] has every attribute of [base], with the same value, and may
    have [K2] and [R] besides (as the objects of the spread classes do). *)
Definition extends (self base : Instance) : Prop :=
  forall name, name <> "K2" -> name <> "R" ->
  getattr self name = getattr base name.

(** The object the spread constructors build. *)
Definition spread_instance_of (a : SpreadArgs) (payoff : string) : Instance :=
  ("R", R_or_default (arg_R a))
  :: ("K2", K2_or_default (arg_K2 a))
  :: instance_of (super_args (base_args a)) payoff.

Definition cfg_K2 (a : SpreadArgs) : R := real_of (K2_or_default (arg_K2 a)).
Definition cfg_R (a : SpreadArgs) : R := real_of (R_or_default (arg_R a)).

(** The design matrix of degree [d]: one row per price, one column per
    Laguerre polynomial [L_0 .. L_d]. *)
Definition basis (d : nat) (S : vec) : matrix :=
  map (fun s => map (fun k => laguerre k s) (seq 0 (d + 1))) S.

(** The log-return of one increment, the increments of batch [k] and the
    prices built from them. *)
Definition log_return (a : Args) (w : R) : R :=
  (cfg_mu a - 0.5 * cfg_sigma a ^ 2) * cfg_dt a + cfg_sigma a * w.

Definition paths_dW `{NumPy} (a : Args) (k : nat) : matrix :=
  np_random_normal k 0 (sqrt (cfg_dt a)) (cfg_M a) (cfg_N a + 1).

Definition paths_S `{NumPy} (a : Args) (k : nat) : matrix :=
  map (fun row =>
         map (fun l => cfg_S0 a * exp l)
             (0 :: np_cumsum (map (log_return a) row)))
      (paths_dW a k).

(** The fitted values of the regression of [y] on the columns of [X], as
    the solvers compute them: [X @ lstsq(X.T @ X, X.T @ y)]. *)
Definition fitted `{NumPy} (X : matrix) (y : vec) : vec :=
  matvec X (lstsq (matmul (transpose X) X) (matvec (transpose X) y)).

(** The payoff of the plain classes for the normalised kind [p]. *)
Definition plain_payoff (p : string) (K : R) (S : vec) : vec :=
  if String.eqb p "call" then map (fun s => Rmax (s - K) 0) S
  else map (fun s => Rmax (K - s) 0) S.

(** What step [i] of the plain European sweep writes into column [i - 1],
    as a function of column [i] of [Y]. *)
Definition european_update `{NumPy} (a : Args) (S : matrix) (i : nat)
    (y : vec) : vec :=
  map (fun c => c * exp (- cfg_r a * cfg_dt a))
      (fitted (basis (cfg_degree a) (col i S)) y).

(** The same for the plain American sweep. *)
Definition american_update `{NumPy} (a : Args) (p : string) (S : matrix)
    (i : nat) (y : vec) : vec :=
  vmap2 Rmax (european_update a S i y) (plain_payoff p (cfg_K a) (col i S)).

(** The interval of the specification: [mean -/+ z*std/sqrt(M)] with
    [z = ppf(1 - lower/2)], before rounding. *)
Definition quantile `{NumPy} (a : Args) : R := norm_ppf (1 - cfg_lower a / 2).

Definition half_width `{NumPy} (a : Args) (smp : vec) : R :=
  quantile a * (np_std smp / sqrt (INR (cfg_M a))).

(** The minimum over all paths that [np.min(v, 0)] returns on a non-empty
    vector. *)
Definition min_over_paths (v : vec) : R :=
  match v with
  | [] => 0
  | x :: v' => list_min x v'
  end.

(** The value the Picard assignment computes: one scalar [g], the minimum
    of [Y[:, i] - Z[:, i]/sigma] over all paths, is used for every path. *)
Definition picard_value (a : SpreadArgs) (E Yi Zi : vec) : vec :=
  let b := super_args (base_args a) in
  let g := min_over_paths (vmap2 (fun y z => y - z / cfg_sigma b) Yi Zi) in
  vmap2 Rplus E
    (map (fun t => (t - (cfg_R a - cfg_r b) * g) * cfg_dt b)
         (vmap2 Rplus (map (fun y => - cfg_r b * y) Yi)
                      (map (fun z => cfg_lamb b * z) Zi))).

(** The update the specification writes, with the minimum taken path by
    path: [E + (-r*Y + lamb*Z - (R-r)*min(Y - Z/sigma, 0))*dt]. *)
Definition picard_pointwise (a : SpreadArgs) (E Yi Zi : vec) : vec :=
  let b := super_args (base_args a) in
  vmap2 Rplus E
    (vmap2 (fun y z =>
              (- cfg_r b * y + cfg_lamb b * z
               - (cfg_R a - cfg_r b) * Rmin (y - z / cfg_sigma b) 0)
              * cfg_dt b)
           Yi Zi).

(** The payoffs of the two spread classes for the kind "call". *)
Definition european_spread_payoff (a : SpreadArgs) (S : vec) : vec :=
  map (fun s => Rmax (s - cfg_K (base_args a)) 0
                - 2 * Rmax (s - cfg_K2 a) 0) S.

Definition american_spread_payoff (a : SpreadArgs) (S : vec) : vec :=
  map (fun s => Rmax (s - cfg_K (base_args a)) 0 - Rmax (s - cfg_K2 a) 0) S.

(** The coefficients [lstsq] returns for the regression of [y] on the
    columns of [X] solve the normal equations [X'X alpha = X'y]: what a
    least-squares solution does in exact arithmetic. *)
Definition normal_equations `{NumPy} (X : matrix) (y : vec) : Prop :=
  let A := matmul (transpose X) X in
  matvec A (lstsq A (matvec (transpose X) y)) = matvec (transpose X) y.

(** *** Concrete inputs *)

(** A stand-in for the numerical library: a solver that returns
    [[b[0], 0]], a quantile function that is 0 at 1/2 and increasing, and
    draws that are all 0. *)
Definition toy_numpy : NumPy :=
  {| lstsq := fun _ b => [hd 0 b; 0];
     norm_ppf := fun q => q - 1 / 2;
     standard_normal := fun _ _ _ => 0 |}.

(** The scenario of the specification: [S0=100, K=100, r=0.05, sigma=0.2,
    T=1, N=50, M=1000, samples=50, degree=3, option_payoff="call"], the
    other arguments at their defaults. *)
Definition scenario : Args :=
  {| arg_S0 := PyInt 100; arg_K := PyInt 100; arg_r := PyFloat 0.05;
     arg_sigma := PyFloat 0.2; arg_T := PyInt 1; arg_N := PyInt 50;
     arg_M := PyInt 1000; arg_lower := PyFloat 0.025;
     arg_samples := PyInt 50; arg_option_payoff := PyStr "call";
     arg_degree := PyInt 3; arg_mu := PyFloat 0.05; arg_picard := PyInt 3 |}.

(** The smallest run: one path, one time step, one batch, degree 1. *)
Definition tiny : Args :=
  {| arg_S0 := PyInt 100; arg_K := PyInt 100; arg_r := PyInt 0;
     arg_sigma := PyInt 1; arg_T := PyInt 1; arg_N := PyInt 1;
     arg_M := PyInt 1; arg_lower := PyFloat 0.025;
     arg_samples := PyInt 1; arg_option_payoff := PyStr "call";
     arg_degree := PyInt 1; arg_mu := PyFloat 0.05; arg_picard := PyInt 3 |}.

(** The scenario with another [degree]. *)
Definition with_degree (b : Args) (d : Z) : Args :=
  {| arg_S0 := arg_S0 b; arg_K := arg_K b; arg_r := arg_r b;
     arg_sigma := arg_sigma b; arg_T := arg_T b; arg_N := arg_N b;
     arg_M := arg_M b; arg_lower := arg_lower b;
     arg_samples := arg_samples b;
     arg_option_payoff := arg_option_payoff b;
     arg_degree := PyInt d; arg_mu := arg_mu b;
     arg_picard := arg_picard b |}.

(** The scenario with another value for [samples], and with another
    horizon [T]. *)
Definition with_samples (b : Args) (v : PyVal) : Args :=
  {| arg_S0 := arg_S0 b; arg_K := arg_K b; arg_r := arg_r b;
     arg_sigma := arg_sigma b; arg_T := arg_T b; arg_N := arg_N b;
     arg_M := arg_M b; arg_lower := arg_lower b;
     arg_samples := v;
     arg_option_payoff := arg_option_payoff b;
     arg_degree := arg_degree b; arg_mu := arg_mu b;
     arg_picard := arg_picard b |}.

Definition with_T (b : Args) (v : PyVal) : Args :=
  {| arg_S0 := arg_S0 b; arg_K := arg_K b; arg_r := arg_r b;
     arg_sigma := arg_sigma b; arg_T := v; arg_N := arg_N b;
     arg_M := arg_M b; arg_lower := arg_lower b;
     arg_samples := arg_samples b;
     arg_option_payoff := arg_option_payoff b;
     arg_degree := arg_degree b; arg_mu := arg_mu b;
     arg_picard := arg_picard b |}.

(** The scenario for the spread classes, [K2] and [R] left to their
    defaults; [picard] is not an argument of these constructors. *)
Definition spread_scenario : SpreadArgs :=
  {| base_args := scenario; arg_K2 := PyNone; arg_R := PyNone |}.

(** A one-path, one-step run of the spread classes in which the price
    stays at 100: [S0=100, K=95, r=0, sigma=1, T=1, N=1, M=1, samples=1,
    degree=1, mu=0.5], [K2] and [R] at their defaults 105 and 0.06. *)
Definition one_path : SpreadArgs :=
  {| base_args :=
       {| arg_S0 := PyInt 100; arg_K := PyInt 95; arg_r := PyInt 0;
          arg_sigma := PyInt 1; arg_T := PyInt 1; arg_N := PyInt 1;
          arg_M := PyInt 1; arg_lower := PyFloat 0.025;
          arg_samples := PyInt 1; arg_option_payoff := PyStr "call";
          arg_degree := PyInt 1; arg_mu := PyFloat 0.5;
          arg_picard := PyInt 3 |};
     arg_K2 := PyNone; arg_R := PyNone |}.

(** The spread scenario with the payoff kind "Put" and a number of
    batches. *)
Definition put_scenario (samples : Z) : SpreadArgs :=
  {| base_args :=
       {| arg_S0 := PyInt 100; arg_K := PyInt 100; arg_r := PyFloat 0.05;
          arg_sigma := PyFloat 0.2; arg_T := PyInt 1; arg_N := PyInt 50;
          arg_M := PyInt 1000; arg_lower := PyFloat 0.025;
          arg_samples := PyInt samples; arg_option_payoff := PyStr "Put";
          arg_degree := PyInt 3; arg_mu := PyFloat 0.05;
          arg_picard := PyInt 3 |};
     arg_K2 := PyNone; arg_R := PyNone |}.

(** A stand-in for the numerical library whose solver is exact on
    regressions with two coefficients: [lstsq] solves a 2 x 2 system by
    Cramer's rule.  Its draws are [-1] then [1/2] on path 0 and 0 on every
    other path, in every batch. *)
Definition cramer_numpy : NumPy :=
  {| lstsq := fun A b =>
       match A, b with
       | [[a11; a12]; [a21; a22]], [b1; b2] =>
           let det := a11 * a22 - a12 * a21 in
           [(a22 * b1 - a12 * b2) / det; (a11 * b2 - a21 * b1) / det]
       | _, _ => []
       end;
     norm_ppf := fun q => q - 1 / 2;
     standard_normal := fun _ m n =>
       match m, n with
       | O, O => -1
       | O, S O => 1 / 2
       | _, _ => 0
       end |}.

(** A run with two paths, one time step and one batch: a put struck at 100
    with [S0=100, r=0.05, sigma=1, T=1, N=1, M=2, samples=1, degree=1,
    mu=0.5] (no drift in the log-price).  With the draws of
    [cramer_numpy] the prices are [100, 100/e, 100/sqrt(e)] on path 0 and
    [100, 100, 100] on path 1. *)
Definition two_paths : Args :=
  {| arg_S0 := PyInt 100; arg_K := PyInt 100; arg_r := PyFloat 0.05;
     arg_sigma := PyInt 1; arg_T := PyInt 1; arg_N := PyInt 1;
     arg_M := PyInt 2; arg_lower := PyFloat 0.025;
     arg_samples := PyInt 1; arg_option_payoff := PyStr "put";
     arg_degree := PyInt 1; arg_mu := PyFloat 0.5; arg_picard := PyInt 3 |}.

(** *** Further definitions for the properties of the whole file *)

(** An integer that is well inside the range of a float (any value that is
    not an integer passes): a sufficient condition for the two divisions
    of [__init__], [T / N] and [(mu - r) / sigma], not to overflow. *)
Definition fits_float (v : PyVal) : Prop := (Z.abs (int_of v) <= 2 ^ 1000)%Z.

(** The names [__init__] assigns, in the order of the assignments. *)
Definition attribute_names : list string :=
  ["S0"; "K"; "T"; "r"; "mu"; "sigma"; "N"; "M"; "option_payoff"; "degree";
   "dt"; "samples"; "lower"; "lamb"; "picard"].

(* ================================================================= *)
(** ** Lists, vectors and matrices *)

Lemma bind_ok {A B} (m : result A) (f : A -> result B) (b : B) :
  bind m f = Ok b -> exists a, m = Ok a /\ f a = Ok b.
Proof.
  destruct m as [a|e]; simpl; intros Hb; [eauto | discriminate].
Qed.

Lemma length_upd (i : nat) (x : R) (l : vec) : length (upd i x l) = length l.
Proof.
  revert i; induction l as [|y l IH]; intros [|i]; simpl; auto.
Qed.

Lemma nth_upd_eq (i : nat) (x d : R) (l : vec) :
  (i < length l)%nat -> nth i (upd i x l) d = x.
Proof.
  revert i; induction l as [|y l IH]; intros [|i]; simpl; intros Hi;
    try lia; auto.
  apply IH; lia.
Qed.

Lemma nth_upd_neq (i j : nat) (x d : R) (l : vec) :
  i <> j -> nth j (upd i x l) d = nth j l d.
Proof.
  revert i j; induction l as [|y l IH]; intros [|i] [|j]; simpl; intros Hij;
    try congruence; auto.
Qed.

Lemma length_col (i : nat) (X : matrix) : length (col i X) = length X.
Proof. apply length_map. Qed.

Lemma length_set_col (i : nat) (v : vec) (X : matrix) :
  length v = length X -> length (set_col i v X) = length X.
Proof.
  intros Hv; unfold set_col; rewrite length_map, length_combine; lia.
Qed.

Lemma shape_set_col (m c i : nat) (v : vec) (X : matrix) :
  shape m c X -> length v = m -> shape m c (set_col i v X).
Proof.
  intros [Hm Hc] Hv; split.
  - rewrite length_set_col; congruence.
  - unfold set_col; rewrite Forall_forall; intros row Hin.
    apply in_map_iff in Hin; destruct Hin as [[r x] [Hr Hin]]; subst row.
    rewrite length_upd; simpl.
    apply in_combine_l in Hin.
    rewrite Forall_forall in Hc; auto.
Qed.

Lemma col_set_col_eq (m c i : nat) (v : vec) (X : matrix) :
  shape m c X -> length v = m -> (i < c)%nat -> col i (set_col i v X) = v.
Proof.
  intros [Hm Hc] Hv Hi; subst m; revert v Hv.
  induction X as [|row X IH]; intros [|x v] Hv; simpl in *; try discriminate;
    auto.
  inversion Hc as [|? ? Hrow Hc']; subst.
  unfold col, set_col in *; simpl; f_equal.
  - apply nth_upd_eq; lia.
  - apply IH; auto.
Qed.

Lemma col_set_col_neq (i j : nat) (v : vec) (X : matrix) :
  length v = length X -> i <> j -> col j (set_col i v X) = col j X.
Proof.
  intros Hv Hij; revert v Hv.
  induction X as [|row X IH]; intros [|x v] Hv; simpl in *; try discriminate;
    auto.
  unfold col, set_col in *; simpl; f_equal.
  - apply nth_upd_neq; auto.
  - apply IH; auto.
Qed.

Lemma shape_zeros2 (m c : nat) : shape m c (zeros2 m c).
Proof.
  unfold zeros2, zeros; split.
  - apply repeat_length.
  - rewrite Forall_forall; intros row Hin.
    apply repeat_spec in Hin; subst row; apply repeat_length.
Qed.

Lemma ncols_shape (m c : nat) (X : matrix) :
  shape m c X -> (0 < m)%nat -> ncols X = c.
Proof.
  intros [Hm Hc] Hpos; destruct X as [|row X]; simpl in *; [lia|].
  inversion Hc; auto.
Qed.

Lemma range_down_S (n : nat) : range_down (S n) = S n :: range_down n.
Proof.
  unfold range_down; rewrite seq_S, rev_app_distr; reflexivity.
Qed.

(* ================================================================= *)
(** ** The backward loop writes each column once *)

Section Sweep.
Variables (m n : nat).
Variable body : nat -> matrix -> result matrix.
Variable F : nat -> vec -> vec.

Hypothesis body_eq : forall i Y,
  (1 <= i <= n)%nat -> shape m (n + 1) Y ->
  body i Y = Ok (set_col (i - 1) (F i (col i Y)) Y).
Hypothesis F_length : forall i v,
  (1 <= i <= n)%nat -> length v = m -> length (F i v) = m.

Lemma sweep_from (j : nat) : forall Y,
  (j <= n)%nat -> shape m (n + 1) Y ->
  exists Y', for_each (range_down j) body Y = Ok Y'
    /\ shape m (n + 1) Y'
    /\ (forall c, (j <= c)%nat -> col c Y' = col c Y)
    /\ (forall i, (1 <= i <= j)%nat -> col (i - 1) Y' = F i (col i Y')).
Proof.
  induction j as [|j IH]; intros Y Hj HY.
  - exists Y; simpl; repeat split; auto; try apply HY.
    intros i Hi; lia.
  - rewrite range_down_S; simpl.
    rewrite body_eq by (auto; lia); simpl.
    set (v := F (S j) (col (S j) Y)).
    assert (Hv : length v = m).
    { apply F_length; [lia|]. rewrite length_col; apply HY. }
    set (Y1 := set_col (j - 0) v Y).
    assert (HY1 : shape m (n + 1) Y1) by (apply shape_set_col; auto).
    destruct (IH Y1) as (Y' & Hrun & HY' & Hkeep & Hrec); [lia | auto |].
    exists Y'; repeat split; auto; try apply HY'.
    + intros c Hc; rewrite Hkeep by lia.
      apply col_set_col_neq; [destruct HY; congruence | lia].
    + intros i Hi.
      destruct (Nat.eq_dec i (S j)) as [->|Hne]; [|apply Hrec; lia].
      simpl; rewrite Nat.sub_0_r.
      rewrite !Hkeep by lia.
      unfold Y1; rewrite Nat.sub_0_r.
      rewrite (@col_set_col_eq m (n + 1)) by (auto; lia).
      rewrite col_set_col_neq by (destruct HY; try congruence; lia).
      reflexivity.
Qed.

Lemma sweep_spec (Y : matrix) :
  shape m (n + 1) Y ->
  exists Y', for_each (range_down n) body Y = Ok Y'
    /\ shape m (n + 1) Y'
    /\ col n Y' = col n Y
    /\ (forall i, (1 <= i <= n)%nat -> col (i - 1) Y' = F i (col i Y')).
Proof.
  intros HY; destruct (@sweep_from n Y) as (Y' & H1 & H2 & H3 & H4); auto.
  exists Y'; repeat split; auto; apply H2.
Qed.

End Sweep.

(* ================================================================= *)
(** ** The constructor *)

Lemma py_le_false_num (v : PyVal) (c : Z) :
  isinstance_num v = true -> py_le v c = false -> IZR c < real_of v.
Proof.
  destruct v as [|b|z|x|s]; simpl; try discriminate; intros _ Hle.
  - apply Z.leb_gt in Hle; apply IZR_lt; auto.
  - apply Z.leb_gt in Hle; apply IZR_lt; auto.
  - destruct (Rle_dec x (IZR c)); [discriminate | lra].
Qed.

Lemma py_le_false_int (v : PyVal) (c : Z) :
  isinstance_int v = true -> py_le v c = false -> (c < int_of v)%Z.
Proof.
  destruct v as [|b|z|x|s]; simpl; try discriminate; intros _ Hle;
    apply Z.leb_gt in Hle; auto.
Qed.

Lemma py_le_num (v : PyVal) (c : Z) :
  isinstance_num v = true -> IZR c < real_of v -> py_le v c = false.
Proof.
  destruct v as [|b|z|x|s]; simpl; try discriminate; intros _ Hlt.
  - apply Z.leb_gt; apply lt_IZR; auto.
  - apply Z.leb_gt; apply lt_IZR; auto.
  - destruct (Rle_dec x (IZR c)); [lra | reflexivity].
Qed.

Lemma py_le_int (v : PyVal) (c : Z) :
  isinstance_int v = true -> (c < int_of v)%Z -> py_le v c = false.
Proof.
  destruct v as [|b|z|x|s]; simpl; try discriminate; intros _ Hlt;
    apply Z.leb_gt; auto.
Qed.

Lemma py_lt_int (v : PyVal) (c : Z) :
  isinstance_int v = true -> py_lt v c = (int_of v <? c)%Z.
Proof. destruct v; simpl; try discriminate; auto. Qed.

Lemma py_gt_int (v : PyVal) (c : Z) :
  isinstance_int v = true -> py_gt v c = (c <? int_of v)%Z.
Proof. destruct v; simpl; try discriminate; auto. Qed.

Lemma isinstance_int_num (v : PyVal) :
  isinstance_int v = true -> isinstance_num v = true.
Proof. unfold isinstance_num; intros ->; reflexivity. Qed.

Lemma get_opt_payoff_cases (v : PyVal) (p : string) :
  European._get_opt_payoff v = Ok p ->
  exists s, v = PyStr s
    /\ ((lower s = "call" /\ p = "call")
        \/ (lower s <> "call" /\ lower s = "put" /\ p = "put")).
Proof.
  destruct v as [|b|z|x|s]; simpl; try discriminate.
  destruct (String.eqb_spec (lower s) "call") as [Hc|Hc].
  - intros [= <-]; eauto.
  - destruct (String.eqb_spec (lower s) "put") as [Hp|Hp];
      [intros [= <-]; eauto 6 | discriminate].
Qed.

(** *** The arithmetic of the constructor *)

Lemma float_overflow_above : (2 * 2 ^ 1000 < float_overflow)%Z.
Proof. vm_compute. reflexivity. Qed.

Lemma float_of_int_ok (z : Z) :
  (Z.abs z <= 2 * 2 ^ 1000)%Z -> float_of_int z = Ok (IZR z).
Proof.
  intros Hz. unfold float_of_int.
  pose proof float_overflow_above as Hb.
  replace (Z.abs z <? float_overflow)%Z with true; [reflexivity|].
  symmetry. apply Z.ltb_lt.
  generalize dependent (2 ^ 1000)%Z. intros P ? ?. lia.
Qed.

Lemma as_number_real (v : PyVal) (n : number) :
  as_number v = Ok n ->
  isinstance_num v = true
  /\ match n with
     | IntNum z => isinstance_int v = true /\ z = int_of v
     | FloatNum x => v = PyFloat x
     end.
Proof.
  destruct v as [|b|z|x|s]; simpl; try discriminate;
    intros [= <-]; auto.
Qed.

Lemma as_number_num (v : PyVal) :
  isinstance_num v = true ->
  as_number v = Ok (if isinstance_int v then IntNum (int_of v)
                    else FloatNum (real_of v)).
Proof. destruct v; simpl; try discriminate; reflexivity. Qed.

Lemma to_float_real (v : PyVal) (n : number) (u : R) :
  as_number v = Ok n -> to_float n = Ok u -> u = real_of v.
Proof.
  intros Hn Hu. apply as_number_real in Hn. destruct Hn as [_ Hn].
  destruct n as [z|x]; simpl in Hu.
  - destruct Hn as [Hi ->]. unfold float_of_int in Hu.
    destruct (Z.abs (int_of v) <? float_overflow)%Z; [|discriminate].
    injection Hu as <-.
    destruct v; simpl in *; try discriminate; reflexivity.
  - subst v. injection Hu as <-. reflexivity.
Qed.

(** What [x - y] and [x / y] return, when they return. *)
Lemma py_sub_inv (x y v : PyVal) :
  py_sub x y = Ok v ->
  isinstance_num x = true /\ isinstance_num y = true
  /\ isinstance_num v = true /\ real_of v = real_of x - real_of y.
Proof.
  unfold py_sub. intros Hb.
  apply bind_ok in Hb; destruct Hb as (n1 & H1 & Hb).
  apply bind_ok in Hb; destruct Hb as (n2 & H2 & Hb).
  destruct (as_number_real _ H1) as [Hx Hn1].
  destruct (as_number_real _ H2) as [Hy Hn2].
  split; [exact Hx | split; [exact Hy|]].
  assert (Hfloat : (u <- to_float n1 ;; v0 <- to_float n2 ;;
                    Ok (PyFloat (u - v0))) = Ok v ->
                   isinstance_num v = true
                   /\ real_of v = real_of x - real_of y).
  { intros Hf.
    apply bind_ok in Hf; destruct Hf as (u & Hu & Hf).
    apply bind_ok in Hf; destruct Hf as (w & Hw & Hf).
    injection Hf as <-.
    rewrite (to_float_real _ H1 Hu), (to_float_real _ H2 Hw).
    split; reflexivity. }
  destruct n1 as [m|u]; destruct n2 as [n|w]; auto.
  injection Hb as <-. destruct Hn1 as [Hi1 ->], Hn2 as [Hi2 ->].
  split; [reflexivity|].
  cbn [real_of int_of]. rewrite minus_IZR.
  destruct x, y; simpl in *; try discriminate; reflexivity.
Qed.

Lemma py_truediv_inv (x y v : PyVal) :
  py_truediv x y = Ok v -> v = PyFloat (real_of x / real_of y).
Proof.
  unfold py_truediv. intros Hb.
  apply bind_ok in Hb; destruct Hb as (n1 & H1 & Hb).
  apply bind_ok in Hb; destruct Hb as (n2 & H2 & Hb).
  destruct (as_number_real _ H1) as [Hx Hn1].
  destruct (as_number_real _ H2) as [Hy Hn2].
  assert (Hfloat : (u <- to_float n1 ;; v0 <- to_float n2 ;;
                    if Req_dec_T v0 0
                    then Err (ZeroDivisionError "float division by zero")
                    else Ok (PyFloat (u / v0))) = Ok v ->
                   v = PyFloat (real_of x / real_of y)).
  { intros Hf.
    apply bind_ok in Hf; destruct Hf as (u & Hu & Hf).
    apply bind_ok in Hf; destruct Hf as (w & Hw & Hf).
    destruct (Req_dec_T w 0); [discriminate|].
    injection Hf as <-.
    rewrite (to_float_real _ H1 Hu), (to_float_real _ H2 Hw). reflexivity. }
  destruct n1 as [m|u]; destruct n2 as [n|w]; auto.
  destruct (n =? 0)%Z; [discriminate|].
  destruct (Z.abs m <? float_overflow * Z.abs n)%Z; [|discriminate].
  injection Hb as <-. destruct Hn1 as [Hi1 ->], Hn2 as [Hi2 ->].
  destruct x, y; simpl in *; try discriminate; reflexivity.
Qed.

(** On integers that fit a float they do return. *)
Lemma py_sub_ok (x y : PyVal) :
  isinstance_num x = true -> isinstance_num y = true ->
  fits_float x -> fits_float y ->
  exists v, py_sub x y = Ok v /\ (Z.abs (int_of v) <= 2 * 2 ^ 1000)%Z.
Proof.
  unfold fits_float. intros Hx Hy Fx Fy. unfold py_sub.
  rewrite (as_number_num _ Hx), (as_number_num _ Hy). cbn [bind].
  assert (F0 : (0 <= 2 ^ 1000)%Z) by (apply Z.pow_nonneg; lia).
  destruct (isinstance_int x) eqn:Ex; destruct (isinstance_int y) eqn:Ey;
    cbn [to_float bind].
  - eexists; split; [reflexivity|]. cbn [int_of].
    generalize dependent (2 ^ 1000)%Z. intros P ? ? ?. lia.
  - rewrite float_of_int_ok by lia. cbn [bind].
    eexists; split; [reflexivity|]. cbn [int_of]. simpl. lia.
  - rewrite float_of_int_ok by lia. cbn [bind].
    eexists; split; [reflexivity|]. cbn [int_of]. simpl. lia.
  - eexists; split; [reflexivity|]. cbn [int_of]. simpl. lia.
Qed.

Lemma py_truediv_ok (x y : PyVal) :
  isinstance_num x = true -> isinstance_num y = true ->
  real_of y <> 0 ->
  (Z.abs (int_of x) <= 2 * 2 ^ 1000)%Z -> fits_float y ->
  py_truediv x y = Ok (PyFloat (real_of x / real_of y)).
Proof.
  unfold fits_float. intros Hx Hy Hy0 Fx Fy.
  assert (Hex : exists v, py_truediv x y = Ok v).
  { unfold py_truediv.
    rewrite (as_number_num _ Hx), (as_number_num _ Hy). cbn [bind].
    assert (F0 : (0 <= 2 ^ 1000)%Z) by (apply Z.pow_nonneg; lia).
    pose proof float_overflow_above as Hb.
    destruct (isinstance_int x) eqn:Ex; destruct (isinstance_int y) eqn:Ey;
      cbn [to_float bind].
    - assert (Hn : int_of y <> 0%Z).
      { intros E. apply Hy0.
        destruct y; simpl in *; try discriminate; rewrite E; reflexivity. }
      apply Z.eqb_neq in Hn. rewrite Hn.
      replace (Z.abs (int_of x) <? float_overflow * Z.abs (int_of y))%Z
        with true; [eauto|].
      symmetry. apply Z.ltb_lt.
      apply Z.eqb_neq in Hn.
      assert (1 <= Z.abs (int_of y))%Z by lia.
      assert (float_overflow * 1 <= float_overflow * Z.abs (int_of y))%Z.
      { apply Z.mul_le_mono_nonneg_l; [|assumption].
        generalize dependent (2 ^ 1000)%Z. intros P ? ? ? ?. lia. }
      generalize dependent (2 ^ 1000)%Z. intros P ? ? ? ?. lia.
    - rewrite float_of_int_ok by lia. cbn [bind].
      destruct (Req_dec_T (real_of y) 0); [contradiction | eauto].
    - rewrite float_of_int_ok
        by (generalize dependent (2 ^ 1000)%Z; intros P ? ? ? ?; lia).
      cbn [bind].
      destruct (Req_dec_T (IZR (int_of y)) 0) as [E|_]; [|eauto].
      exfalso. apply Hy0.
      destruct y; simpl in *; try discriminate; exact E.
    - destruct (Req_dec_T (real_of y) 0); [contradiction | eauto]. }
  destruct Hex as (v & Hv). rewrite Hv. f_equal.
  apply py_truediv_inv. exact Hv.
Qed.

Lemma init_inv (a : Args) (self : Instance) :
  European.__init__ a = Ok self ->
  valid_args a
  /\ exists p, European._get_opt_payoff (arg_option_payoff a) = Ok p
       /\ self = instance_of a p.
Proof.
  unfold European.__init__.
  repeat match goal with
  | |- (if ?c then _ else _) = _ -> _ =>
      let E := fresh "E" in destruct c eqn:E; [discriminate|]
  end.
  repeat match goal with
  | E : _ || _ = false |- _ => apply orb_false_elim in E; destruct E
  | E : negb _ = false |- _ => apply negb_false_iff in E
  end.
  intros Hb.
  apply bind_ok in Hb; destruct Hb as (p & Hp & Hb).
  apply bind_ok in Hb; destruct Hb as (dt & Hdt & Hb).
  apply bind_ok in Hb; destruct Hb as (excess & Hex & Hb).
  apply bind_ok in Hb; destruct Hb as (lamb & Hlamb & Hb).
  injection Hb as <-.
  apply py_truediv_inv in Hdt, Hlamb. subst dt lamb.
  apply py_sub_inv in Hex. destruct Hex as (Hmu & _ & _ & ->).
  split.
  - rewrite py_lt_int in * by auto.
    constructor; auto; split; auto;
      first [ change 0 with (IZR 0); apply py_le_false_num; assumption
            | apply py_le_false_int; assumption
            | apply Z.ltb_ge; assumption ].
  - exists p; split; auto.
Qed.

Lemma init_ok (a : Args) (p : string) :
  valid_args a ->
  Forall fits_float [arg_T a; arg_N a; arg_mu a; arg_r a; arg_sigma a] ->
  European._get_opt_payoff (arg_option_payoff a) = Ok p ->
  European.__init__ a = Ok (instance_of a p).
Proof.
  intros [[? ?] [? ?] [HT ?] Hr [Hsig Hsig0] [HN HN0] [? ?] [? Hd] ? Hmu]
    Hfits Hp.
  inversion Hfits as [|? ? FT Hf1]; subst.
  inversion Hf1 as [|? ? FN Hf2]; subst.
  inversion Hf2 as [|? ? Fmu Hf3]; subst.
  inversion Hf3 as [|? ? Fr Hf4]; subst.
  inversion Hf4 as [|? ? Fsig _]; subst.
  unfold European.__init__.
  rewrite !py_le_num by (auto; simpl; lra).
  rewrite !py_le_int by auto.
  rewrite py_lt_int by auto.
  apply Z.ltb_ge in Hd; rewrite Hd.
  repeat match goal with E : _ = true |- _ => rewrite E end.
  simpl. rewrite Hp; cbn [bind].
  assert (HN1 : isinstance_num (arg_N a) = true)
    by (apply isinstance_int_num; assumption).
  assert (HNr : real_of (arg_N a) <> 0).
  { destruct (arg_N a); simpl in *; try discriminate;
      apply not_0_IZR; lia. }
  assert (F0 : (0 <= 2 ^ 1000)%Z) by (apply Z.pow_nonneg; lia).
  rewrite (@py_truediv_ok _ _ HT HN1 HNr) by (unfold fits_float in *; lia).
  cbn [bind].
  destruct (@py_sub_ok _ _ Hmu Hr Fmu Fr) as (excess & Hex & Fex).
  rewrite Hex. cbn [bind].
  destruct (@py_sub_inv _ _ _ Hex) as (_ & _ & Hexn & Hexr).
  rewrite (@py_truediv_ok _ _ Hexn Hsig) by (auto; lra).
  cbn [bind]. rewrite Hexr. reflexivity.
Qed.

(* ================================================================= *)
(** ** Shapes *)

Lemma length_vmap2 (f : R -> R -> R) (u v : vec) :
  length (vmap2 f u v) = Nat.min (length u) (length v).
Proof. unfold vmap2; rewrite length_map, length_combine; reflexivity. Qed.

Lemma length_matvec (A : matrix) (v : vec) : length (matvec A v) = length A.
Proof. apply length_map. Qed.

Lemma length_basis (d : nat) (S : vec) : length (basis d S) = length S.
Proof. apply length_map. Qed.

Lemma length_fitted `{NumPy} (X : matrix) (y : vec) :
  length (fitted X y) = length X.
Proof. apply length_matvec. Qed.

Lemma length_col_last (X : matrix) : length (col_last X) = length X.
Proof. apply length_map. Qed.

Lemma length_plain_payoff (p : string) (K : R) (S : vec) :
  length (plain_payoff p K S) = length S.
Proof.
  unfold plain_payoff; destruct (String.eqb p "call"); apply length_map.
Qed.

Lemma length_cumsum_from (acc : R) (v : vec) :
  length (cumsum_from acc v) = length v.
Proof. revert acc; induction v; simpl; auto. Qed.

Lemma shape_random_normal `{NumPy} (k : nat) (loc scale : R) (m c : nat) :
  shape m c (np_random_normal k loc scale m c).
Proof.
  unfold np_random_normal; split.
  - rewrite length_map, length_seq; reflexivity.
  - rewrite Forall_forall; intros row Hin.
    apply in_map_iff in Hin; destruct Hin as (i & <- & _).
    rewrite length_map, length_seq; reflexivity.
Qed.

Lemma shape_paths_dW `{NumPy} (a : Args) (k : nat) :
  shape (cfg_M a) (cfg_N a + 1) (paths_dW a k).
Proof. apply shape_random_normal. Qed.

Lemma shape_paths_S `{NumPy} (a : Args) (k : nat) :
  shape (cfg_M a) (cfg_N a + 2) (paths_S a k).
Proof.
  destruct (shape_paths_dW a k) as [Hm Hc].
  unfold paths_S; split.
  - rewrite length_map; auto.
  - rewrite Forall_forall; intros row Hin.
    apply in_map_iff in Hin; destruct Hin as (w & <- & Hin).
    rewrite Forall_forall in Hc.
    rewrite length_map; simpl.
    unfold np_cumsum; rewrite length_cumsum_from, length_map, (Hc w Hin).
    lia.
Qed.

Lemma length_european_update `{NumPy} (a : Args) (S : matrix) (i : nat)
    (y : vec) :
  length (european_update a S i y) = length S.
Proof.
  unfold european_update.
  rewrite length_map, length_fitted, length_basis, length_col; reflexivity.
Qed.

Lemma length_american_update `{NumPy} (a : Args) (p : string) (S : matrix)
    (i : nat) (y : vec) :
  length (american_update a p S i y) = length S.
Proof.
  unfold american_update.
  rewrite length_vmap2, length_european_update, length_plain_payoff,
    length_col.
  apply Nat.min_id.
Qed.

Lemma col_last_set (m c : nat) (v : vec) (X : matrix) :
  shape m (c + 1) X -> (0 < m)%nat -> length v = m ->
  col c (set_col_last v X) = v.
Proof.
  intros HX Hm Hv; unfold set_col_last.
  rewrite (ncols_shape HX Hm).
  replace (c + 1 - 1)%nat with c by lia.
  apply (@col_set_col_eq m (c + 1)); auto; lia.
Qed.

(* ================================================================= *)
(** ** The methods on a constructed object *)

Lemma as_real_num (v : PyVal) :
  isinstance_num v = true -> as_real v = Ok (real_of v).
Proof. unfold as_real; intros ->; reflexivity. Qed.

Lemma as_index_int (v : PyVal) :
  isinstance_int v = true -> as_index v = Ok (int_of v).
Proof. unfold as_index; intros ->; reflexivity. Qed.

Lemma type_is_int_isinstance (v : PyVal) :
  type_is_int v = true -> isinstance_int v = true.
Proof. destruct v; simpl; auto; discriminate. Qed.

Lemma as_size_int (v : PyVal) :
  type_is_int v = true -> (0 <= int_of v)%Z -> as_size v = Ok (int_of v).
Proof.
  destruct v as [|b|z|x|s]; simpl; try discriminate; intros _ Hz.
  replace (z <? 0)%Z with false by (symmetry; apply Z.ltb_ge; lia).
  reflexivity.
Qed.

Lemma as_size_bool (b : bool) :
  as_size (PyBool b)
  = Err (TypeError "expected a sequence of integers or a single integer").
Proof. reflexivity. Qed.

Lemma extends_refl (self : Instance) : extends self self.
Proof. intros name _ _; reflexivity. Qed.

Section Constructed.
Context `{NumPy}.
Variables (a : Args) (p : string) (self : Instance).
Hypothesis Hvalid : valid_args a.
Hypothesis Hself : extends self (instance_of a p).
Hypothesis HM : type_is_int (arg_M a) = true.

Ltac base_attr :=
  unfold attr_real, attr_nat, attr_size; rewrite Hself by discriminate;
  simpl getattr; cbn [bind].

Lemma attr_S0 : attr_real self "S0" = Ok (cfg_S0 a).
Proof. base_attr. apply as_real_num, Hvalid. Qed.

Lemma attr_K : attr_real self "K" = Ok (cfg_K a).
Proof. base_attr. apply as_real_num, Hvalid. Qed.

Lemma attr_T : attr_real self "T" = Ok (cfg_T a).
Proof. base_attr. apply as_real_num, Hvalid. Qed.

Lemma attr_r : attr_real self "r" = Ok (cfg_r a).
Proof. base_attr. apply as_real_num, Hvalid. Qed.

Lemma attr_mu : attr_real self "mu" = Ok (cfg_mu a).
Proof. base_attr. apply as_real_num, Hvalid. Qed.

Lemma attr_sigma : attr_real self "sigma" = Ok (cfg_sigma a).
Proof. base_attr. apply as_real_num, Hvalid. Qed.

Lemma attr_lower : attr_real self "lower" = Ok (cfg_lower a).
Proof.
  base_attr. apply as_real_num. unfold isinstance_num.
  rewrite (valid_lower Hvalid); apply orb_true_r.
Qed.

Lemma attr_dt : attr_real self "dt" = Ok (cfg_dt a).
Proof. base_attr. reflexivity. Qed.

Lemma attr_lamb : attr_real self "lamb" = Ok (cfg_lamb a).
Proof. base_attr. reflexivity. Qed.

Lemma attr_N_real : attr_real self "N" = Ok (real_of (arg_N a)).
Proof. base_attr. apply as_real_num, isinstance_int_num, Hvalid. Qed.

Lemma attr_M_real : attr_real self "M" = Ok (real_of (arg_M a)).
Proof. base_attr. apply as_real_num, isinstance_int_num, Hvalid. Qed.

Lemma attr_N : attr_nat self "N" = Ok (cfg_N a).
Proof. base_attr. rewrite as_index_int by apply Hvalid. reflexivity. Qed.

Lemma attr_M : attr_size self "M" = Ok (cfg_M a).
Proof.
  base_attr. rewrite as_size_int; [reflexivity | exact HM|].
  destruct (valid_M Hvalid). lia.
Qed.

Lemma attr_degree : getattr self "degree" = Ok (arg_degree a).
Proof. rewrite Hself by discriminate. reflexivity. Qed.

Lemma attr_option_payoff : getattr self "option_payoff" = Ok (PyStr p).
Proof. rewrite Hself by discriminate. reflexivity. Qed.

Lemma attr_samples : getattr self "samples" = Ok (arg_samples a).
Proof. rewrite Hself by discriminate. reflexivity. Qed.

Lemma attr_picard : getattr self "picard" = Ok (arg_picard a).
Proof. rewrite Hself by discriminate. reflexivity. Qed.

(** No assignment of the constructors creates [option_type]. *)
Lemma attr_option_type :
  getattr self "option_type" = Err (AttributeError "option_type").
Proof. rewrite Hself by discriminate. reflexivity. Qed.

Lemma cfg_N_pos : (0 < cfg_N a)%nat.
Proof. unfold cfg_N. destruct (valid_N Hvalid). lia. Qed.

Lemma cfg_M_pos : (0 < cfg_M a)%nat.
Proof. unfold cfg_M. destruct (valid_M Hvalid). lia. Qed.

Lemma generate_stock_paths_eq (k : nat) :
  European._generate_stock_paths self k = Ok (paths_S a k, paths_dW a k).
Proof.
  unfold European._generate_stock_paths.
  rewrite attr_T, attr_N_real, attr_M, attr_N, attr_mu, attr_sigma, attr_S0.
  simpl. unfold paths_S, paths_dW, cfg_dt.
  rewrite map_map. reflexivity.
Qed.

Lemma generate_regression_ok (S : vec) :
  (1 <= int_of (arg_degree a) <= 20)%Z ->
  European._generate_regression self S = Ok (basis (cfg_degree a) S).
Proof.
  intros Hd; unfold European._generate_regression.
  destruct (valid_degree Hvalid) as [Hint _].
  rewrite attr_degree; simpl.
  rewrite as_real_num by (apply isinstance_int_num; auto); simpl.
  rewrite py_gt_int, py_lt_int by auto.
  replace (20 <? int_of (arg_degree a))%Z with false
    by (symmetry; apply Z.ltb_ge; lia).
  replace (int_of (arg_degree a) <? 1)%Z with false
    by (symmetry; apply Z.ltb_ge; lia).
  simpl. rewrite as_index_int by auto. reflexivity.
Qed.

Lemma generate_regression_err (S : vec) :
  ~ (1 <= int_of (arg_degree a) <= 20)%Z ->
  European._generate_regression self S
  = Err (ValueError "Invalid degree on Polynomial basis").
Proof.
  intros Hd; unfold European._generate_regression.
  destruct (valid_degree Hvalid) as [Hint _].
  rewrite attr_degree; simpl.
  rewrite as_real_num by (apply isinstance_int_num; auto); simpl.
  rewrite py_gt_int, py_lt_int by auto.
  destruct (Z.ltb_spec 20 (int_of (arg_degree a))); simpl; auto.
  destruct (Z.ltb_spec (int_of (arg_degree a)) 1); simpl; auto.
  lia.
Qed.

Lemma payoff_func_eq (S : vec) :
  p = "call" \/ p = "put" ->
  European._payoff_func self S = Ok (plain_payoff p (cfg_K a) S).
Proof.
  unfold European._payoff_func, plain_payoff.
  rewrite attr_option_payoff, attr_K.
  intros [-> | ->]; reflexivity.
Qed.

(** *** The sweeps of the plain classes *)

Section PlainSweeps.
Hypothesis Hdegree : (1 <= int_of (arg_degree a) <= 20)%Z.
Hypothesis Hpayoff : p = "call" \/ p = "put".

Lemma european_step_eq (S : matrix) (i : nat) (Y : matrix) :
  European.backward_step self S i Y
  = Ok (set_col (i - 1) (european_update a S i (col i Y)) Y).
Proof.
  unfold European.backward_step.
  rewrite generate_regression_ok, attr_r, attr_dt by assumption.
  reflexivity.
Qed.

Lemma american_step_eq (S : matrix) (i : nat) (Y : matrix) :
  American.backward_step self S i Y
  = Ok (set_col (i - 1) (american_update a p S i (col i Y)) Y).
Proof.
  unfold American.backward_step, American._payoff_func.
  rewrite generate_regression_ok, payoff_func_eq, attr_r, attr_dt
    by assumption.
  reflexivity.
Qed.

Lemma plain_batch_start (k : nat) :
  let Y0 := set_col_last (plain_payoff p (cfg_K a) (col_last (paths_S a k)))
                         (zeros2 (cfg_M a) (cfg_N a + 1)) in
  shape (cfg_M a) (cfg_N a + 1) Y0
  /\ col (cfg_N a) Y0 = plain_payoff p (cfg_K a) (col_last (paths_S a k)).
Proof.
  pose proof (shape_paths_S a k) as [HSm _].
  pose proof cfg_M_pos as HMpos.
  assert (Hlen : length (plain_payoff p (cfg_K a) (col_last (paths_S a k)))
                 = cfg_M a).
  { rewrite length_plain_payoff, length_col_last; auto. }
  split.
  - apply shape_set_col; auto using shape_zeros2.
  - apply (@col_last_set (cfg_M a)); auto using shape_zeros2.
Qed.

Lemma european_batch_spec (k : nat) :
  exists Y, European.batch self k = Ok Y
    /\ shape (cfg_M a) (cfg_N a + 1) Y
    /\ col (cfg_N a) Y = plain_payoff p (cfg_K a) (col_last (paths_S a k))
    /\ (forall i, (1 <= i <= cfg_N a)%nat ->
          col (i - 1) Y = european_update a (paths_S a k) i (col i Y)).
Proof.
  pose proof (shape_paths_S a k) as [HSm _].
  destruct (plain_batch_start k) as [HY0 HN0].
  unfold European.batch.
  rewrite generate_stock_paths_eq, attr_M, attr_N; cbn [bind fst snd].
  rewrite payoff_func_eq by assumption; cbn [bind].
  destruct (@sweep_spec (cfg_M a) (cfg_N a)
              (European.backward_step self (paths_S a k))
              (european_update a (paths_S a k))
              (fun i Y _ _ => european_step_eq (paths_S a k) i Y)
              (fun i v _ _ => eq_trans (length_european_update _ _ _ _) HSm)
              _ HY0)
    as (Y & Hrun & HY & HN & Hrec).
  exists Y; repeat split; auto; try apply HY. congruence.
Qed.

Lemma american_batch_spec (k : nat) :
  exists Y, American.batch self k = Ok Y
    /\ shape (cfg_M a) (cfg_N a + 1) Y
    /\ col (cfg_N a) Y = plain_payoff p (cfg_K a) (col_last (paths_S a k))
    /\ (forall i, (1 <= i <= cfg_N a)%nat ->
          col (i - 1) Y = american_update a p (paths_S a k) i (col i Y)).
Proof.
  pose proof (shape_paths_S a k) as [HSm _].
  destruct (plain_batch_start k) as [HY0 HN0].
  unfold American.batch, American._payoff_func.
  rewrite generate_stock_paths_eq, attr_M, attr_N; cbn [bind fst snd].
  rewrite payoff_func_eq by assumption; cbn [bind].
  destruct (@sweep_spec (cfg_M a) (cfg_N a)
              (American.backward_step self (paths_S a k))
              (american_update a p (paths_S a k))
              (fun i Y _ _ => american_step_eq (paths_S a k) i Y)
              (fun i v _ _ => eq_trans (length_american_update _ _ _ _ _) HSm)
              _ HY0)
    as (Y & Hrun & HY & HN & Hrec).
  exists Y; repeat split; auto; try apply HY. congruence.
Qed.

End PlainSweeps.
End Constructed.

(* ================================================================= *)
(** ** The loop over the batches *)

Lemma for_each_upd {B : Type} (f : nat -> result B) (g : B -> R) :
  forall len s st,
  (s + len <= length st)%nat ->
  (forall k, (s <= k < s + len)%nat -> exists b, f k = Ok b) ->
  exists st',
    for_each (seq s len) (fun k st => b <- f k ;; Ok (upd k (g b) st)) st
    = Ok st'
    /\ length st' = length st
    /\ (forall k, (k < s)%nat -> nth k st' 0 = nth k st 0)
    /\ (forall k, (s <= k < s + len)%nat ->
          exists b, f k = Ok b /\ nth k st' 0 = g b).
Proof.
  induction len as [|len IH]; intros s st Hlen Hf.
  - exists st; simpl; repeat split; auto. intros k Hk; lia.
  - destruct (Hf s) as (b & Hb); [lia|].
    simpl; rewrite Hb; simpl.
    destruct (IH (S s) (upd s (g b) st)) as (st' & Hrun & Hl & Hlow & Hhigh).
    + rewrite length_upd; lia.
    + intros k Hk; apply Hf; lia.
    + exists st'; repeat split; auto.
      * rewrite Hl; apply length_upd.
      * intros k Hk. rewrite Hlow by lia. apply nth_upd_neq; lia.
      * intros k Hk.
        destruct (Nat.eq_dec k s) as [->|Hne]; [|apply Hhigh; lia].
        exists b; split; auto.
        rewrite Hlow by lia. apply nth_upd_eq; lia.
Qed.

Lemma np_zeros_ok (v : PyVal) :
  type_is_int v = true -> (0 <= int_of v)%Z ->
  np_zeros v = Ok (zeros (Z.to_nat (int_of v))).
Proof.
  intros Hi Hn; unfold np_zeros.
  rewrite as_size_int by auto. reflexivity.
Qed.

(** A solver whose batch loop stores [g] of the batch result in
    [Y0_samples[k]] and returns [Y0_samples, 0]. *)
Lemma solver_loop_spec {B : Type} (self : Instance) (samples : PyVal)
    (f : nat -> result B) (g : B -> R) :
  type_is_int samples = true -> (0 <= int_of samples)%Z ->
  (forall k, (k < Z.to_nat (int_of samples))%nat -> exists b, f k = Ok b) ->
  exists Y0,
    (Y0_samples <- np_zeros samples ;;
     n <- as_index samples ;;
     Y0_samples <-
       for_each (range (Z.to_nat n))
         (fun k Y0_samples => b <- f k ;; Ok (upd k (g b) Y0_samples))
         Y0_samples ;;
     Ok (Y0_samples, Scalar 0)) = Ok (Y0, Scalar 0)
    /\ length Y0 = Z.to_nat (int_of samples)
    /\ (forall k, (k < Z.to_nat (int_of samples))%nat ->
          exists b, f k = Ok b /\ nth k Y0 0 = g b).
Proof.
  intros Hi Hn Hf.
  rewrite np_zeros_ok, as_index_int by auto using type_is_int_isinstance;
    simpl.
  destruct (@for_each_upd B f g (Z.to_nat (int_of samples)) 0
              (zeros (Z.to_nat (int_of samples))))
    as (Y0 & Hrun & Hl & _ & Hval).
  - unfold zeros; rewrite repeat_length; lia.
  - intros k Hk; apply Hf; lia.
  - unfold range; rewrite Hrun; simpl.
    exists Y0; repeat split; auto.
    + rewrite Hl; apply repeat_length.
    + intros k Hk; apply Hval; lia.
Qed.

(* ================================================================= *)
(** ** Concrete configurations *)

Ltac valid_args_tac :=
  constructor; simpl; repeat split; try reflexivity; try lia; try lra.

Ltac fits_float_tac :=
  repeat constructor; unfold fits_float; simpl; apply Z.leb_le; reflexivity.

Lemma scenario_valid : valid_args scenario.
Proof. valid_args_tac. Qed.

Lemma scenario_init :
  European.__init__ scenario = Ok (instance_of scenario "call").
Proof.
  apply init_ok; [apply scenario_valid | fits_float_tac | reflexivity].
Qed.

(* ================================================================= *)
(** ** The plain European solver *)



(* ================================================================= *)
(** ** The path simulator *)

Lemma nth_cumsum_from (v : vec) : forall acc n d,
  (n < length v)%nat ->
  nth n (cumsum_from acc v) d = acc + np_sum (firstn (S n) v).
Proof.
  induction v as [|x v IH]; intros acc n d Hn; simpl in Hn; [lia|].
  destruct n as [|n].
  - simpl. lra.
  - change (nth n (cumsum_from (acc + x) v) d
            = acc + (x + np_sum (firstn (S n) v))).
    rewrite IH by lia. lra.
Qed.

Lemma nth_cumsum (v : vec) (n : nat) (d : R) :
  (n <= length v)%nat ->
  nth n (0 :: np_cumsum v) d = np_sum (firstn n v).
Proof.
  intros Hn; destruct n as [|n]; [reflexivity|].
  simpl nth. unfold np_cumsum.
  rewrite nth_cumsum_from by lia. lra.
Qed.

Lemma nth_row_map {A : Type} (f : A -> vec) (l : list A) (m : nat) (d : A) :
  (m < length l)%nat -> nth m (map f l) [] = f (nth m l d).
Proof.
  intros Hm.
  rewrite (nth_indep (map f l) [] (f d)) by (rewrite length_map; auto).
  apply map_nth.
Qed.

Lemma paths_S_entry `{NumPy} (a : Args) (k m n : nat) :
  (m < cfg_M a)%nat -> (n <= cfg_N a + 1)%nat ->
  nth n (nth m (paths_S a k) []) 0
  = cfg_S0 a
    * exp (np_sum (map (log_return a) (firstn n (nth m (paths_dW a k) [])))).
Proof.
  intros Hm Hn.
  destruct (shape_paths_dW a k) as [HdWm HdWc].
  unfold paths_S.
  rewrite (nth_row_map _ (paths_dW a k) []) by lia.
  set (row := nth m (paths_dW a k) []).
  assert (Hrow : length row = (cfg_N a + 1)%nat).
  { rewrite Forall_forall in HdWc; apply HdWc, nth_In; lia. }
  rewrite (nth_indep _ 0 (cfg_S0 a * exp 0)).
  - rewrite (map_nth (fun l => cfg_S0 a * exp l)).
    rewrite nth_cumsum by (rewrite length_map; lia).
    rewrite firstn_map. reflexivity.
  - rewrite length_map; simpl.
    unfold np_cumsum; rewrite length_cumsum_from, length_map. lia.
Qed.


Lemma tiny_valid : valid_args tiny.
Proof. valid_args_tac. Qed.



(* ================================================================= *)
(** ** Where the degree is checked *)

(** C5 (as amended).  The constructor rejects a [degree] that is not an
    integer or is negative, with [ValueError]; it accepts every integer
    [degree >= 0].  On a constructed object the basis expander returns the
    [M x (degree+1)] Laguerre matrix when [1 <= degree <= 20], and raises
    [ValueError] on every call when [degree] is 0 or above 20. *)
Theorem degree_checked_per_call (a : Args) :
  (isinstance_int (arg_degree a) = false \/ (int_of (arg_degree a) < 0)%Z ->
   exists msg, European.__init__ a = Err (ValueError msg))
  /\ (forall self S,
        European.__init__ a = Ok self ->
        (0 <= int_of (arg_degree a))%Z
        /\ ((1 <= int_of (arg_degree a) <= 20)%Z ->
            European._generate_regression self S
            = Ok (basis (cfg_degree a) S)
            /\ shape (length S) (cfg_degree a + 1) (basis (cfg_degree a) S))
        /\ (int_of (arg_degree a) = 0%Z \/ (20 < int_of (arg_degree a))%Z ->
            European._generate_regression self S
            = Err (ValueError "Invalid degree on Polynomial basis"))).
Proof.
  split.
  - intros Hbad. unfold European.__init__.
    repeat match goal with
    | |- exists msg, (if ?c then _ else _) = _ =>
        destruct c eqn:?; [eexists; reflexivity|]
    end.
    exfalso.
    repeat match goal with
    | E : _ || _ = false |- _ => apply orb_false_elim in E; destruct E
    | E : negb _ = false |- _ => apply negb_false_iff in E
    end.
    destruct Hbad as [Hbad | Hbad]; [congruence|].
    rewrite py_lt_int in * by auto.
    match goal with E : (_ <? _)%Z = false |- _ => apply Z.ltb_ge in E; lia end.
  - intros self S Hinit.
    apply init_inv in Hinit; destruct Hinit as (Hvalid & p & Hp & ->).
    pose proof (extends_refl (instance_of a p)) as Hself.
    split; [apply (valid_degree Hvalid)|]. split.
    + intros Hd; split; [apply (generate_regression_ok Hvalid Hself); auto|].
      unfold basis; split; [apply length_map|].
      rewrite Forall_forall; intros row Hin.
      apply in_map_iff in Hin; destruct Hin as (s & <- & _).
      rewrite length_map, length_seq; reflexivity.
    + intros Hd; apply (generate_regression_err Hvalid Hself); lia.
Qed.

Lemma degree_checked_per_call_witness :
  European._generate_regression (instance_of scenario "call") [100; 120]
  = Ok (basis 3 [100; 120]).
Proof.
  destruct (degree_checked_per_call scenario) as [_ Hcall].
  destruct (Hcall (instance_of scenario "call") [100; 120]

                (init_ok scenario_valid ltac:(fits_float_tac) eq_refl))
    as (_ & Hok & _).
  apply Hok. simpl. lia.
Defined.

(** C5, as stated, fails: construction with [degree = 0] succeeds, and it
    is the basis expander that raises, on each call. *)
Lemma degree_zero_is_constructed :
  exists self,
    European.__init__ (with_degree scenario 0) = Ok self
    /\ forall S,
         European._generate_regression self S
         = Err (ValueError "Invalid degree on Polynomial basis").
Proof.
  assert (Hvalid : valid_args (with_degree scenario 0)) by valid_args_tac.
  exists (instance_of (with_degree scenario 0) "call"); split.
  - apply init_ok; [exact Hvalid | fits_float_tac | reflexivity].
  - intros S.
    apply (generate_regression_err Hvalid (extends_refl _)).
    simpl. lia.
Qed.

(* ================================================================= *)
(** ** Objects of the spread classes *)

Lemma spread_init_inv (a : SpreadArgs) (self : Instance) :
  spread_init European.__init__ a = Ok self ->
  valid_args (super_args (base_args a))
  /\ exists p,
       European._get_opt_payoff (arg_option_payoff (base_args a)) = Ok p
       /\ self = spread_instance_of a p.
Proof.
  unfold spread_init; intros Hb.
  apply bind_ok in Hb; destruct Hb as (base & Hbase & Hb).
  injection Hb as <-.
  apply init_inv in Hbase; destruct Hbase as (Hvalid & p & Hp & ->).
  split; [exact Hvalid|]. exists p; split; [exact Hp | reflexivity].
Qed.

Lemma spread_init_ok (a : SpreadArgs) (p : string) :
  valid_args (super_args (base_args a)) ->
  Forall fits_float
    (let b := base_args a in
     [arg_T b; arg_N b; arg_mu b; arg_r b; arg_sigma b]) ->
  European._get_opt_payoff (arg_option_payoff (base_args a)) = Ok p ->
  spread_init European.__init__ a = Ok (spread_instance_of a p).
Proof.
  intros Hvalid Hfits Hp; unfold spread_init.
  rewrite (init_ok Hvalid Hfits Hp). reflexivity.
Qed.

Lemma spread_extends (a : SpreadArgs) (p : string) :
  extends (spread_instance_of a p) (instance_of (super_args (base_args a)) p).
Proof.
  intros name HK2 HR. unfold spread_instance_of.
  cbn [getattr].
  destruct (String.eqb_spec "R" name) as [E|_]; [congruence|].
  destruct (String.eqb_spec "K2" name) as [E|_]; [congruence|].
  reflexivity.
Qed.

Lemma attr_K2 (a : SpreadArgs) (p : string) :
  getattr (spread_instance_of a p) "K2" = Ok (K2_or_default (arg_K2 a)).
Proof. reflexivity. Qed.

Lemma attr_R (a : SpreadArgs) (p : string) :
  getattr (spread_instance_of a p) "R" = Ok (R_or_default (arg_R a)).
Proof. reflexivity. Qed.

Lemma spread_scenario_valid : valid_args (super_args (base_args spread_scenario)).
Proof. valid_args_tac. Qed.

Lemma nth_map_lt (f : R -> R) (l : vec) (m : nat) :
  (m < length l)%nat -> nth m (map f l) 0 = f (nth m l 0).
Proof.
  intros Hm.
  rewrite (nth_indep (map f l) 0 (f 0)) by (rewrite length_map; auto).
  apply map_nth.
Qed.

(* ================================================================= *)
(** ** The spread payoffs *)

Lemma call_spread_bounds (s K K2 : R) :
  K <= K2 -> 0 <= Rmax (s - K) 0 - Rmax (s - K2) 0 <= K2 - K.
Proof.
  intros HK; unfold Rmax.
  destruct (Rle_dec (s - K) 0), (Rle_dec (s - K2) 0); lra.
Qed.

Lemma ratio_spread_bounds (s K K2 : R) :
  K <= K2 ->
  Rmax (s - K) 0 - 2 * Rmax (s - K2) 0 <= K2 - K
  /\ (s <= 2 * K2 - K -> 0 <= Rmax (s - K) 0 - 2 * Rmax (s - K2) 0)
  /\ (2 * K2 - K < s -> Rmax (s - K) 0 - 2 * Rmax (s - K2) 0 < 0).
Proof.
  intros HK; unfold Rmax.
  destruct (Rle_dec (s - K) 0), (Rle_dec (s - K2) 0); repeat split; lra.
Qed.

(** C6 (as amended).  For strikes [0 < K <= K2] and the payoff kind "call"
    (in any capitalisation): the payoff of the American spread class is
    [max(S-K,0) - max(S-K2,0)] and lies in [[0, K2-K]] for every price; the
    payoff of the European spread class is [max(S-K,0) - 2*max(S-K2,0)],
    which is at most [K2-K], is non-negative for prices up to [2*K2-K] and
    negative above. *)
Theorem spread_payoff_bounds (a : SpreadArgs) (self : Instance) (S : vec) :
  EuropeanSpread.__init__ a = Ok self ->
  European._get_opt_payoff (arg_option_payoff (base_args a)) = Ok "call" ->
  isinstance_num (K2_or_default (arg_K2 a)) = true ->
  cfg_K (base_args a) <= cfg_K2 a ->
  AmericanSpread.__init__ a = Ok self
  /\ exists ve va,
       EuropeanSpread._payoff_func self S = Ok ve
       /\ AmericanSpread._payoff_func self S = Ok va
       /\ length ve = length S /\ length va = length S
       /\ forall m, (m < length S)%nat ->
            let s := nth m S 0 in
            let K := cfg_K (base_args a) in
            let K2 := cfg_K2 a in
            0 <= nth m va 0 <= K2 - K
            /\ nth m ve 0 <= K2 - K
            /\ (s <= 2 * K2 - K -> 0 <= nth m ve 0)
            /\ (2 * K2 - K < s -> nth m ve 0 < 0).
Proof.
  intros Hinit Hcall HK2 HK.
  split; [exact Hinit|].
  apply spread_init_inv in Hinit; destruct Hinit as (Hvalid & p & Hp & ->).
  assert (p = "call") by congruence; subst p.
  pose proof (spread_extends a "call") as Hself.
  exists (map (fun s => Rmax (s - cfg_K (base_args a)) 0
                        - 2 * Rmax (s - cfg_K2 a) 0) S),
         (map (fun s => Rmax (s - cfg_K (base_args a)) 0
                        - Rmax (s - cfg_K2 a) 0) S).
  assert (HattrK2 : attr_real (spread_instance_of a "call") "K2"
                    = Ok (cfg_K2 a)).
  { unfold attr_real; rewrite attr_K2; cbn [bind]. apply as_real_num, HK2. }
  split; [|split].
  - unfold EuropeanSpread._payoff_func.
    rewrite (attr_option_payoff Hself); cbn [bind py_eq_str].
    rewrite (attr_K Hvalid Hself), HattrK2. reflexivity.
  - unfold AmericanSpread._payoff_func.
    rewrite (attr_option_payoff Hself); cbn [bind py_eq_str].
    rewrite (attr_K Hvalid Hself), HattrK2. reflexivity.
  - rewrite !length_map. split; [reflexivity | split; [reflexivity|]].
    intros m Hm; cbv zeta. rewrite !nth_map_lt by auto.
    pose proof (call_spread_bounds (nth m S 0) HK).
    pose proof (ratio_spread_bounds (nth m S 0) HK).
    tauto.
Qed.

Lemma spread_payoff_bounds_witness :
  exists ve va,
    EuropeanSpread._payoff_func (spread_instance_of spread_scenario "call")
                                [100; 120] = Ok ve
    /\ AmericanSpread._payoff_func (spread_instance_of spread_scenario "call")
                                   [100; 120] = Ok va
    /\ 0 <= nth 1 va 0 <= 5.
Proof.
  destruct (@spread_payoff_bounds spread_scenario
              (spread_instance_of spread_scenario "call") [100; 120])
    as (_ & ve & va & He & Ha & _ & _ & Hb).
  - apply spread_init_ok;
      [apply spread_scenario_valid | fits_float_tac | reflexivity].
  - reflexivity.
  - reflexivity.
  - unfold cfg_K, cfg_K2; simpl. lra.
  - exists ve, va. split; [exact He | split; [exact Ha|]].
    destruct (Hb 1%nat) as (Hva & _); [simpl; lia|].
    unfold cfg_K, cfg_K2 in Hva; simpl in Hva. lra.
Defined.

(** C6, as stated, fails for the European spread class: with [K = 100] and
    [K2 = 105] its payoff at the price 120 is [20 - 2*15 = -10 < 0]. *)
Lemma european_spread_payoff_negative :
  exists self,
    EuropeanSpread.__init__ spread_scenario = Ok self
    /\ EuropeanSpread._payoff_func self [120] = Ok [-10]
    /\ -10 < 0.
Proof.
  exists (spread_instance_of spread_scenario "call").
  split.
  { apply spread_init_ok;
      [apply spread_scenario_valid | fits_float_tac | reflexivity]. }
  split; [|lra].
  cbv [EuropeanSpread._payoff_func spread_instance_of instance_of getattr
       bind attr_real as_real py_eq_str String.eqb Ascii.eqb Bool.eqb
       spread_scenario scenario super_args base_args arg_K arg_K2
       arg_option_payoff K2_or_default isinstance_num isinstance_int
       isinstance_float orb real_of int_of map].
  do 2 f_equal.
  unfold Rmax.
  destruct (Rle_dec (120 - 100) 0), (Rle_dec (120 - 105) 0); lra.
Qed.

(* ================================================================= *)
(** ** Rounding *)

Lemma Int_part_unique (x : R) (z : Z) :
  IZR z <= x -> x < IZR z + 1 -> Int_part x = z.
Proof.
  intros Hlo Hhi. unfold Int_part.
  rewrite <- (tech_up x (z + 1)); [lia | |]; rewrite plus_IZR; lra.
Qed.

Lemma rint_error (x : R) : Rabs (IZR (rint x) - x) <= 1 / 2.
Proof.
  destruct (base_Int_part x) as [Hlo Hhi].
  unfold rint.
  destruct (Rlt_dec (x - IZR (Int_part x)) (1 / 2)) as [H1|H1].
  - apply Rabs_le; lra.
  - destruct (Rlt_dec (1 / 2) (x - IZR (Int_part x))) as [H2|H2].
    + rewrite plus_IZR. apply Rabs_le; lra.
    + destruct (Z.even (Int_part x)).
      * apply Rabs_le; lra.
      * rewrite plus_IZR. apply Rabs_le; lra.
Qed.

Lemma rint_below_half (x : R) : 0 <= x -> x < 1 / 2 -> rint x = 0%Z.
Proof.
  intros Hlo Hhi.
  assert (HI : Int_part x = 0%Z) by (apply Int_part_unique; simpl; lra).
  unfold rint; rewrite HI; simpl.
  destruct (Rlt_dec (x - 0) (1 / 2)); [reflexivity | lra].
Qed.

Lemma Rabs_bounds (x b : R) : Rabs x <= b -> - b <= x <= b.
Proof. unfold Rabs; destruct (Rcase_abs x); lra. Qed.

Lemma round4_error (x : R) : Rabs (round4 x - x) <= 1 / 20000.
Proof.
  pose proof (rint_error (x * 10000)) as Hr.
  apply Rabs_bounds in Hr. unfold round4. apply Rabs_le. lra.
Qed.

Lemma round4_digits (x : R) : round4 x * 10000 = IZR (rint (x * 10000)).
Proof. unfold round4. field. Qed.

(* ================================================================= *)
(** ** The confidence estimator *)

Lemma INR_cfg_M (a : Args) :
  valid_args a -> real_of (arg_M a) = INR (cfg_M a) /\ 0 < INR (cfg_M a).
Proof.
  intros Hvalid. destruct (valid_M Hvalid) as [Hi Hpos].
  assert (E : real_of (arg_M a) = INR (cfg_M a)).
  { unfold cfg_M. rewrite INR_IZR_INZ, Z2Nat.id by lia.
    destruct (arg_M a); simpl in *; try discriminate; reflexivity. }
  split; [exact E|].
  unfold cfg_M. rewrite INR_IZR_INZ, Z2Nat.id by lia.
  apply (IZR_lt 0); exact Hpos.
Qed.

Lemma confidence_interval_eq `{NumPy} (a : Args) (p : string)
    (self : Instance) (smp : vec) :
  valid_args a -> extends self (instance_of a p) ->
  European._confidence_interval self (Array smp)
  = Ok (np_mean smp, np_std smp,
        (round4 (np_mean smp - half_width a smp),
         round4 (np_mean smp + half_width a smp))).
Proof.
  intros Hvalid Hself. unfold European._confidence_interval.
  rewrite (attr_lower Hvalid Hself), (attr_M_real Hvalid Hself).
  cbn [bind European.sample_mean European.sample_std].
  destruct (INR_cfg_M Hvalid) as [-> _].
  unfold half_width, quantile.
  do 3 f_equal; f_equal; unfold Rdiv; ring.
Qed.

(** C7.  For every batch array the confidence estimator of a constructed
    object returns the mean of the array, its standard deviation and the
    interval [mean -/+ z*std/sqrt(M)], [z = ppf(1 - lower/2)], [M] the
    number of paths per batch, both bounds rounded to 4 decimal digits
    (a multiple of 0.0001 at most 0.00005 away); the length of the array
    enters only through its mean and standard deviation. *)
Theorem confidence_interval_formula `{NumPy} (a : Args) (self : Instance)
    (smp : vec) :
  European.__init__ a = Ok self ->
  let mean := np_sum smp / INR (length smp) in
  let std := sqrt (np_mean (map (fun x => Rabs (x - mean) ^ 2) smp)) in
  let z := norm_ppf (1 - cfg_lower a / 2) in
  let lo := mean - z * (std / sqrt (INR (cfg_M a))) in
  let hi := mean + z * (std / sqrt (INR (cfg_M a))) in
  European._confidence_interval self (Array smp)
  = Ok (mean, std, (round4 lo, round4 hi))
  /\ (exists i j, round4 lo = IZR i / 10000 /\ round4 hi = IZR j / 10000)
  /\ Rabs (round4 lo - lo) <= 1 / 20000
  /\ Rabs (round4 hi - hi) <= 1 / 20000
  /\ (forall smp',
        np_mean smp' = mean -> np_std smp' = std ->
        European._confidence_interval self (Array smp')
        = European._confidence_interval self (Array smp)).
Proof.
  intros Hinit.
  apply init_inv in Hinit; destruct Hinit as (Hvalid & p & Hp & ->).
  pose proof (extends_refl (instance_of a p)) as Hself.
  cbv zeta.
  split; [apply (confidence_interval_eq smp Hvalid Hself)|].
  split; [eexists; eexists; split; reflexivity|].
  split; [apply round4_error|].
  split; [apply round4_error|].
  intros smp' Hm Hs.
  rewrite !(confidence_interval_eq _ Hvalid Hself).
  unfold half_width. fold (np_mean smp) in Hm, Hs. fold (np_std smp) in Hs.
  rewrite Hm, Hs. reflexivity.
Qed.

Lemma confidence_interval_formula_witness :
  exists i j,
    @European._confidence_interval toy_numpy (instance_of scenario "call")
      (Array [10; 11])
    = Ok (np_mean [10; 11], np_std [10; 11], (IZR i / 10000, IZR j / 10000)).
Proof.
  destruct (@confidence_interval_formula toy_numpy scenario
              (instance_of scenario "call") [10; 11] scenario_init)
    as (Heq & (i & j & Hi & Hj) & _).
  exists i, j. rewrite Heq, Hi, Hj. reflexivity.
Defined.

Lemma np_std_nonneg (smp : vec) : 0 <= np_std smp.
Proof. apply sqrt_pos. Qed.

Lemma half_width_nonneg `{NumPy} (a : Args) (smp : vec) :
  valid_args a -> 0 <= quantile a -> 0 <= half_width a smp.
Proof.
  intros Hvalid Hz. unfold half_width.
  destruct (INR_cfg_M Hvalid) as [_ HM].
  apply Rmult_le_pos; [exact Hz|].
  apply Rmult_le_pos; [apply np_std_nonneg|].
  apply Rlt_le, Rinv_0_lt_compat, sqrt_lt_R0, HM.
Qed.

(** C8 (as amended).  For every batch array, when the quantile
    [z = ppf(1 - lower/2)] is non-negative (as it is for [lower <= 1]), the
    interval before rounding brackets the returned mean, and the returned,
    rounded bounds bracket it up to the rounding error: the lower bound is
    at most [mean + 0.00005] and the upper bound at least
    [mean - 0.00005]. *)
Theorem confidence_interval_brackets `{NumPy} (a : Args) (self : Instance)
    (smp : vec) :
  European.__init__ a = Ok self ->
  0 <= norm_ppf (1 - cfg_lower a / 2) ->
  exists mean std lo hi,
    European._confidence_interval self (Array smp) = Ok (mean, std, (lo, hi))
    /\ mean = np_mean smp
    /\ exists lo' hi',
         lo = round4 lo' /\ hi = round4 hi'
         /\ lo' <= mean <= hi'
         /\ lo <= mean + 1 / 20000
         /\ mean - 1 / 20000 <= hi.
Proof.
  intros Hinit Hz.
  apply init_inv in Hinit; destruct Hinit as (Hvalid & p & Hp & ->).
  pose proof (extends_refl (instance_of a p)) as Hself.
  pose proof (half_width_nonneg smp Hvalid Hz) as Hh.
  exists (np_mean smp), (np_std smp),
         (round4 (np_mean smp - half_width a smp)),
         (round4 (np_mean smp + half_width a smp)).
  split; [apply (confidence_interval_eq smp Hvalid Hself)|].
  split; [reflexivity|].
  exists (np_mean smp - half_width a smp), (np_mean smp + half_width a smp).
  pose proof (@Rabs_bounds _ _
                (round4_error (np_mean smp - half_width a smp))).
  pose proof (@Rabs_bounds _ _
                (round4_error (np_mean smp + half_width a smp))).
  repeat split; try reflexivity; lra.
Qed.

Lemma confidence_interval_brackets_witness :
  exists mean std lo hi,
    @European._confidence_interval toy_numpy (instance_of scenario "call")
      (Array [10; 11]) = Ok (mean, std, (lo, hi))
    /\ lo <= mean + 1 / 20000 /\ mean - 1 / 20000 <= hi.
Proof.
  destruct (@confidence_interval_brackets toy_numpy scenario
              (instance_of scenario "call") [10; 11] scenario_init)
    as (mean & std & lo & hi & Heq & _ & lo' & hi' & _ & _ & _ & Hlo & Hhi).
  - unfold cfg_lower; simpl. lra.
  - exists mean, std, lo, hi. split; [exact Heq | split; [exact Hlo | exact Hhi]].
Defined.

(** C8, as stated, fails: on the constant batch array [[0.00004, 0.00004]]
    the mean is 0.00004, the standard deviation is 0, and both rounded
    bounds are 0.0, so the upper bound is below the mean. *)
Lemma constant_batch_upper_bound_below_mean :
  exists mean std lo hi,
    @European._confidence_interval toy_numpy (instance_of scenario "call")
      (Array [0.00004; 0.00004]) = Ok (mean, std, (lo, hi))
    /\ mean = 0.00004 /\ std = 0 /\ hi = 0 /\ hi < mean.
Proof.
  pose proof (extends_refl (instance_of scenario "call")) as Hself.
  set (smp := [0.00004; 0.00004]).
  assert (Hmean : np_mean smp = 0.00004).
  { unfold np_mean, np_sum, smp; simpl. lra. }
  assert (Hstd : np_std smp = 0).
  { unfold np_std. rewrite Hmean. unfold smp; cbn [map].
    replace (0.00004 - 0.00004) with 0 by lra.
    rewrite Rabs_R0. unfold np_mean, np_sum; simpl.
    replace ((0 * (0 * 1) + (0 * (0 * 1) + 0)) / (1 + 1)) with 0 by lra.
    apply sqrt_0. }
  assert (Hhw : @half_width toy_numpy scenario smp = 0).
  { unfold half_width. rewrite Hstd. unfold Rdiv. ring. }
  exists (np_mean smp), (np_std smp),
         (round4 (np_mean smp - @half_width toy_numpy scenario smp)),
         (round4 (np_mean smp + @half_width toy_numpy scenario smp)).
  split; [apply (confidence_interval_eq smp scenario_valid Hself)|].
  rewrite Hhw, Hmean, Hstd, Rplus_0_r.
  assert (Hr : round4 0.00004 = 0).
  { unfold round4. rewrite (@rint_below_half (0.00004 * 10000)) by lra.
    unfold Rdiv; ring. }
  rewrite Hr. repeat split; lra.
Qed.

(* ================================================================= *)
(** ** The sweeps of the spread classes *)

Lemma for_each_invariant {St : Type} (P : St -> Prop) (l : list nat)
    (body : nat -> St -> result St) :
  (forall i st, In i l -> P st -> exists st', body i st = Ok st' /\ P st') ->
  forall st, P st -> exists st', for_each l body st = Ok st' /\ P st'.
Proof.
  induction l as [|i l IH]; intros Hbody st Hst; simpl.
  - exists st; auto.
  - destruct (Hbody i st) as (st1 & E1 & H1); [left; auto | auto |].
    rewrite E1; simpl.
    apply IH; auto. intros j st' Hj; apply Hbody; right; auto.
Qed.

Lemma in_range_down (i n : nat) : In i (range_down n) <-> (1 <= i <= n)%nat.
Proof.
  unfold range_down. rewrite <- in_rev, in_seq. lia.
Qed.

Section SpreadObjects.
Context `{NumPy}.
Variables (a : SpreadArgs) (p : string).
Hypothesis Hvalid : valid_args (super_args (base_args a)).
Hypothesis HR : isinstance_num (R_or_default (arg_R a)) = true.

Let b := super_args (base_args a).
Let self := spread_instance_of a p.

Lemma picard_rhs_eq (E Yi Zi : vec) :
  (0 < length Yi)%nat -> (0 < length Zi)%nat ->
  picard_rhs self E Yi Zi = Ok (picard_value a E Yi Zi).
Proof.
  intros HY HZ. unfold picard_rhs, self.
  pose proof (spread_extends a p) as Hself.
  rewrite (attr_r Hvalid Hself), (attr_lamb Hself),
    (attr_sigma Hvalid Hself), (attr_dt Hself).
  unfold attr_real at 1. rewrite attr_R. cbn [bind].
  rewrite (as_real_num _ HR). cbn [bind].
  destruct Yi as [|y Yi]; [simpl in HY; lia|].
  destruct Zi as [|z Zi]; [simpl in HZ; lia|].
  reflexivity.
Qed.

Lemma length_picard_value (E Yi Zi : vec) (m : nat) :
  length E = m -> length Yi = m -> length Zi = m ->
  length (picard_value a E Yi Zi) = m.
Proof.
  intros HE HY HZ. unfold picard_value.
  rewrite length_vmap2, length_map, length_vmap2, !length_map. lia.
Qed.

(** The Picard loop: every pass writes the same vector into column
    [i - 1], computed from column [i], which no pass changes. *)
Lemma picard_loop_spec (m c i : nat) (E zi : vec) :
  (0 < m)%nat -> (1 <= i)%nat -> (i < c)%nat ->
  length E = m -> length zi = m ->
  forall n s Y,
  shape m c Y ->
  exists Y',
    for_each (seq s n)
      (fun _ Y => v <- picard_rhs self E (col i Y) zi ;;
                  Ok (set_col (i - 1) v Y)) Y = Ok Y'
    /\ shape m c Y'
    /\ (forall j, j <> (i - 1)%nat -> col j Y' = col j Y)
    /\ ((1 <= n)%nat ->
        col (i - 1) Y' = picard_value a E (col i Y) zi).
Proof.
  intros Hm Hi Hc HE Hz.
  induction n as [|n IH]; intros s Y HY.
  - exists Y; simpl; repeat split; auto; try apply HY. lia.
  - cbn [seq for_each].
    assert (Hcol : length (col i Y) = m) by (rewrite length_col; apply HY).
    rewrite picard_rhs_eq by lia. cbn [bind].
    set (v := picard_value a E (col i Y) zi).
    assert (Hv : length v = m) by (apply length_picard_value; auto).
    assert (HY1 : shape m c (set_col (i - 1) v Y))
      by (apply shape_set_col; auto).
    destruct (IH (S s) _ HY1) as (Y' & Hrun & HY' & Hkeep & Hlast).
    assert (Hi1 : col i (set_col (i - 1) v Y) = col i Y).
    { apply col_set_col_neq; [destruct HY; congruence | lia]. }
    exists Y'; split; [exact Hrun | split; [exact HY'|split]].
    + intros j Hj. rewrite Hkeep by auto.
      apply col_set_col_neq; [destruct HY; congruence | lia].
    + intros _. destruct n as [|n].
      * simpl in Hrun. injection Hrun as <-.
        apply (@col_set_col_eq m c); auto; lia.
      * rewrite Hlast by lia. rewrite Hi1. reflexivity.
Qed.

(** *** One backward step of each spread solver *)

Section SpreadSteps.
Hypothesis Hdegree : (1 <= int_of (arg_degree (base_args a)) <= 20)%Z.
Hypothesis Hcall : p = "call".
Hypothesis HK2 : isinstance_num (K2_or_default (arg_K2 a)) = true.

Lemma spread_attr_K2 : attr_real self "K2" = Ok (cfg_K2 a).
Proof.
  unfold attr_real, self. rewrite attr_K2. cbn [bind].
  apply as_real_num, HK2.
Qed.

Lemma european_spread_payoff_eq (S : vec) :
  EuropeanSpread._payoff_func self S = Ok (european_spread_payoff a S).
Proof.
  pose proof (spread_extends a p) as Hself.
  unfold EuropeanSpread._payoff_func.
  unfold self at 1. rewrite (attr_option_payoff Hself), Hcall.
  cbn [bind py_eq_str String.eqb Ascii.eqb Bool.eqb].
  rewrite spread_attr_K2. unfold self.
  rewrite (attr_K Hvalid Hself). reflexivity.
Qed.

Lemma american_spread_payoff_eq (S : vec) :
  AmericanSpread._payoff_func self S = Ok (american_spread_payoff a S).
Proof.
  pose proof (spread_extends a p) as Hself.
  unfold AmericanSpread._payoff_func.
  unfold self at 1. rewrite (attr_option_payoff Hself), Hcall.
  cbn [bind py_eq_str String.eqb Ascii.eqb Bool.eqb].
  rewrite spread_attr_K2. unfold self.
  rewrite (attr_K Hvalid Hself). reflexivity.
Qed.

Variables (S dW : matrix).
Hypothesis HS : length S = cfg_M b.

Lemma european_spread_step_spec (i : nat) (Y Z : matrix) :
  (1 <= i <= cfg_N b)%nat ->
  shape (cfg_M b) (cfg_N b + 1) Y -> shape (cfg_M b) (cfg_N b + 1) Z ->
  let X := basis (cfg_degree b) (col i S) in
  let E := fitted X (col i Y) in
  let zi := fitted X (vmap2 Rmult (col i Y) (col i dW)) in
  exists Y',
    EuropeanSpread.backward_step self S dW i (Y, Z)
    = Ok (Y', set_col i zi Z)
    /\ shape (cfg_M b) (cfg_N b + 1) Y'
    /\ shape (cfg_M b) (cfg_N b + 1) (set_col i zi Z)
    /\ col (i - 1) Y' = picard_value a E (col i Y) zi
    /\ (forall j, j <> (i - 1)%nat -> col j Y' = col j Y).
Proof.
  intros Hi HY HZ X E zi.
  pose proof (spread_extends a p) as Hself.
  pose proof (cfg_M_pos Hvalid) as HM. fold b in HM.
  assert (HX : length X = cfg_M b).
  { unfold X. rewrite length_basis, length_col. exact HS. }
  assert (Hzi : length zi = cfg_M b) by (unfold zi; rewrite length_fitted; auto).
  assert (HE : length E = cfg_M b) by (unfold E; rewrite length_fitted; auto).
  assert (HZ' : shape (cfg_M b) (cfg_N b + 1) (set_col i zi Z))
    by (apply shape_set_col; auto).
  assert (Hcz : col i (set_col i zi Z) = zi)
    by (apply (@col_set_col_eq (cfg_M b) (cfg_N b + 1)); auto; lia).
  unfold EuropeanSpread.backward_step. cbn [fst snd].
  unfold self at 1.
  rewrite (generate_regression_ok Hvalid Hself) by exact Hdegree.
  cbn [bind]. fold b. fold X.
  change (matvec X (lstsq (matmul (transpose X) X)
                          (matvec (transpose X) (col i Y)))) with E.
  change (matvec X (lstsq (matmul (transpose X) X)
            (matvec (transpose X) (vmap2 Rmult (col i Y) (col i dW)))))
    with zi.
  unfold self at 1. rewrite (attr_picard Hself). cbn [bind].
  change (as_index (arg_picard (super_args (base_args a)))) with (Ok 3%Z).
  cbn [bind]. rewrite Hcz.
  destruct (@picard_loop_spec (cfg_M b) (cfg_N b + 1) i E zi HM)
    with (n := 3%nat) (s := 0%nat) (Y := Y)
    as (Y' & Hrun & HY' & Hkeep & Hlast); auto; try lia.
  change (range (Z.to_nat 3)) with (seq 0 3).
  rewrite Hrun. cbn [bind].
  exists Y'. split; [reflexivity|]. split; [exact HY'|].
  split; [exact HZ'|]. split; [apply Hlast; lia | exact Hkeep].
Qed.

Lemma american_spread_step_spec (i : nat) (Y Z : matrix) :
  (1 <= i <= cfg_N b)%nat ->
  shape (cfg_M b) (cfg_N b + 1) Y -> shape (cfg_M b) (cfg_N b + 1) Z ->
  let X := basis (cfg_degree b) (col i S) in
  let E := fitted X (col i Y) in
  let zi := fitted X (vmap2 Rmult (col i Y) (col i dW)) in
  exists Y',
    AmericanSpread.backward_step self S dW i (Y, Z)
    = Ok (Y', set_col i zi Z)
    /\ shape (cfg_M b) (cfg_N b + 1) Y'
    /\ shape (cfg_M b) (cfg_N b + 1) (set_col i zi Z)
    /\ col (i - 1) Y'
       = vmap2 Rmax (american_spread_payoff a (col i S))
                    (picard_value a E (col i Y) zi)
    /\ (forall j, j <> (i - 1)%nat -> col j Y' = col j Y).
Proof.
  intros Hi HY HZ X E zi.
  pose proof (spread_extends a p) as Hself.
  pose proof (cfg_M_pos Hvalid) as HM. fold b in HM.
  assert (HX : length X = cfg_M b).
  { unfold X. rewrite length_basis, length_col. exact HS. }
  assert (Hzi : length zi = cfg_M b) by (unfold zi; rewrite length_fitted; auto).
  assert (HE : length E = cfg_M b) by (unfold E; rewrite length_fitted; auto).
  assert (HZ' : shape (cfg_M b) (cfg_N b + 1) (set_col i zi Z))
    by (apply shape_set_col; auto).
  assert (Hcz : col i (set_col i zi Z) = zi)
    by (apply (@col_set_col_eq (cfg_M b) (cfg_N b + 1)); auto; lia).
  unfold AmericanSpread.backward_step. cbn [fst snd].
  unfold self at 1.
  rewrite (generate_regression_ok Hvalid Hself) by exact Hdegree.
  cbn [bind]. fold b. fold X.
  change (matvec X (lstsq (matmul (transpose X) X)
                          (matvec (transpose X) (col i Y)))) with E.
  change (matvec X (lstsq (matmul (transpose X) X)
            (matvec (transpose X) (vmap2 Rmult (col i Y) (col i dW)))))
    with zi.
  rewrite american_spread_payoff_eq. cbn [bind].
  unfold self at 1. rewrite (attr_picard Hself). cbn [bind].
  change (as_index (arg_picard (super_args (base_args a)))) with (Ok 3%Z).
  cbn [bind]. rewrite Hcz.
  destruct (@picard_loop_spec (cfg_M b) (cfg_N b + 1) i E zi HM)
    with (n := 3%nat) (s := 0%nat) (Y := Y)
    as (Y' & Hrun & HY' & Hkeep & Hlast); auto; try lia.
  change (range (Z.to_nat 3)) with (seq 0 3).
  rewrite Hrun. cbn [bind].
  set (v := vmap2 Rmax (american_spread_payoff a (col i S)) (col (i - 1) Y')).
  assert (Hv : length v = cfg_M b).
  { unfold v, american_spread_payoff.
    rewrite length_vmap2, length_map, !length_col.
    destruct HY' as [-> _]. rewrite HS. apply Nat.min_id. }
  exists (set_col (i - 1) v Y'). split; [reflexivity|].
  split; [apply shape_set_col; auto|]. split; [exact HZ'|]. split.
  - rewrite (@col_set_col_eq (cfg_M b) (cfg_N b + 1)) by (auto; lia).
    unfold v. rewrite Hlast by lia. reflexivity.
  - intros j Hj. rewrite col_set_col_neq by (destruct HY'; try congruence; lia).
    apply Hkeep; auto.
Qed.

End SpreadSteps.

(** *** The batches of the spread solvers *)

Section SpreadBatches.
Hypothesis Hdegree : (1 <= int_of (arg_degree (base_args a)) <= 20)%Z.
Hypothesis Hcall : p = "call".
Hypothesis HK2 : isinstance_num (K2_or_default (arg_K2 a)) = true.
Hypothesis HMint : type_is_int (arg_M (base_args a)) = true.

Lemma european_spread_batch_ok (k : nat) :
  exists Y Z, EuropeanSpread.batch self k = Ok (Y, Z)
    /\ shape (cfg_M b) (cfg_N b + 1) Y /\ shape (cfg_M b) (cfg_N b + 1) Z.
Proof.
  pose proof (spread_extends a p) as Hself.
  pose proof (cfg_M_pos Hvalid) as HM. fold b in HM.
  destruct (shape_paths_S b k) as [HSm _].
  unfold EuropeanSpread.batch. unfold self at 1 2 3.
  rewrite (generate_stock_paths_eq Hvalid Hself HMint),
    (attr_M Hvalid Hself HMint), (attr_N Hvalid Hself). cbn [bind fst snd].
  rewrite european_spread_payoff_eq by assumption. cbn [bind]. fold b.
  set (Y0 := set_col_last _ _).
  assert (HY0 : shape (cfg_M b) (cfg_N b + 1) Y0).
  { apply shape_set_col; [apply shape_zeros2|].
    unfold european_spread_payoff. rewrite length_map, length_col_last. auto. }
  destruct (@for_each_invariant (matrix * matrix)
              (fun YZ => shape (cfg_M b) (cfg_N b + 1) (fst YZ)
                         /\ shape (cfg_M b) (cfg_N b + 1) (snd YZ))
              (range_down (cfg_N b))
              (EuropeanSpread.backward_step self (paths_S b k) (paths_dW b k)))
    with (st := (Y0, zeros2 (cfg_M b) (cfg_N b + 1)))
    as ([Y Z] & Hrun & HY & HZ).
  - intros i [Y Z] Hi [HY HZ]. apply in_range_down in Hi.
    destruct (@european_spread_step_spec Hdegree (paths_S b k)
                (paths_dW b k) HSm i Y Z Hi HY HZ)
      as (Y' & Hstep & HY' & HZ' & _).
    eexists; split; [exact Hstep | split; [exact HY' | exact HZ']].
  - split; [exact HY0 | apply shape_zeros2].
  - exists Y, Z. split; [exact Hrun | split; [exact HY | exact HZ]].
Qed.

Lemma american_spread_batch_ok (k : nat) :
  exists Y Z, AmericanSpread.batch self k = Ok (Y, Z)
    /\ shape (cfg_M b) (cfg_N b + 1) Y /\ shape (cfg_M b) (cfg_N b + 1) Z.
Proof.
  pose proof (spread_extends a p) as Hself.
  pose proof (cfg_M_pos Hvalid) as HM. fold b in HM.
  destruct (shape_paths_S b k) as [HSm _].
  unfold AmericanSpread.batch. unfold self at 1 2 3.
  rewrite (generate_stock_paths_eq Hvalid Hself HMint),
    (attr_M Hvalid Hself HMint), (attr_N Hvalid Hself). cbn [bind fst snd].
  rewrite american_spread_payoff_eq by assumption. cbn [bind]. fold b.
  set (Y0 := set_col_last _ _).
  assert (HY0 : shape (cfg_M b) (cfg_N b + 1) Y0).
  { apply shape_set_col; [apply shape_zeros2|].
    unfold american_spread_payoff. rewrite length_map, length_col_last. auto. }
  destruct (@for_each_invariant (matrix * matrix)
              (fun YZ => shape (cfg_M b) (cfg_N b + 1) (fst YZ)
                         /\ shape (cfg_M b) (cfg_N b + 1) (snd YZ))
              (range_down (cfg_N b))
              (AmericanSpread.backward_step self (paths_S b k) (paths_dW b k)))
    with (st := (Y0, zeros2 (cfg_M b) (cfg_N b + 1)))
    as ([Y Z] & Hrun & HY & HZ).
  - intros i [Y Z] Hi [HY HZ]. apply in_range_down in Hi.
    destruct (@american_spread_step_spec Hdegree Hcall HK2 (paths_S b k)
                (paths_dW b k) HSm i Y Z Hi HY HZ)
      as (Y' & Hstep & HY' & HZ' & _).
    eexists; split; [exact Hstep | split; [exact HY' | exact HZ']].
  - split; [exact HY0 | apply shape_zeros2].
  - exists Y, Z. split; [exact Hrun | split; [exact HY | exact HZ]].
Qed.

End SpreadBatches.
End SpreadObjects.

(* ================================================================= *)
(** ** What the American spread solver returns *)

Lemma for_each_upd2 {B : Type} (f : nat -> result B) (g1 g2 : B -> R) :
  forall len s st1 st2,
  (s + len <= length st1)%nat -> (s + len <= length st2)%nat ->
  (forall k, (s <= k < s + len)%nat -> exists b, f k = Ok b) ->
  exists st1' st2',
    for_each (seq s len)
      (fun k st => b <- f k ;;
                   Ok (upd k (g1 b) (fst st), upd k (g2 b) (snd st)))
      (st1, st2) = Ok (st1', st2')
    /\ length st1' = length st1 /\ length st2' = length st2
    /\ (forall k, (k < s)%nat ->
          nth k st1' 0 = nth k st1 0 /\ nth k st2' 0 = nth k st2 0)
    /\ (forall k, (s <= k < s + len)%nat ->
          exists b, f k = Ok b /\ nth k st1' 0 = g1 b /\ nth k st2' 0 = g2 b).
Proof.
  induction len as [|len IH]; intros s st1 st2 Hl1 Hl2 Hf.
  - exists st1, st2; simpl; repeat split; auto. intros k Hk; lia.
  - destruct (Hf s) as (b0 & Hb); [lia|].
    simpl; rewrite Hb; simpl.
    destruct (IH (S s) (upd s (g1 b0) st1) (upd s (g2 b0) st2))
      as (st1' & st2' & Hrun & Hl1' & Hl2' & Hlow & Hhigh).
    + rewrite length_upd; lia.
    + rewrite length_upd; lia.
    + intros k Hk; apply Hf; lia.
    + exists st1', st2'. split; [exact Hrun|].
      rewrite Hl1', Hl2', !length_upd. split; [reflexivity|].
      split; [reflexivity|]. split.
      * intros k Hk. destruct (Hlow k) as [-> ->]; [lia|].
        rewrite !nth_upd_neq by lia. auto.
      * intros k Hk.
        destruct (Nat.eq_dec k s) as [->|Hne]; [|apply Hhigh; lia].
        exists b0. destruct (Hlow s) as [-> ->]; [lia|].
        rewrite !nth_upd_eq by lia. auto.
Qed.

Lemma rint_0 : rint 0 = 0%Z.
Proof. apply rint_below_half; lra. Qed.

Lemma round4_0 : round4 0 = 0.
Proof.
  unfold round4. rewrite Rmult_0_l, rint_0. unfold Rdiv; ring.
Qed.

(** The estimator on the bare number 0: mean 0, deviation 0, interval
    [[0, 0]], whatever the quantile. *)
Lemma confidence_interval_scalar_0 `{NumPy} (a : Args) (p : string)
    (self : Instance) :
  valid_args a -> extends self (instance_of a p) ->
  European._confidence_interval self (Scalar 0) = Ok (0, 0, (0, 0)).
Proof.
  intros Hvalid Hself. unfold European._confidence_interval.
  rewrite (attr_lower Hvalid Hself), (attr_M_real Hvalid Hself).
  cbn [bind European.sample_mean European.sample_std].
  assert (Hs : sqrt (Rabs (0 - 0) ^ 2) = 0).
  { replace (0 - 0) with 0 by lra. rewrite Rabs_R0.
    replace (0 ^ 2) with 0 by (simpl; lra). apply sqrt_0. }
  rewrite Hs.
  replace (0 + norm_ppf (1 - cfg_lower a / 2) * 0 / sqrt (real_of (arg_M a)))
    with 0 by (unfold Rdiv; ring).
  replace (0 - norm_ppf (1 - cfg_lower a / 2) * 0 / sqrt (real_of (arg_M a)))
    with 0 by (unfold Rdiv; ring).
  rewrite round4_0. reflexivity.
Qed.

(** C2 (the code departs from the claim).  For every valid configuration of
    the American spread class ([M] and [samples] integers proper, as NumPy
    wants the length of an axis), the loop over the batches does fill two
    arrays of length [samples], [Y0_samples[k] = mean(Y[:, 0])] and
    [Z0_samples[k] = mean(Z[:, 1])], but the method returns
    [(Y0_samples, 0)]: the second array is dropped, and [run] reports the
    hedge statistics [0, 0, [0, 0]] whatever the draws. *)
Theorem american_spread_returns_zero_hedge `{NumPy} (a : SpreadArgs)
    (self : Instance) :
  AmericanSpread.__init__ a = Ok self ->
  European._get_opt_payoff (arg_option_payoff (base_args a)) = Ok "call" ->
  (1 <= int_of (arg_degree (base_args a)) <= 20)%Z ->
  isinstance_num (K2_or_default (arg_K2 a)) = true ->
  isinstance_num (R_or_default (arg_R a)) = true ->
  type_is_int (arg_M (base_args a)) = true ->
  type_is_int (arg_samples (base_args a)) = true ->
  (0 <= int_of (arg_samples (base_args a)))%Z ->
  exists Y0 Z0,
    AmericanSpread.batch_loop self = Ok (Y0, Z0)
    /\ length Y0 = cfg_samples (base_args a)
    /\ length Z0 = cfg_samples (base_args a)
    /\ (forall k, (k < cfg_samples (base_args a))%nat ->
          exists Y Z,
            AmericanSpread.batch self k = Ok (Y, Z)
            /\ nth k Y0 0 = np_mean (col 0 Y)
            /\ nth k Z0 0 = np_mean (col 1 Z))
    /\ AmericanSpread._bsde_solver self = Ok (Y0, Scalar 0)
    /\ exists price,
         AmericanSpread.run self = Ok (price, (0, 0, (0, 0))).
Proof.
  intros Hinit Hcall Hdeg HK2 HR HM Hsi Hsn.
  apply spread_init_inv in Hinit; destruct Hinit as (Hvalid & p & Hp & ->).
  assert (p = "call") by congruence; subst p.
  pose proof (spread_extends a "call") as Hself.
  set (n := Z.to_nat (int_of (arg_samples (base_args a)))).
  destruct (@for_each_upd2 (matrix * matrix)
              (AmericanSpread.batch (spread_instance_of a "call"))
              (fun YZ => np_mean (col 0 (fst YZ)))
              (fun YZ => np_mean (col 1 (snd YZ)))
              n 0%nat (zeros n) (zeros n))
    as (Y0 & Z0 & Hrun & HlY & HlZ & _ & Hval).
  { unfold zeros; rewrite repeat_length; lia. }
  { unfold zeros; rewrite repeat_length; lia. }
  { intros k _.
    destruct (@american_spread_batch_ok _ a "call" Hvalid HR Hdeg eq_refl HK2
                HM k)
      as (Y & Z & HYZ & _).
    exists (Y, Z); exact HYZ. }
  assert (Hloop : AmericanSpread.batch_loop (spread_instance_of a "call")
                  = Ok (Y0, Z0)).
  { unfold AmericanSpread.batch_loop.
    rewrite (attr_samples Hself). cbn [bind].
    change (arg_samples (super_args (base_args a)))
      with (arg_samples (base_args a)).
    rewrite np_zeros_ok, as_index_int by auto using type_is_int_isinstance.
    cbn [bind]. exact Hrun. }
  assert (Hsolve : AmericanSpread._bsde_solver (spread_instance_of a "call")
                   = Ok (Y0, Scalar 0)).
  { unfold AmericanSpread._bsde_solver. rewrite Hloop. reflexivity. }
  exists Y0, Z0. split; [exact Hloop|].
  unfold zeros in HlY, HlZ; rewrite repeat_length in HlY, HlZ.
  split; [exact HlY | split; [exact HlZ|]]. split.
  - intros k Hk. destruct (Hval k) as ([Y Z] & HYZ & HY & HZ);
      [unfold cfg_samples in Hk; unfold n; lia|].
    exists Y, Z. auto.
  - split; [exact Hsolve|].
    unfold AmericanSpread.run, European.run_with.
    rewrite Hsolve. cbn [bind fst snd].
    rewrite (confidence_interval_eq Y0 Hvalid Hself). cbn [bind].
    rewrite (confidence_interval_scalar_0 Hvalid Hself). cbn [bind].
    eexists; reflexivity.
Qed.

Lemma american_spread_returns_zero_hedge_witness :
  exists Y0 Z0,
    @AmericanSpread.batch_loop toy_numpy
      (spread_instance_of spread_scenario "call") = Ok (Y0, Z0)
    /\ length Z0 = 50%nat
    /\ @AmericanSpread._bsde_solver toy_numpy
         (spread_instance_of spread_scenario "call") = Ok (Y0, Scalar 0).
Proof.
  destruct (@american_spread_returns_zero_hedge toy_numpy spread_scenario
              (spread_instance_of spread_scenario "call"))
    as (Y0 & Z0 & Hloop & _ & HlZ & _ & Hsolve & _).
  - apply spread_init_ok;
      [apply spread_scenario_valid | fits_float_tac | reflexivity].
  - reflexivity.
  - simpl; lia.
  - reflexivity.
  - reflexivity.
  - reflexivity.
  - reflexivity.
  - simpl; lia.
  - exists Y0, Z0. split; [exact Hloop | split; [exact HlZ | exact Hsolve]].
Defined.

(* ================================================================= *)
(** ** The generator term of the Picard update *)

Lemma min_over_paths_spec (v : vec) :
  (0 < length v)%nat ->
  Forall (fun x => min_over_paths v <= x) v /\ In (min_over_paths v) v.
Proof.
  destruct v as [|x v]; simpl; [lia|]. intros _.
  revert x. induction v as [|y v IH]; intros x; simpl.
  - split; [constructor; [lra | constructor] | auto].
  - destruct (IH (Rmin x y)) as [Hall Hin].
    inversion Hall as [|? ? Hhd Htl]; subst.
    split.
    + constructor; [|constructor; auto].
      * pose proof (Rmin_l x y); lra.
      * pose proof (Rmin_r x y); lra.
    + destruct Hin as [Hin|Hin]; [|auto].
      rewrite <- Hin. unfold Rmin; destruct (Rle_dec x y); auto.
Qed.

Lemma one_path_valid : valid_args (super_args (base_args one_path)).
Proof. valid_args_tac. Qed.

Lemma one_path_dW :
  @paths_dW toy_numpy (super_args (base_args one_path)) 0 = [[0; 0]].
Proof.
  unfold paths_dW, np_random_normal.
  change (cfg_M (super_args (base_args one_path))) with 1%nat.
  change (cfg_N (super_args (base_args one_path))) with 1%nat.
  cbn [seq map Nat.add standard_normal toy_numpy].
  repeat f_equal; ring.
Qed.

Lemma one_path_S :
  @paths_S toy_numpy (super_args (base_args one_path)) 0 = [[100; 100; 100]].
Proof.
  unfold paths_S. rewrite one_path_dW.
  cbn [map np_cumsum cumsum_from].
  unfold log_return, cfg_mu, cfg_sigma, cfg_dt, cfg_T, cfg_S0; cbn.
  repeat f_equal;
    match goal with
    | |- 100 * exp ?x = 100 => replace x with 0 by lra; rewrite exp_0; lra
    end.
Qed.

Lemma Rmax_left (x y : R) : y <= x -> Rmax x y = x.
Proof. intros Hxy; unfold Rmax; destruct (Rle_dec x y); lra. Qed.

Lemma Rmax_right (x y : R) : x <= y -> Rmax x y = y.
Proof. intros Hxy; unfold Rmax; destruct (Rle_dec x y); lra. Qed.

Lemma one_path_batch :
  exists Y Z,
    @EuropeanSpread.batch toy_numpy (spread_instance_of one_path "call") 0
    = Ok (Y, Z)
    /\ col 0 Y = [4.7].
Proof.
  pose proof (spread_extends one_path "call") as Hself.
  pose proof one_path_valid as Hvalid.
  set (b := super_args (base_args one_path)) in *.
  unfold EuropeanSpread.batch.
  rewrite (generate_stock_paths_eq Hvalid Hself eq_refl),
    (attr_M Hvalid Hself eq_refl), (attr_N Hvalid Hself). cbn [bind fst snd].
  rewrite (@european_spread_payoff_eq one_path "call" Hvalid eq_refl eq_refl).
  cbn [bind]. fold b.
  change (cfg_M b) with 1%nat. change (cfg_N b) with 1%nat.
  change (range_down 1) with [1%nat]. cbn [for_each].
  unfold b. rewrite one_path_S, one_path_dW.
  assert (HY0 : set_col_last
                  (european_spread_payoff one_path (col_last [[100; 100; 100]]))
                  (zeros2 1 (1 + 1)) = [[0; 5]]).
  { unfold european_spread_payoff, cfg_K, cfg_K2. cbn.
    rewrite (@Rmax_left (100 - 95) 0), (@Rmax_right (100 - 105) 0) by lra.
    repeat f_equal; lra. }
  rewrite HY0. change (zeros2 1 (1 + 1)) with [[0; 0]].
  destruct (@european_spread_step_spec toy_numpy one_path "call" Hvalid
              eq_refl ltac:(simpl; lia) [[100; 100; 100]] [[0; 0]] eq_refl
              1%nat [[0; 5]] [[0; 0]])
    as (Y' & Hstep & _ & _ & Hcol & _).
  { change (cfg_N (super_args (base_args one_path))) with 1%nat. lia. }
  { split; [reflexivity | repeat constructor]. }
  { split; [reflexivity | repeat constructor]. }
  rewrite Hstep. cbn [bind].
  eexists; eexists; split; [reflexivity|].
  change (1 - 1)%nat with 0%nat in Hcol. rewrite Hcol.
  change (cfg_degree (super_args (base_args one_path))) with 1%nat.
  change (col 1 [[100; 100; 100]]) with [100].
  change (col 1 [[0; 5]]) with [5].
  change (col 1 [[0; 0]]) with [0].
  assert (HE : @fitted toy_numpy (basis 1 [100]) [5] = [5]).
  { unfold fitted, basis, laguerre. cbn. f_equal. lra. }
  assert (Hz : @fitted toy_numpy (basis 1 [100]) (vmap2 Rmult [5] [0]) = [0]).
  { unfold fitted, basis, laguerre. cbn. f_equal. lra. }
  rewrite HE, Hz.
  unfold picard_value, cfg_sigma, cfg_r, cfg_R, cfg_lamb, cfg_dt, cfg_mu,
    cfg_T.
  cbn. f_equal. lra.
Qed.

(** C3 (the code departs from the claim).  [np.min(v, 0)] reduces over the
    paths.  In the one-path run where the price stays at 100, the terminal
    value is [Y = 5] and the hedge is [Z = 0]: the claim's update, with
    [min(5 - 0, 0) = 0], leaves [Y[:, 0] = 5], while the European spread
    solver subtracts [(R - r) * 5 * dt = 0.3] and returns the batch
    estimate 4.7. *)
Theorem picard_minimum_is_not_pointwise :
  EuropeanSpread.__init__ one_path = Ok (spread_instance_of one_path "call")
  /\ @EuropeanSpread._bsde_solver toy_numpy
       (spread_instance_of one_path "call") = Ok ([4.7], Scalar 0)
  /\ picard_value one_path [5] [5] [0] = [4.7]
  /\ picard_pointwise one_path [5] [5] [0] = [5].
Proof.
  pose proof (spread_extends one_path "call") as Hself.
  split.
  { apply spread_init_ok;
      [apply one_path_valid | fits_float_tac | reflexivity]. }
  split; [|split].
  - destruct one_path_batch as (Y & Z & Hbatch & Hcol).
    unfold EuropeanSpread._bsde_solver.
    rewrite (attr_samples Hself). cbn [bind].
    change (np_zeros (arg_samples (super_args (base_args one_path))))
      with (Ok [0]).
    change (as_index (arg_samples (super_args (base_args one_path))))
      with (Ok 1%Z).
    cbn [bind]. change (range (Z.to_nat 1)) with [0%nat]. cbn [for_each].
    rewrite Hbatch. cbn [bind fst upd]. rewrite Hcol.
    do 3 f_equal. unfold np_mean, np_sum; simpl. lra.
  - unfold picard_value, cfg_sigma, cfg_r, cfg_R, cfg_lamb, cfg_dt, cfg_mu,
      cfg_T.
    cbn. f_equal. lra.
  - unfold picard_pointwise, cfg_sigma, cfg_r, cfg_R, cfg_lamb, cfg_dt,
      cfg_mu, cfg_T.
    cbn. f_equal.
    replace (Rmin (5 - 0 / 1) 0) with 0; [lra|].
    unfold Rmin; destruct (Rle_dec (5 - 0 / 1) 0); lra.
Qed.

(* ================================================================= *)
(** ** The spread classes and the payoff kind "put" *)

Section SpreadPut.
Context `{NumPy}.
Variable a : SpreadArgs.
Hypothesis Hvalid : valid_args (super_args (base_args a)).
Hypothesis HMint : type_is_int (arg_M (base_args a)) = true.

Let self := spread_instance_of a "put".

Lemma european_spread_put_payoff (S : vec) :
  EuropeanSpread._payoff_func self S = Err (AttributeError "option_type").
Proof.
  pose proof (spread_extends a "put") as Hself.
  unfold EuropeanSpread._payoff_func, self.
  rewrite (attr_option_payoff Hself).
  cbn [bind py_eq_str String.eqb Ascii.eqb Bool.eqb].
  rewrite (attr_option_type Hself). reflexivity.
Qed.

Lemma american_spread_put_payoff (S : vec) :
  AmericanSpread._payoff_func self S = Err (AttributeError "option_type").
Proof.
  pose proof (spread_extends a "put") as Hself.
  unfold AmericanSpread._payoff_func, self.
  rewrite (attr_option_payoff Hself).
  cbn [bind py_eq_str String.eqb Ascii.eqb Bool.eqb].
  rewrite (attr_option_type Hself). reflexivity.
Qed.

Lemma european_spread_put_batch (k : nat) :
  EuropeanSpread.batch self k = Err (AttributeError "option_type").
Proof.
  pose proof (spread_extends a "put") as Hself.
  unfold EuropeanSpread.batch. unfold self at 1 2 3.
  rewrite (generate_stock_paths_eq Hvalid Hself HMint),
    (attr_M Hvalid Hself HMint), (attr_N Hvalid Hself). cbn [bind fst snd].
  rewrite european_spread_put_payoff. reflexivity.
Qed.

Lemma american_spread_put_batch (k : nat) :
  AmericanSpread.batch self k = Err (AttributeError "option_type").
Proof.
  pose proof (spread_extends a "put") as Hself.
  unfold AmericanSpread.batch. unfold self at 1 2 3.
  rewrite (generate_stock_paths_eq Hvalid Hself HMint),
    (attr_M Hvalid Hself HMint), (attr_N Hvalid Hself). cbn [bind fst snd].
  rewrite american_spread_put_payoff. reflexivity.
Qed.

Lemma spread_put_solvers :
  type_is_int (arg_samples (base_args a)) = true ->
  (1 <= int_of (arg_samples (base_args a)))%Z ->
  EuropeanSpread._bsde_solver self = Err (AttributeError "option_type")
  /\ AmericanSpread._bsde_solver self = Err (AttributeError "option_type").
Proof.
  intros Hsi Hsn.
  pose proof (spread_extends a "put") as Hself.
  assert (Hrange : exists n', range (Z.to_nat (int_of (arg_samples (base_args a))))
                              = 0%nat :: seq 1 n').
  { exists (Z.to_nat (int_of (arg_samples (base_args a))) - 1)%nat.
    unfold range.
    replace (Z.to_nat (int_of (arg_samples (base_args a))))
      with (S (Z.to_nat (int_of (arg_samples (base_args a))) - 1)) at 1 by lia.
    reflexivity. }
  destruct Hrange as (n' & Hrange).
  split.
  - unfold EuropeanSpread._bsde_solver. unfold self at 1.
    rewrite (attr_samples Hself). cbn [bind].
    change (arg_samples (super_args (base_args a)))
      with (arg_samples (base_args a)).
    rewrite np_zeros_ok, as_index_int
      by (auto using type_is_int_isinstance; lia).
    cbn [bind]. rewrite Hrange. cbn [for_each].
    rewrite european_spread_put_batch. reflexivity.
  - unfold AmericanSpread._bsde_solver, AmericanSpread.batch_loop.
    unfold self at 1.
    rewrite (attr_samples Hself). cbn [bind].
    change (arg_samples (super_args (base_args a)))
      with (arg_samples (base_args a)).
    rewrite np_zeros_ok, as_index_int
      by (auto using type_is_int_isinstance; lia).
    cbn [bind]. rewrite Hrange. cbn [for_each].
    rewrite american_spread_put_batch. reflexivity.
Qed.

End SpreadPut.

Lemma get_opt_payoff_put (s : string) :
  lower s = "put" -> European._get_opt_payoff (PyStr s) = Ok "put".
Proof. intros Hs; unfold European._get_opt_payoff; rewrite Hs; reflexivity. Qed.


Lemma put_scenario_valid (n : Z) :
  valid_args (super_args (base_args (put_scenario n))).
Proof. valid_args_tac. Qed.



(* ================================================================= *)
(** ** A regression on a basis with a constant column keeps the sum *)

Lemma dot_cons (x y : R) (u v : vec) : dot (x :: u) (y :: v) = x * y + dot u v.
Proof. reflexivity. Qed.

Lemma dot_nil_r (u : vec) : dot u [] = 0.
Proof. destruct u; reflexivity. Qed.

Lemma dot_zeros_l (u v : vec) : Forall (fun x => x = 0) u -> dot u v = 0.
Proof.
  intros Hu; revert v; induction Hu as [|x u Hx Hu IH]; intros v.
  - reflexivity.
  - destruct v as [|y v]; [reflexivity|].
    rewrite dot_cons, IH, Hx. ring.
Qed.

Lemma dot_ones_l (u v : vec) :
  Forall (fun x => x = 1) u -> length u = length v -> dot u v = np_sum v.
Proof.
  intros Hu; revert v; induction Hu as [|x u Hx Hu IH]; intros v Hlen.
  - destruct v; [reflexivity | discriminate].
  - destruct v as [|y v]; [discriminate|].
    rewrite dot_cons, IH, Hx by (simpl in Hlen; lia). simpl. ring.
Qed.

Lemma dot_map_add (f g : nat -> R) (l : list nat) (v : vec) :
  dot (map (fun j => f j + g j) l) v = dot (map f l) v + dot (map g l) v.
Proof.
  revert v; induction l as [|j l IH]; intros v.
  - cbn [map]. unfold dot, vmap2; simpl. ring.
  - destruct v as [|y v]; [rewrite !dot_nil_r; ring|].
    cbn [map]. rewrite !dot_cons, IH. ring.
Qed.

Lemma map_nth_seq (row : vec) :
  map (fun j => nth j row 0) (seq 0 (length row)) = row.
Proof.
  induction row as [|x row IH]; [reflexivity|].
  cbn [length seq map nth]. f_equal.
  rewrite <- seq_shift, map_map. exact IH.
Qed.

Lemma sum_matvec_cols (m c : nat) (X : matrix) (alpha : vec) :
  shape m c X ->
  np_sum (matvec X alpha)
  = dot (map (fun j => np_sum (col j X)) (seq 0 c)) alpha.
Proof.
  intros [_ Hc]. clear m.
  induction X as [|row X IH].
  - simpl. symmetry. apply dot_zeros_l.
    rewrite Forall_forall; intros x Hin.
    apply in_map_iff in Hin; destruct Hin as (j & <- & _); reflexivity.
  - inversion Hc as [|? ? Hrow Hc']; subst.
    cbn [matvec map np_sum fold_right].
    change (fold_right Rplus 0 (map (fun r => dot r alpha) X))
      with (np_sum (matvec X alpha)).
    rewrite IH by auto.
    cbn [col map np_sum fold_right].
    rewrite (dot_map_add (fun j => nth j row 0)
                         (fun j => np_sum (col j X))).
    rewrite map_nth_seq. reflexivity.
Qed.

Lemma nth_matvec_0 (A : matrix) (v : vec) :
  nth 0 (matvec A v) 0 = dot (nth 0 A []) v.
Proof. destruct A as [|row A]; reflexivity. Qed.

Lemma transpose_shape (m c : nat) (X : matrix) :
  shape m c X -> (0 < m)%nat ->
  transpose X = map (fun j => col j X) (seq 0 c).
Proof.
  intros HX Hm. unfold transpose. rewrite (ncols_shape HX Hm). reflexivity.
Qed.

(** If the first column of [X] is all ones and the coefficients solve the
    normal equations, the fitted values have the sum of [y]. *)
Lemma sum_fitted `{NumPy} (m c : nat) (X : matrix) (y : vec) :
  shape m (S c) X -> (0 < m)%nat ->
  Forall (fun x => x = 1) (col 0 X) ->
  length y = m ->
  normal_equations X y ->
  np_sum (fitted X y) = np_sum y.
Proof.
  intros HX Hm Hones Hy Hne.
  unfold normal_equations in Hne. cbv zeta in Hne.
  unfold fitted.
  set (alpha := lstsq (matmul (transpose X) X) (matvec (transpose X) y)) in *.
  rewrite (sum_matvec_cols alpha HX).
  apply (f_equal (fun v => nth 0 v 0)) in Hne.
  rewrite !nth_matvec_0 in Hne.
  unfold matmul in Hne.
  rewrite (transpose_shape HX Hm) in Hne.
  cbn [seq map nth] in Hne.
  rewrite map_map in Hne.
  assert (Hlen : length (col 0 X) = m) by (rewrite length_col; apply HX).
  rewrite (@dot_ones_l (col 0 X) y Hones) in Hne by lia.
  rewrite <- Hne. cbn [seq map].
  f_equal. f_equal.
  - symmetry. apply dot_ones_l; auto.
  - apply map_ext; intros j. symmetry.
    apply dot_ones_l; [auto | rewrite !length_col; reflexivity].
Qed.

Lemma basis_shape (d : nat) (S : vec) : shape (length S) (d + 1) (basis d S).
Proof.
  unfold basis; split; [apply length_map|].
  rewrite Forall_forall; intros row Hin.
  apply in_map_iff in Hin; destruct Hin as (s & <- & _).
  rewrite length_map, length_seq; reflexivity.
Qed.

Lemma basis_first_column (d : nat) (S : vec) :
  Forall (fun x => x = 1) (col 0 (basis d S)).
Proof.
  unfold col, basis. rewrite map_map, Forall_forall; intros x Hin.
  apply in_map_iff in Hin; destruct Hin as (s & <- & _).
  rewrite Nat.add_1_r. reflexivity.
Qed.

(* ================================================================= *)
(** ** American against European *)

Lemma sum_map_scale (k : R) (u : vec) :
  np_sum (map (fun c => c * k) u) = np_sum u * k.
Proof. induction u as [|x u IH]; simpl; [ring | rewrite IH; ring]. Qed.

Lemma sum_vmap2_Rmax_ge (u v : vec) :
  length u = length v -> np_sum u <= np_sum (vmap2 Rmax u v).
Proof.
  revert v; induction u as [|x u IH]; intros [|y v] Hlen; simpl in *;
    try discriminate; try lra.
  pose proof (Rmax_l x y). pose proof (IH v ltac:(lia)).
  unfold vmap2 in *. lra.
Qed.

Lemma sum_le_pointwise (u v : vec) :
  length u = length v ->
  (forall k, (k < length u)%nat -> nth k u 0 <= nth k v 0) ->
  np_sum u <= np_sum v.
Proof.
  revert v; induction u as [|x u IH]; intros [|y v] Hlen Hle; simpl in *;
    try discriminate; try lra.
  pose proof (Hle 0%nat ltac:(lia)) as H0. simpl in H0.
  assert (np_sum u <= np_sum v).
  { apply IH; [lia|]. intros k Hk. apply (Hle (S k)). lia. }
  unfold np_sum in *. lra.
Qed.

Lemma mean_le_pointwise (u v : vec) :
  length u = length v ->
  (forall k, (k < length u)%nat -> nth k u 0 <= nth k v 0) ->
  np_mean u <= np_mean v.
Proof.
  intros Hlen Hle. unfold np_mean. rewrite <- Hlen.
  pose proof (sum_le_pointwise u v Hlen Hle).
  destruct u as [|x u].
  - simpl. unfold Rdiv. rewrite Rinv_0. lra.
  - apply Rmult_le_compat_r; [|assumption].
    apply Rlt_le, Rinv_0_lt_compat, lt_0_INR. simpl; lia.
Qed.

Section AmericanEuropean.
Context `{NumPy}.
Variables (a : Args) (p : string) (k : nat).
Hypothesis Hvalid : valid_args a.
Hypothesis Hexact : forall i y,
  (1 <= i <= cfg_N a)%nat -> length y = cfg_M a ->
  normal_equations (basis (cfg_degree a) (col i (paths_S a k))) y.

Lemma sum_european_update (i : nat) (y : vec) :
  (1 <= i <= cfg_N a)%nat -> length y = cfg_M a ->
  np_sum (european_update a (paths_S a k) i y)
  = np_sum y * exp (- cfg_r a * cfg_dt a).
Proof.
  intros Hi Hy. unfold european_update.
  rewrite sum_map_scale. f_equal.
  destruct (shape_paths_S a k) as [HSm _].
  pose proof (basis_shape (cfg_degree a) (col i (paths_S a k))) as HX.
  rewrite length_col, HSm, Nat.add_1_r in HX.
  apply (sum_fitted HX); auto.
  - apply (cfg_M_pos Hvalid).
  - apply basis_first_column.
Qed.

(** Column by column, the sum of the American values is at least the sum of
    the European values. *)
Lemma american_column_sums (Ye Ya : matrix) :
  shape (cfg_M a) (cfg_N a + 1) Ye -> shape (cfg_M a) (cfg_N a + 1) Ya ->
  col (cfg_N a) Ya = col (cfg_N a) Ye ->
  (forall i, (1 <= i <= cfg_N a)%nat ->
     col (i - 1) Ye = european_update a (paths_S a k) i (col i Ye)) ->
  (forall i, (1 <= i <= cfg_N a)%nat ->
     col (i - 1) Ya = american_update a p (paths_S a k) i (col i Ya)) ->
  forall t, (t <= cfg_N a)%nat ->
    np_sum (col (cfg_N a - t) Ye) <= np_sum (col (cfg_N a - t) Ya).
Proof.
  intros HYe HYa Hlast He Ha.
  destruct (shape_paths_S a k) as [HSm _].
  induction t as [|t IH]; intros Ht.
  - rewrite Nat.sub_0_r, Hlast. lra.
  - assert (Hi : (1 <= cfg_N a - t <= cfg_N a)%nat) by lia.
    replace (cfg_N a - S t)%nat with (cfg_N a - t - 1)%nat by lia.
    rewrite (He _ Hi), (Ha _ Hi).
    assert (Hle : length (col (cfg_N a - t) Ye) = cfg_M a)
      by (rewrite length_col; apply HYe).
    assert (Hla : length (col (cfg_N a - t) Ya) = cfg_M a)
      by (rewrite length_col; apply HYa).
    unfold american_update.
    eapply Rle_trans; [|apply sum_vmap2_Rmax_ge].
    + rewrite !sum_european_update by auto.
      apply Rmult_le_compat_r; [apply Rlt_le, exp_pos | apply IH; lia].
    + rewrite length_european_update, length_plain_payoff, length_col.
      reflexivity.
Qed.

End AmericanEuropean.

(* ================================================================= *)
(** * Further properties of the classes *)

(** ** The payoff kind *)

Lemma lower_ascii_idem (c : Ascii.ascii) :
  lower_ascii (lower_ascii c) = lower_ascii c.
Proof. destruct c as [[] [] [] [] [] [] [] []]; reflexivity. Qed.

Lemma lower_idem (s : string) : lower (lower s) = lower s.
Proof.
  induction s as [|c s IH]; [reflexivity|].
  simpl. rewrite lower_ascii_idem, IH. reflexivity.
Qed.

(** X1.  [_get_opt_payoff] returns only "call" or "put", and it returns the
    kind its argument lower-cases to; it does not depend on the
    capitalisation of its argument and leaves a normalised kind unchanged;
    a value that is not a string, and a string that lower-cases to
    anything else, raise [TypeError]. *)
Theorem get_opt_payoff_normalises (v : PyVal) :
  (forall p, European._get_opt_payoff v = Ok p ->
     (p = "call" \/ p = "put")
     /\ (exists s, v = PyStr s /\ lower s = p)
     /\ European._get_opt_payoff (PyStr p) = Ok p)
  /\ (forall s, v = PyStr s ->
        European._get_opt_payoff (PyStr (lower s))
        = European._get_opt_payoff v)
  /\ (isinstance_str v = false ->
      European._get_opt_payoff v
      = Err (TypeError "Option type should be a string!"))
  /\ (forall s, v = PyStr s -> lower s <> "call" -> lower s <> "put" ->
        European._get_opt_payoff v
        = Err (TypeError "Invalid option type! It should be call or put")).
Proof.
  split; [|split; [|split]].
  - intros p Hp. apply get_opt_payoff_cases in Hp.
    destruct Hp as (s & -> & [[Hs ->] | (_ & Hs & ->)]).
    + split; [auto | split; [eauto | reflexivity]].
    + split; [auto | split; [eauto | reflexivity]].
  - intros s ->. unfold European._get_opt_payoff.
    rewrite lower_idem. reflexivity.
  - destruct v; simpl; intros Hv; try reflexivity; discriminate.
  - intros s -> Hc Hp. unfold European._get_opt_payoff.
    destruct (String.eqb_spec (lower s) "call"); [contradiction|].
    destruct (String.eqb_spec (lower s) "put"); [contradiction|].
    reflexivity.
Qed.

Lemma get_opt_payoff_normalises_witness :
  European._get_opt_payoff (PyStr "CaLL") = Ok "call"
  /\ European._get_opt_payoff (PyStr "call") = Ok "call"
  /\ European._get_opt_payoff (PyInt 1)
     = Err (TypeError "Option type should be a string!")
  /\ European._get_opt_payoff (PyStr "straddle")
     = Err (TypeError "Invalid option type! It should be call or put").
Proof.
  destruct (get_opt_payoff_normalises (PyStr "CaLL")) as (H1 & _).
  destruct (H1 "call" eq_refl) as (_ & _ & H1').
  destruct (get_opt_payoff_normalises (PyInt 1)) as (_ & _ & H3 & _).
  destruct (get_opt_payoff_normalises (PyStr "straddle")) as (_ & _ & _ & H4).
  split; [reflexivity | split; [exact H1' | split; [exact (H3 eq_refl)|]]].
  apply (H4 "straddle" eq_refl); discriminate.
Defined.

(** ** The constructor *)

Lemma get_opt_payoff_error (v : PyVal) (e : exn) :
  European._get_opt_payoff v = Err e -> exists msg, e = TypeError msg.
Proof.
  destruct v as [|b|z|x|s]; simpl; try (intros [= <-]; eauto).
  destruct (String.eqb (lower s) "call"); [discriminate|].
  destruct (String.eqb (lower s) "put"); [discriminate|].
  intros [= <-]; eauto.
Qed.

Lemma py_sub_not_num (x y : PyVal) :
  isinstance_num x = false ->
  py_sub x y = Err (TypeError "unsupported operand type(s)").
Proof. destruct x; simpl; try discriminate; reflexivity. Qed.



(** X3.  On a constructed object every argument reads back unchanged under
    its own name, [option_payoff] reads back normalised, [dt] is [T / N]
    (positive, with [dt * N = T]) and [lamb] is [(mu - r) / sigma]; the
    object has no attribute besides the fifteen of [attribute_names]:
    reading any other name raises [AttributeError]. *)
Theorem init_attributes (a : Args) (self : Instance) :
  European.__init__ a = Ok self ->
  map (getattr self)
      ["S0"; "K"; "T"; "r"; "mu"; "sigma"; "N"; "M"; "degree"; "samples";
       "lower"; "picard"]
  = map (@Ok PyVal)
      [arg_S0 a; arg_K a; arg_T a; arg_r a; arg_mu a; arg_sigma a; arg_N a;
       arg_M a; arg_degree a; arg_samples a; arg_lower a; arg_picard a]
  /\ (exists p,
        getattr self "option_payoff" = Ok (PyStr p)
        /\ European._get_opt_payoff (arg_option_payoff a) = Ok p)
  /\ (exists dt lamb,
        getattr self "dt" = Ok (PyFloat dt)
        /\ getattr self "lamb" = Ok (PyFloat lamb)
        /\ 0 < dt
        /\ dt * real_of (arg_N a) = real_of (arg_T a)
        /\ lamb * real_of (arg_sigma a) = real_of (arg_mu a) - real_of (arg_r a))
  /\ (forall name, ~ In name attribute_names ->
        getattr self name = Err (AttributeError name)).
Proof.
  intros Hinit.
  apply init_inv in Hinit; destruct Hinit as (Hvalid & p & Hp & ->).
  split; [reflexivity|].
  split; [exists p; split; [reflexivity | exact Hp]|].
  split.
  - exists (cfg_dt a), (cfg_lamb a).
    split; [reflexivity | split; [reflexivity|]].
    destruct (valid_T Hvalid) as [_ HT].
    destruct (valid_sigma Hvalid) as [_ Hsig].
    destruct (valid_N Hvalid) as [HNi HN].
    assert (HNr : 0 < real_of (arg_N a)).
    { destruct (arg_N a); simpl in *; try discriminate;
        apply (IZR_lt 0); exact HN. }
    unfold cfg_dt, cfg_lamb, cfg_T, cfg_mu, cfg_r, cfg_sigma.
    split; [apply Rdiv_lt_0_compat; assumption|].
    split; field; lra.
  - intros name Hname. unfold instance_of. cbn [getattr].
    repeat match goal with
    | |- (if String.eqb ?n name then _ else _) = _ =>
        destruct (String.eqb_spec n name) as [E|_];
          [exfalso; apply Hname; rewrite <- E; simpl; tauto|]
    end.
    reflexivity.
Qed.

Lemma init_attributes_witness :
  getattr (instance_of scenario "call") "K" = Ok (PyInt 100)
  /\ getattr (instance_of scenario "call") "option_type"
     = Err (AttributeError "option_type").
Proof.
  destruct (@init_attributes scenario (instance_of scenario "call")
              (init_ok scenario_valid ltac:(fits_float_tac) eq_refl))
    as (Hraw & _ & _ & Hnone).
  split.
  - apply (f_equal (fun l => nth 1 l (Err (AttributeError "")))) in Hraw.
    exact Hraw.
  - apply Hnone. simpl. intros Hin.
    repeat (destruct Hin as [Hin | Hin]; [discriminate Hin|]).
    exact Hin.
Defined.

(** ** The plain payoff *)

Lemma Rmax_parity (s K : R) : Rmax (s - K) 0 - Rmax (K - s) 0 = s - K.
Proof.
  unfold Rmax. destruct (Rle_dec (s - K) 0), (Rle_dec (K - s) 0); lra.
Qed.

Lemma nth_plain_payoff (p : string) (K : R) (S : vec) (m : nat) :
  (m < length S)%nat ->
  nth m (plain_payoff p K S) 0
  = if String.eqb p "call" then Rmax (nth m S 0 - K) 0
    else Rmax (K - nth m S 0) 0.
Proof.
  intros Hm. unfold plain_payoff.
  destruct (String.eqb p "call").
  - apply (@nth_map_lt (fun s => Rmax (s - K) 0) S m Hm).
  - apply (@nth_map_lt (fun s => Rmax (K - s) 0) S m Hm).
Qed.

(** X4.  On an object built by [__init__] the payoff function of the plain
    classes never raises (its invalid-kind branch cannot be reached): it
    returns one value per price, never negative; a put pays at most [K] on
    a non-negative price; and the call and the put of two objects with the
    same strike differ by [S - K] at every price. *)
Theorem plain_payoff_total_nonneg_parity (a a' : Args) (self self' : Instance)
    (S : vec) :
  European.__init__ a = Ok self ->
  (exists v,
     European._payoff_func self S = Ok v
     /\ length v = length S
     /\ forall m, (m < length S)%nat ->
          0 <= nth m v 0
          /\ (European._get_opt_payoff (arg_option_payoff a) = Ok "put" ->
              0 <= nth m S 0 -> nth m v 0 <= real_of (arg_K a)))
  /\ (European.__init__ a' = Ok self' ->
      arg_K a' = arg_K a ->
      European._get_opt_payoff (arg_option_payoff a) = Ok "call" ->
      European._get_opt_payoff (arg_option_payoff a') = Ok "put" ->
      exists c p,
        European._payoff_func self S = Ok c
        /\ European._payoff_func self' S = Ok p
        /\ forall m, (m < length S)%nat ->
             nth m c 0 - nth m p 0 = nth m S 0 - real_of (arg_K a)).
Proof.
  intros Hinit.
  apply init_inv in Hinit; destruct Hinit as (Hvalid & p & Hp & ->).
  assert (Hpayoff : p = "call" \/ p = "put").
  { apply get_opt_payoff_cases in Hp.
    destruct Hp as (s & _ & [[_ ->] | (_ & _ & ->)]); auto. }
  pose proof (payoff_func_eq Hvalid (extends_refl _) S Hpayoff) as Heq.
  split.
  - exists (plain_payoff p (cfg_K a) S).
    split; [exact Heq | split; [apply length_plain_payoff|]].
    intros m Hm. rewrite nth_plain_payoff by exact Hm.
    split.
    + destruct (String.eqb p "call"); apply Rmax_r.
    + intros Hput Hs. assert (p = "put") by congruence; subst p.
      cbn [String.eqb Ascii.eqb Bool.eqb].
      destruct (valid_K Hvalid) as [_ HK]. unfold cfg_K, Rmax.
      destruct (Rle_dec (real_of (arg_K a) - nth m S 0) 0); lra.
  - intros Hinit' HK Hcall Hput.
    apply init_inv in Hinit'; destruct Hinit' as (Hvalid' & p' & Hp' & ->).
    assert (p = "call") by congruence; assert (p' = "put") by congruence.
    subst p p'.
    exists (plain_payoff "call" (cfg_K a) S),
           (plain_payoff "put" (cfg_K a') S).
    split; [exact Heq|].
    split; [apply (payoff_func_eq Hvalid' (extends_refl _)); auto|].
    intros m Hm. rewrite !nth_plain_payoff by exact Hm.
    cbn [String.eqb Ascii.eqb Bool.eqb].
    unfold cfg_K. rewrite HK. apply Rmax_parity.
Qed.

Lemma plain_payoff_total_nonneg_parity_witness :
  exists c,
    European._payoff_func (instance_of scenario "call") [90; 120] = Ok c
    /\ 0 <= nth 0 c 0.
Proof.
  destruct (@plain_payoff_total_nonneg_parity scenario scenario
              (instance_of scenario "call") (instance_of scenario "call")
              [90; 120] (init_ok scenario_valid ltac:(fits_float_tac) eq_refl))
    as ((c & Hc & _ & Hnn) & _).
  exists c. split; [exact Hc|].
  apply (Hnn 0%nat). simpl. lia.
Defined.

(** ** The basis expander *)

Lemma nth_basis (d : nat) (S : vec) (m k : nat) :
  (m < length S)%nat -> (k <= d)%nat ->
  nth k (nth m (basis d S) []) 0 = laguerre k (nth m S 0).
Proof.
  intros Hm Hk. unfold basis.
  rewrite (nth_row_map _ S 0) by exact Hm.
  rewrite (nth_indep _ 0 (laguerre 0 (nth m S 0)))
    by (rewrite length_map, length_seq; lia).
  rewrite (map_nth (fun j => laguerre j (nth m S 0))).
  rewrite seq_nth by lia. reflexivity.
Qed.

(** X5.  For a degree in 1..20 the basis expander returns, for each price
    [s], the row [L_0(s) .. L_degree(s)] of length [degree + 1]: its first
    entry is 1, its second [1 - s], and, where the degree reaches them,
    the next two are [1 - 2s + s^2/2] and [1 - 3s + 3s^2/2 - s^3/6]. *)
Theorem regression_rows (a : Args) (self : Instance) (S : vec) :
  European.__init__ a = Ok self ->
  (1 <= int_of (arg_degree a) <= 20)%Z ->
  exists X,
    European._generate_regression self S = Ok X
    /\ length X = length S
    /\ forall m, (m < length S)%nat ->
         let s := nth m S 0 in
         let row := nth m X [] in
         length row = (cfg_degree a + 1)%nat
         /\ nth 0 row 0 = 1
         /\ nth 1 row 0 = 1 - s
         /\ ((2 <= cfg_degree a)%nat -> nth 2 row 0 = 1 - 2 * s + s ^ 2 / 2)
         /\ ((3 <= cfg_degree a)%nat ->
             nth 3 row 0 = 1 - 3 * s + 3 * s ^ 2 / 2 - s ^ 3 / 6).
Proof.
  intros Hinit Hdeg.
  apply init_inv in Hinit; destruct Hinit as (Hvalid & p & Hp & ->).
  exists (basis (cfg_degree a) S).
  split; [apply (generate_regression_ok Hvalid (extends_refl _)); auto|].
  split; [apply length_basis|].
  assert (Hd : (1 <= cfg_degree a)%nat) by (unfold cfg_degree; lia).
  intros m Hm; cbv zeta.
  split.
  { destruct (basis_shape (cfg_degree a) S) as [_ Hc].
    rewrite Forall_forall in Hc. apply Hc, nth_In.
    rewrite length_basis; exact Hm. }
  rewrite !nth_basis by (auto; lia).
  split; [reflexivity | split; [reflexivity|]].
  split; intros Hk; rewrite nth_basis by (auto; lia);
    unfold laguerre; simpl; field.
Qed.

Lemma regression_rows_witness :
  exists X,
    European._generate_regression (instance_of scenario "call") [2] = Ok X
    /\ nth 2 (nth 0 X []) 0 = 1 - 2 * 2 + 2 ^ 2 / 2.
Proof.
  destruct (@regression_rows scenario (instance_of scenario "call") [2]
              (init_ok scenario_valid ltac:(fits_float_tac) eq_refl))
    as (X & HX & _ & Hrow).
  - simpl; lia.
  - exists X. split; [exact HX|].
    destruct (Hrow 0%nat) as (_ & _ & _ & H2 & _); [simpl; lia|].
    apply H2. change (cfg_degree scenario) with 3%nat. lia.
Defined.

(** ** The simulated prices *)

Lemma sum_firstn_S (l : vec) : forall n,
  (n < length l)%nat ->
  np_sum (firstn (S n) l) = np_sum (firstn n l) + nth n l 0.
Proof.
  induction l as [|x l IH]; intros n Hn; simpl in Hn; [lia|].
  destruct n as [|n].
  - simpl. lra.
  - change (x + np_sum (firstn (S n) l)
            = x + np_sum (firstn n l) + nth n l 0).
    rewrite IH by lia. lra.
Qed.



(** ** The plain European estimate *)

Lemma exp_pow_INR (x : R) (n : nat) : exp x ^ n = exp (INR n * x).
Proof.
  induction n as [|n IH].
  - simpl. rewrite Rmult_0_l, exp_0. reflexivity.
  - rewrite S_INR. simpl pow. rewrite IH, <- exp_plus. f_equal. ring.
Qed.

Lemma european_column_sums `{NumPy} (a : Args) (k : nat) (Y : matrix) :
  valid_args a ->
  (forall i y, (1 <= i <= cfg_N a)%nat -> length y = cfg_M a ->
     normal_equations (basis (cfg_degree a) (col i (paths_S a k))) y) ->
  shape (cfg_M a) (cfg_N a + 1) Y ->
  (forall i, (1 <= i <= cfg_N a)%nat ->
     col (i - 1) Y = european_update a (paths_S a k) i (col i Y)) ->
  forall t, (t <= cfg_N a)%nat ->
    np_sum (col (cfg_N a - t) Y)
    = np_sum (col (cfg_N a) Y) * exp (- cfg_r a * cfg_dt a) ^ t.
Proof.
  intros Hvalid Hexact HY Hrec.
  induction t as [|t IH]; intros Ht.
  - rewrite Nat.sub_0_r. simpl. ring.
  - assert (Hi : (1 <= cfg_N a - t <= cfg_N a)%nat) by lia.
    replace (cfg_N a - S t)%nat with (cfg_N a - t - 1)%nat by lia.
    rewrite (Hrec _ Hi).
    rewrite (@sum_european_update _ a k Hvalid Hexact _ _ Hi)
      by (rewrite length_col; apply HY).
    rewrite IH by lia. simpl. ring.
Qed.

(** ** A run with two paths and an exact solver *)

Ltac vec_eq :=
  repeat match goal with
  | |- _ :: _ = _ :: _ => f_equal
  | |- @nil _ = @nil _ => reflexivity
  end.

(** On two distinct prices the design matrix of degree 1 is invertible:
    Cramer's rule solves the normal equations, and the fitted values are
    the regressed values themselves. *)
Lemma cramer_normal_equations (s1 s2 y1 y2 : R) :
  s1 <> s2 -> @normal_equations cramer_numpy (basis 1 [s1; s2]) [y1; y2].
Proof.
  intros Hne. unfold normal_equations, basis, laguerre. cbn.
  assert (Hd : (s1 - s2) ^ 2 <> 0) by (apply pow_nonzero; lra).
  vec_eq; field;
    match goal with
    | |- ?d <> 0 => replace d with ((s1 - s2) ^ 2) by ring; exact Hd
    end.
Qed.

Lemma cramer_fitted (s1 s2 y1 y2 : R) :
  s1 <> s2 -> @fitted cramer_numpy (basis 1 [s1; s2]) [y1; y2] = [y1; y2].
Proof.
  intros Hne. unfold fitted, basis, laguerre. cbn.
  assert (Hd : (s1 - s2) ^ 2 <> 0) by (apply pow_nonzero; lra).
  vec_eq; field;
    match goal with
    | |- ?d <> 0 => replace d with ((s1 - s2) ^ 2) by ring; exact Hd
    end.
Qed.

Lemma exp_lt_1 (x : R) : x < 0 -> exp x < 1.
Proof. intros Hx. rewrite <- exp_0. apply exp_increasing. exact Hx. Qed.

Lemma two_paths_valid : valid_args two_paths.
Proof. valid_args_tac. Qed.

Lemma two_paths_dW (k : nat) :
  @paths_dW cramer_numpy two_paths k = [[-1; 1 / 2]; [0; 0]].
Proof.
  unfold paths_dW, np_random_normal.
  change (cfg_M two_paths) with 2%nat.
  change (cfg_N two_paths) with 1%nat.
  assert (Hs : sqrt (cfg_dt two_paths) = 1).
  { unfold cfg_dt, cfg_T; cbn. replace (1 / 1) with 1 by lra. apply sqrt_1. }
  rewrite Hs.
  cbn [seq map Nat.add standard_normal cramer_numpy].
  vec_eq; lra.
Qed.

Lemma two_paths_S (k : nat) :
  @paths_S cramer_numpy two_paths k
  = [[100; 100 * exp (-1); 100 * exp (- (1 / 2))]; [100; 100; 100]].
Proof.
  unfold paths_S. rewrite two_paths_dW.
  cbn [map np_cumsum cumsum_from].
  unfold log_return, cfg_mu, cfg_sigma, cfg_dt, cfg_T, cfg_S0; cbn.
  vec_eq;
    match goal with
    | |- 100 * exp ?x = 100 => replace x with 0 by lra; rewrite exp_0; lra
    | |- 100 * exp ?x = 100 * exp ?y => replace x with y by lra; reflexivity
    end.
Qed.

(** The one regression of the run, on the prices [100/e] and [100]. *)
Lemma two_paths_normal_equations (k i : nat) (y : vec) :
  (1 <= i <= cfg_N two_paths)%nat -> length y = cfg_M two_paths ->
  @normal_equations cramer_numpy
    (basis (cfg_degree two_paths)
           (col i (@paths_S cramer_numpy two_paths k))) y.
Proof.
  change (cfg_N two_paths) with 1%nat. change (cfg_M two_paths) with 2%nat.
  change (cfg_degree two_paths) with 1%nat.
  intros Hi Hy. assert (i = 1%nat) by lia. subst i.
  rewrite two_paths_S. cbn [col map nth].
  destruct y as [|y1 [|y2 [|]]]; try discriminate Hy.
  apply cramer_normal_equations.
  pose proof (@exp_lt_1 (-1) ltac:(lra)). lra.
Qed.

(** The European values at time 0: the terminal put payoffs
    [[100 - 100/sqrt(e), 0]], discounted once. *)
Lemma two_paths_european_batch (k : nat) :
  exists Y,
    @European.batch cramer_numpy (instance_of two_paths "put") k = Ok Y
    /\ col 0 Y = [(100 - 100 * exp (- (1 / 2))) * exp (- (5 / 100)); 0].
Proof.
  destruct (@european_batch_spec cramer_numpy two_paths "put"
              (instance_of two_paths "put") two_paths_valid (extends_refl _)
              eq_refl ltac:(simpl; lia) (or_intror eq_refl) k)
    as (Y & HY & _ & Hlast & Hrec).
  exists Y. split; [exact HY|].
  change (cfg_N two_paths) with 1%nat in Hlast, Hrec.
  pose proof (Hrec 1%nat ltac:(lia)) as H0.
  change (1 - 1)%nat with 0%nat in H0.
  rewrite H0, Hlast, two_paths_S.
  pose proof (@exp_lt_1 (- (1 / 2)) ltac:(lra)) as He.
  pose proof (@exp_lt_1 (-1) ltac:(lra)) as He1.
  unfold european_update. change (cfg_degree two_paths) with 1%nat.
  cbn [col col_last map nth last plain_payoff String.eqb Ascii.eqb Bool.eqb].
  rewrite cramer_fitted by lra.
  unfold cfg_K, cfg_r, cfg_dt, cfg_T. cbn.
  rewrite (@Rmax_left (100 - 100 * exp (- (1 / 2))) 0) by lra.
  rewrite (@Rmax_left (100 - 100) 0) by lra.
  replace (- (0.05) * (1 / 1)) with (- (5 / 100)) by lra.
  vec_eq; lra.
Qed.

(** The American values at time 0: on path 0 the exercise value at step 1,
    [100 - 100/e], exceeds the discounted continuation value. *)
Lemma two_paths_american_batch (k : nat) :
  exists Y,
    @American.batch cramer_numpy (instance_of two_paths "put") k = Ok Y
    /\ col 0 Y = [100 - 100 * exp (-1); 0].
Proof.
  destruct (@american_batch_spec cramer_numpy two_paths "put"
              (instance_of two_paths "put") two_paths_valid (extends_refl _)
              eq_refl ltac:(simpl; lia) (or_intror eq_refl) k)
    as (Y & HY & _ & Hlast & Hrec).
  exists Y. split; [exact HY|].
  change (cfg_N two_paths) with 1%nat in Hlast, Hrec.
  pose proof (Hrec 1%nat ltac:(lia)) as H0.
  change (1 - 1)%nat with 0%nat in H0.
  rewrite H0, Hlast, two_paths_S.
  pose proof (@exp_lt_1 (- (1 / 2)) ltac:(lra)) as He.
  pose proof (@exp_lt_1 (-1) ltac:(lra)) as He1.
  pose proof (@exp_lt_1 (- (5 / 100)) ltac:(lra)) as He2.
  pose proof (exp_pos (- (5 / 100))) as Hp2.
  assert (He3 : exp (-1) < exp (- (1 / 2))) by (apply exp_increasing; lra).
  unfold american_update, european_update.
  change (cfg_degree two_paths) with 1%nat.
  cbn [col col_last map nth last plain_payoff String.eqb Ascii.eqb Bool.eqb].
  rewrite cramer_fitted by lra.
  unfold cfg_K, cfg_r, cfg_dt, cfg_T. cbn.
  rewrite (@Rmax_left (100 - 100 * exp (- (1 / 2))) 0) by lra.
  rewrite (@Rmax_left (100 - 100) 0) by lra.
  rewrite (@Rmax_left (100 - 100 * exp (-1)) 0) by lra.
  replace (- (0.05) * (1 / 1)) with (- (5 / 100)) by lra.
  rewrite (@Rmax_right ((100 - 100 * exp (- (1 / 2))) * exp (- (5 / 100)))
             (100 - 100 * exp (-1))) by nra.
  rewrite (@Rmax_right ((100 - 100) * exp (- (5 / 100))) (100 - 100)) by lra.
  vec_eq; lra.
Qed.

(** The batch array of a solver that runs one batch. *)
Lemma one_batch_solver {B : Type} (batch : nat -> result B) (g : B -> R)
    (b : B) :
  batch 0%nat = Ok b ->
  (Y0_samples <- np_zeros (PyInt 1) ;;
   n <- as_index (PyInt 1) ;;
   Y0_samples <-
     for_each (range (Z.to_nat n))
       (fun k Y0_samples => b <- batch k ;; Ok (upd k (g b) Y0_samples))
       Y0_samples ;;
   Ok (Y0_samples, Scalar 0)) = Ok ([g b], Scalar 0).
Proof.
  intros Hb. unfold np_zeros.
  cbn [as_size as_index isinstance_int int_of bind Z.ltb Z.compare].
  change (Z.to_nat 1) with 1%nat. cbn [range seq for_each zeros repeat bind].
  rewrite Hb. reflexivity.
Qed.



(** ** The early-exercise floor *)

Lemma sum_nonneg (v : vec) :
  (forall m, (m < length v)%nat -> 0 <= nth m v 0) -> 0 <= np_sum v.
Proof.
  induction v as [|x v IH]; intros Hv; simpl; [lra|].
  pose proof (Hv 0%nat ltac:(simpl; lia)) as H0. simpl in H0.
  assert (0 <= np_sum v).
  { apply IH. intros m Hm. apply (Hv (S m)). simpl; lia. }
  unfold np_sum in *. lra.
Qed.

Lemma mean_nonneg (v : vec) :
  (forall m, (m < length v)%nat -> 0 <= nth m v 0) -> 0 <= np_mean v.
Proof.
  intros Hv. pose proof (sum_nonneg v Hv). unfold np_mean, Rdiv.
  apply Rmult_le_pos; [assumption|].
  destruct v as [|x v]; [simpl; rewrite Rinv_0; lra|].
  apply Rlt_le, Rinv_0_lt_compat, lt_0_INR. simpl; lia.
Qed.

Lemma nth_vmap2 (f : R -> R -> R) (u v : vec) (m : nat) :
  (m < length u)%nat -> (m < length v)%nat ->
  nth m (vmap2 f u v) 0 = f (nth m u 0) (nth m v 0).
Proof.
  revert v m; induction u as [|x u IH]; intros [|y v] [|m] Hu Hv;
    simpl in *; try lia; auto.
  apply IH; lia.
Qed.



(** ** What the solvers do with a bad [degree] or [samples] *)

Lemma range_head (n : Z) :
  (1 <= n)%Z -> exists n', range (Z.to_nat n) = 0%nat :: seq 1 n'.
Proof.
  intros Hn. exists (Z.to_nat n - 1)%nat. unfold range.
  replace (Z.to_nat n) with (S (Z.to_nat n - 1)) at 1 by lia.
  reflexivity.
Qed.



Lemma np_zeros_not_int (v : PyVal) :
  type_is_int v = false -> exists msg, np_zeros v = Err (TypeError msg).
Proof.
  destruct v; simpl; try discriminate; intros _; unfold np_zeros; simpl;
    eauto.
Qed.

Lemma np_zeros_negative (v : PyVal) :
  type_is_int v = true -> (int_of v < 0)%Z ->
  np_zeros v = Err (ValueError "negative dimensions are not allowed").
Proof.
  destruct v as [|b|z|x|s]; simpl; try discriminate; intros _ Hn.
  unfold np_zeros; simpl. apply Z.ltb_lt in Hn. rewrite Hn. reflexivity.
Qed.

(** X10.  The number of batches is checked by nobody but [np.zeros], at the
    start of each solver: a float, a string or a [bool] raises [TypeError],
    a negative integer raises [ValueError], and the integer 0 makes every
    one of the four solvers return [([], 0)] without simulating a path,
    whatever the payoff kind, the degree and [M]. *)
Theorem samples_checked_by_zeros `{NumPy} (a : SpreadArgs)
    (self spread : Instance) :
  European.__init__ (base_args a) = Ok self ->
  EuropeanSpread.__init__ a = Ok spread ->
  let s := arg_samples (base_args a) in
  let solvers :=
    [European._bsde_solver self; American._bsde_solver self;
     EuropeanSpread._bsde_solver spread; AmericanSpread._bsde_solver spread] in
  (isinstance_float s = true \/ isinstance_str s = true
   \/ isinstance_bool s = true ->
   exists msg, Forall (fun res => res = Err (TypeError msg)) solvers)
  /\ (type_is_int s = true -> (int_of s < 0)%Z ->
      Forall (fun res =>
                res = Err (ValueError "negative dimensions are not allowed"))
             solvers)
  /\ (type_is_int s = true -> int_of s = 0%Z ->
      Forall (fun res => res = Ok ([], Scalar 0)) solvers).
Proof.
  intros Hinit Hspread.
  apply init_inv in Hinit; destruct Hinit as (Hvalid & p & Hp & ->).
  apply spread_init_inv in Hspread;
    destruct Hspread as (Hvalid' & p' & Hp' & ->).
  pose proof (extends_refl (instance_of (base_args a) p)) as Hself.
  pose proof (spread_extends a p') as Hself'.
  cbv zeta.
  unfold European._bsde_solver, American._bsde_solver,
    EuropeanSpread._bsde_solver, AmericanSpread._bsde_solver,
    AmericanSpread.batch_loop.
  rewrite (attr_samples Hself), (attr_samples Hself'). cbn [bind].
  change (arg_samples (super_args (base_args a)))
    with (arg_samples (base_args a)).
  split; [|split].
  - intros Hs.
    assert (Hni : type_is_int (arg_samples (base_args a)) = false).
    { destruct (arg_samples (base_args a)); simpl in *;
        destruct Hs as [Hs | [Hs | Hs]]; try discriminate; reflexivity. }
    destruct (np_zeros_not_int _ Hni) as (msg & ->). cbn [bind].
    exists msg. repeat constructor.
  - intros Hi Hn. rewrite (np_zeros_negative _ Hi Hn). cbn [bind].
    repeat constructor.
  - intros Hi Hn. rewrite np_zeros_ok, as_index_int
      by (auto using type_is_int_isinstance; lia).
    rewrite Hn. repeat constructor.
Qed.

Lemma samples_checked_by_zeros_witness :
  @EuropeanSpread._bsde_solver toy_numpy
    (spread_instance_of (put_scenario (-3)) "put")
  = Err (ValueError "negative dimensions are not allowed")
  /\ exists msg,
       @European._bsde_solver toy_numpy
         (instance_of (with_samples scenario (PyBool true)) "call")
       = Err (TypeError msg).
Proof.
  split.
  - destruct (@samples_checked_by_zeros toy_numpy (put_scenario (-3))
                (instance_of (base_args (put_scenario (-3))) "put")
                (spread_instance_of (put_scenario (-3)) "put"))
      as (_ & Hneg & _).
    + apply init_ok; [valid_args_tac | fits_float_tac | reflexivity].
    + apply spread_init_ok;
        [apply put_scenario_valid | fits_float_tac | reflexivity].
    + pose proof (Hneg eq_refl eq_refl) as Hall.
      inversion Hall as [|? ? _ Hall1]; subst.
      inversion Hall1 as [|? ? _ Hall2]; subst.
      inversion Hall2 as [|? ? H3 _]; subst.
      exact H3.
  - set (a := {| base_args := with_samples scenario (PyBool true);
                 arg_K2 := PyNone; arg_R := PyNone |}).
    destruct (@samples_checked_by_zeros toy_numpy a
                (instance_of (base_args a) "call")
                (spread_instance_of a "call"))
      as (Hty & _).
    + apply init_ok; [valid_args_tac | fits_float_tac | reflexivity].
    + apply spread_init_ok;
        [valid_args_tac | fits_float_tac | reflexivity].
    + destruct Hty as (msg & Hall); [right; right; reflexivity|].
      exists msg. inversion Hall as [|? ? H1 _]; subst. exact H1.
Defined.

(** ** The returned interval *)

Lemma rint_IZR (z : Z) : rint (IZR z) = z.
Proof.
  assert (HI : Int_part (IZR z) = z) by (apply Int_part_unique; lra).
  unfold rint; rewrite HI.
  destruct (Rlt_dec (IZR z - IZR z) (1 / 2)); [reflexivity | lra].
Qed.

Lemma rint_mono (x y : R) : x <= y -> (rint x <= rint y)%Z.
Proof.
  intros Hxy.
  destruct (Z_le_gt_dec (rint x) (rint y)) as [Hle|Hgt]; [exact Hle|].
  exfalso.
  pose proof (@Rabs_bounds _ _ (rint_error x)) as Hx.
  pose proof (@Rabs_bounds _ _ (rint_error y)) as Hy.
  assert (Hz : IZR (rint y) + 1 <= IZR (rint x)).
  { rewrite <- plus_IZR. apply IZR_le. lia. }
  assert (x = y) by lra. subst y. lia.
Qed.

Lemma round4_mono (x y : R) : x <= y -> round4 x <= round4 y.
Proof.
  intros Hxy. unfold round4.
  apply Rmult_le_compat_r; [lra|].
  apply IZR_le, rint_mono. lra.
Qed.

Lemma round4_idem (x : R) : round4 (round4 x) = round4 x.
Proof.
  unfold round4 at 1. rewrite round4_digits, rint_IZR. reflexivity.
Qed.

(** X11.  Whenever the quantile [ppf(1 - lower/2)] is non-negative, the
    interval the estimator returns is well ordered, its bounds are fixed
    points of the rounding, and it is at most [0.0001] wider than
    [2*z*std/sqrt(M)]; the standard deviation is never negative, and when
    it is 0 both bounds are the rounded mean. *)
Theorem confidence_interval_ordered `{NumPy} (a : Args) (self : Instance)
    (smp : vec) :
  European.__init__ a = Ok self ->
  0 <= norm_ppf (1 - cfg_lower a / 2) ->
  exists mean std lo hi,
    European._confidence_interval self (Array smp) = Ok (mean, std, (lo, hi))
    /\ 0 <= std
    /\ lo <= hi
    /\ round4 lo = lo /\ round4 hi = hi
    /\ hi - lo
       <= 2 * norm_ppf (1 - cfg_lower a / 2) * std / sqrt (INR (cfg_M a))
          + 1 / 10000
    /\ (std = 0 -> lo = round4 mean /\ hi = round4 mean).
Proof.
  intros Hinit Hz.
  apply init_inv in Hinit; destruct Hinit as (Hvalid & p & Hp & ->).
  pose proof (extends_refl (instance_of a p)) as Hself.
  pose proof (half_width_nonneg smp Hvalid Hz) as Hh.
  exists (np_mean smp), (np_std smp),
         (round4 (np_mean smp - half_width a smp)),
         (round4 (np_mean smp + half_width a smp)).
  split; [apply (confidence_interval_eq smp Hvalid Hself)|].
  split; [apply np_std_nonneg|].
  split; [apply round4_mono; lra|].
  split; [apply round4_idem | split; [apply round4_idem|]].
  split.
  - pose proof (@Rabs_bounds _ _
                  (round4_error (np_mean smp - half_width a smp))).
    pose proof (@Rabs_bounds _ _
                  (round4_error (np_mean smp + half_width a smp))).
    assert (Hw : 2 * norm_ppf (1 - cfg_lower a / 2) * np_std smp
                 / sqrt (INR (cfg_M a)) = 2 * half_width a smp)
      by (unfold half_width, quantile, Rdiv; ring).
    rewrite Hw. lra.
  - intros Hstd.
    assert (Hw : half_width a smp = 0)
      by (unfold half_width; rewrite Hstd; unfold Rdiv; ring).
    rewrite Hw, Rminus_0_r, Rplus_0_r. split; reflexivity.
Qed.

Lemma confidence_interval_ordered_witness :
  exists mean std lo hi,
    @European._confidence_interval toy_numpy (instance_of scenario "call")
      (Array [10; 11]) = Ok (mean, std, (lo, hi))
    /\ lo <= hi.
Proof.
  destruct (@confidence_interval_ordered toy_numpy scenario
              (instance_of scenario "call") [10; 11] scenario_init)
    as (mean & std & lo & hi & Heq & _ & Hle & _).
  - unfold cfg_lower; simpl. lra.
  - exists mean, std, lo, hi. split; [exact Heq | exact Hle].
Defined.

(** ** What [run] reports for the plain classes *)



(** ** The Picard passes *)

Lemma upd_idem (i : nat) (x : R) (l : vec) : upd i x (upd i x l) = upd i x l.
Proof.
  revert i; induction l as [|y l IH]; intros [|i]; simpl; auto.
  rewrite IH. reflexivity.
Qed.

Lemma set_col_idem (i : nat) (v : vec) (X : matrix) :
  set_col i v (set_col i v X) = set_col i v X.
Proof.
  unfold set_col. revert v; induction X as [|row X IH]; intros [|x v];
    simpl; auto.
  rewrite upd_idem. f_equal. apply IH.
Qed.

Lemma picard_loop_exact `{NumPy} (a : SpreadArgs) (p : string) (m c i : nat)
    (E zi : vec) :
  valid_args (super_args (base_args a)) ->
  isinstance_num (R_or_default (arg_R a)) = true ->
  (0 < m)%nat -> (1 <= i)%nat -> (i < c)%nat ->
  length E = m -> length zi = m ->
  forall n s Y,
  shape m c Y ->
  for_each (seq s (S n))
    (fun _ Y => v <- picard_rhs (spread_instance_of a p) E (col i Y) zi ;;
                Ok (set_col (i - 1) v Y)) Y
  = Ok (set_col (i - 1) (picard_value a E (col i Y) zi) Y).
Proof.
  intros Hvalid HR Hm Hi Hc HE Hz.
  induction n as [|n IH]; intros s Y HY.
  - cbn [seq for_each].
    rewrite (@picard_rhs_eq a p Hvalid HR)
      by (rewrite ?length_col; destruct HY; lia).
    reflexivity.
  - change (seq s (S (S n))) with (s :: seq (S s) (S n)). cbn [for_each].
    assert (Hcol : length (col i Y) = m) by (rewrite length_col; apply HY).
    rewrite (@picard_rhs_eq a p Hvalid HR) by lia. cbn [bind].
    set (v := picard_value a E (col i Y) zi).
    assert (Hv : length v = m) by (apply length_picard_value; auto).
    rewrite (IH (S s) (set_col (i - 1) v Y) (@shape_set_col m c (i - 1) v Y HY Hv)).
    rewrite col_set_col_neq by (destruct HY; try congruence; lia).
    fold v. rewrite set_col_idem. reflexivity.
Qed.

(** X13.  The spread constructors leave [picard] at 3, and the three passes
    of the Picard loop write what one pass writes: a backward step of the
    European spread solver returns exactly [Y] with column [i - 1] replaced
    by the update computed once from [E], [Y[:, i]] and the new [Z[:, i]],
    and [Z] with column [i] replaced by the fitted values of
    [Y[:, i] * dW[:, i]]; no other column changes. *)
Theorem european_spread_step_single_pass `{NumPy} (a : SpreadArgs)
    (self : Instance) (S dW : matrix) (i : nat) (Y Z : matrix) :
  EuropeanSpread.__init__ a = Ok self ->
  (1 <= int_of (arg_degree (base_args a)) <= 20)%Z ->
  isinstance_num (R_or_default (arg_R a)) = true ->
  length S = cfg_M (base_args a) ->
  shape (cfg_M (base_args a)) (cfg_N (base_args a) + 1) Y ->
  shape (cfg_M (base_args a)) (cfg_N (base_args a) + 1) Z ->
  (1 <= i <= cfg_N (base_args a))%nat ->
  let X := basis (cfg_degree (base_args a)) (col i S) in
  let E := fitted X (col i Y) in
  let zi := fitted X (vmap2 Rmult (col i Y) (col i dW)) in
  getattr self "picard" = Ok (PyInt 3)
  /\ EuropeanSpread.backward_step self S dW i (Y, Z)
     = Ok (set_col (i - 1) (picard_value a E (col i Y) zi) Y,
           set_col i zi Z).
Proof.
  intros Hinit Hdeg HR HS HY HZ Hi X E zi.
  apply spread_init_inv in Hinit; destruct Hinit as (Hvalid & p & Hp & ->).
  pose proof (spread_extends a p) as Hself.
  split; [apply (attr_picard Hself)|].
  set (b := super_args (base_args a)) in *.
  change (cfg_M (base_args a)) with (cfg_M b) in *.
  change (cfg_N (base_args a)) with (cfg_N b) in *.
  change (cfg_degree (base_args a)) with (cfg_degree b) in *.
  pose proof (cfg_M_pos Hvalid) as HM.
  assert (HX : length X = cfg_M b).
  { unfold X. rewrite length_basis, length_col. exact HS. }
  assert (Hzi : length zi = cfg_M b) by (unfold zi; rewrite length_fitted; auto).
  assert (HE : length E = cfg_M b) by (unfold E; rewrite length_fitted; auto).
  assert (Hcz : col i (set_col i zi Z) = zi)
    by (apply (@col_set_col_eq (cfg_M b) (cfg_N b + 1)); auto; lia).
  unfold EuropeanSpread.backward_step. cbn [fst snd].
  rewrite (generate_regression_ok Hvalid Hself) by exact Hdeg.
  cbn [bind]. fold b. fold X.
  change (matvec X (lstsq (matmul (transpose X) X)
                          (matvec (transpose X) (col i Y)))) with E.
  change (matvec X (lstsq (matmul (transpose X) X)
            (matvec (transpose X) (vmap2 Rmult (col i Y) (col i dW)))))
    with zi.
  rewrite (attr_picard Hself). cbn [bind].
  change (as_index (arg_picard b)) with (Ok 3%Z).
  cbn [bind]. rewrite Hcz.
  change (range (Z.to_nat 3)) with (seq 0 3).
  rewrite (@picard_loop_exact _ a p (cfg_M b) (cfg_N b + 1) i E zi
             Hvalid HR HM) by (auto; lia).
  reflexivity.
Qed.

Lemma european_spread_step_single_pass_witness :
  @EuropeanSpread.backward_step toy_numpy
    (spread_instance_of one_path "call") [[100; 100; 100]] [[0; 0]] 1
    ([[0; 5]], [[0; 0]])
  = Ok (set_col 0
          (picard_value one_path
             (@fitted toy_numpy (basis 1 [100]) [5]) [5]
             (@fitted toy_numpy (basis 1 [100]) (vmap2 Rmult [5] [0])))
          [[0; 5]],
        set_col 1 (@fitted toy_numpy (basis 1 [100]) (vmap2 Rmult [5] [0]))
          [[0; 0]]).
Proof.
  destruct (@european_spread_step_single_pass toy_numpy one_path
              (spread_instance_of one_path "call")
              [[100; 100; 100]] [[0; 0]] 1%nat [[0; 5]] [[0; 0]])
    as [_ Hstep].
  - apply spread_init_ok; [apply one_path_valid | fits_float_tac | reflexivity].
  - simpl; lia.
  - reflexivity.
  - reflexivity.
  - split; [reflexivity | repeat constructor].
  - split; [reflexivity | repeat constructor].
  - change (cfg_N (base_args one_path)) with 1%nat. lia.
  - exact Hstep.
Defined.

(** ** The European spread solver *)



(** ** The exercise floor of the American spread solver *)

Section PairSweep.
Variables (m n : nat).
Variable body : nat -> matrix * matrix -> result (matrix * matrix).
Variable P : nat -> vec -> Prop.

Hypothesis body_spec : forall i Y Z,
  (1 <= i <= n)%nat -> shape m (n + 1) Y -> shape m (n + 1) Z ->
  exists Y' Z',
    body i (Y, Z) = Ok (Y', Z')
    /\ shape m (n + 1) Y' /\ shape m (n + 1) Z'
    /\ P i (col (i - 1) Y')
    /\ (forall j, j <> (i - 1)%nat -> col j Y' = col j Y).

Lemma pair_sweep_from (j : nat) : forall Y Z,
  (j <= n)%nat -> shape m (n + 1) Y -> shape m (n + 1) Z ->
  exists Y' Z',
    for_each (range_down j) body (Y, Z) = Ok (Y', Z')
    /\ shape m (n + 1) Y' /\ shape m (n + 1) Z'
    /\ (forall c, (j <= c)%nat -> col c Y' = col c Y)
    /\ (forall i, (1 <= i <= j)%nat -> P i (col (i - 1) Y')).
Proof.
  induction j as [|j IH]; intros Y Z Hj HY HZ.
  - exists Y, Z; simpl; repeat split; auto; try apply HY; try apply HZ.
    intros i Hi; lia.
  - rewrite range_down_S; cbn [for_each].
    destruct (@body_spec (S j) Y Z ltac:(lia) HY HZ)
      as (Y1 & Z1 & Hstep & HY1 & HZ1 & HP & Hkeep1).
    rewrite Hstep; cbn [bind].
    destruct (IH Y1 Z1) as (Y' & Z' & Hrun & HY' & HZ' & Hkeep & Hrec);
      [lia | auto | auto |].
    exists Y', Z'. split; [exact Hrun|].
    split; [exact HY' | split; [exact HZ' | split]].
    + intros c Hc. rewrite Hkeep by lia. apply Hkeep1. lia.
    + intros i Hi.
      destruct (Nat.eq_dec i (S j)) as [->|Hne]; [|apply Hrec; lia].
      replace (S j - 1)%nat with j in * by lia.
      rewrite Hkeep by lia. exact HP.
Qed.

End PairSweep.



(** ** The constructors of the spread classes *)

(** X16.  Both spread classes construct the same object, and construct it
    exactly when the plain constructor accepts the other arguments: [K2]
    and [R] are not checked at all.  [None] is replaced by 105 and 0.06,
    any other value is stored as it is, and [picard] is always 3.  With
    the kind "call", a [K2] that is not a number therefore surfaces only
    when the payoff is evaluated, as a [TypeError]. *)
Theorem spread_init_unchecked (a : SpreadArgs) (self : Instance) :
  EuropeanSpread.__init__ a = Ok self ->
  AmericanSpread.__init__ a = Ok self
  /\ (exists base,
        European.__init__ (super_args (base_args a)) = Ok base
        /\ extends self base)
  /\ (arg_K2 a = PyNone -> getattr self "K2" = Ok (PyInt 105))
  /\ (arg_K2 a <> PyNone -> getattr self "K2" = Ok (arg_K2 a))
  /\ (arg_R a = PyNone -> getattr self "R" = Ok (PyFloat 0.06))
  /\ (arg_R a <> PyNone -> getattr self "R" = Ok (arg_R a))
  /\ getattr self "picard" = Ok (PyInt 3)
  /\ (forall K2 R', exists self',
        EuropeanSpread.__init__
          {| base_args := base_args a; arg_K2 := K2; arg_R := R' |}
        = Ok self')
  /\ (European._get_opt_payoff (arg_option_payoff (base_args a)) = Ok "call" ->
      isinstance_num (K2_or_default (arg_K2 a)) = false ->
      forall S,
        EuropeanSpread._payoff_func self S
        = Err (TypeError "unsupported operand type(s)")
        /\ AmericanSpread._payoff_func self S
           = Err (TypeError "unsupported operand type(s)")).
Proof.
  intros Hinit.
  split; [exact Hinit|].
  assert (Hbase : exists base,
            European.__init__ (super_args (base_args a)) = Ok base).
  { unfold EuropeanSpread.__init__, spread_init in Hinit.
    apply bind_ok in Hinit. destruct Hinit as (base & Hbase & _). eauto. }
  destruct Hbase as (base & Hbase).
  apply spread_init_inv in Hinit; destruct Hinit as (Hvalid & p & Hp & ->).
  pose proof (spread_extends a p) as Hself.
  assert (base = instance_of (super_args (base_args a)) p).
  { destruct (@init_inv _ _ Hbase) as (_ & p' & Hp' & ->).
    change (arg_option_payoff (super_args (base_args a)))
      with (arg_option_payoff (base_args a)) in Hp'.
    congruence. }
  subst base.
  split.
  { exists (instance_of (super_args (base_args a)) p).
    split; [exact Hbase | exact Hself]. }
  split; [intros E; rewrite attr_K2, E; reflexivity|].
  split.
  { intros E. rewrite attr_K2. destruct (arg_K2 a); try reflexivity.
    contradiction. }
  split; [intros E; rewrite attr_R, E; reflexivity|].
  split.
  { intros E. rewrite attr_R. destruct (arg_R a); try reflexivity.
    contradiction. }
  split; [apply (attr_picard Hself)|].
  split.
  { intros K2 R'. eexists.
    unfold EuropeanSpread.__init__, spread_init. cbn [base_args].
    rewrite Hbase. reflexivity. }
  intros Hcall HK2 S. assert (p = "call") by congruence; subst p.
  assert (HattrK2 : attr_real (spread_instance_of a "call") "K2"
                    = Err (TypeError "unsupported operand type(s)")).
  { unfold attr_real. rewrite attr_K2. cbn [bind]. unfold as_real.
    rewrite HK2. reflexivity. }
  split.
  - unfold EuropeanSpread._payoff_func.
    rewrite (attr_option_payoff Hself).
    cbn [bind py_eq_str String.eqb Ascii.eqb Bool.eqb].
    rewrite (attr_K Hvalid Hself), HattrK2. reflexivity.
  - unfold AmericanSpread._payoff_func.
    rewrite (attr_option_payoff Hself).
    cbn [bind py_eq_str String.eqb Ascii.eqb Bool.eqb].
    rewrite (attr_K Hvalid Hself), HattrK2. reflexivity.
Qed.

Lemma spread_init_unchecked_witness :
  getattr (spread_instance_of spread_scenario "call") "K2" = Ok (PyInt 105)
  /\ getattr (spread_instance_of spread_scenario "call") "R"
     = Ok (PyFloat 0.06).
Proof.
  destruct (@spread_init_unchecked spread_scenario
              (spread_instance_of spread_scenario "call"))
    as (_ & _ & HK2 & _ & HR & _).
  - apply spread_init_ok;
      [apply spread_scenario_valid | fits_float_tac | reflexivity].
  - split; [apply HK2 | apply HR]; reflexivity.
Defined.

(** ** The table by degree *)

Lemma with_degree_valid (a : Args) (d : Z) :
  valid_args a -> (0 <= d)%Z -> valid_args (with_degree a d).
Proof.
  intros [? ? ? ? ? ? ? ? ? ?] Hd.
  constructor; simpl; auto.
Qed.

Lemma extends_set_degree (a : Args) (p : string) (self : Instance) (d : Z) :
  extends self (instance_of a p) ->
  extends (setattr self "degree" (PyInt d)) (instance_of (with_degree a d) p).
Proof.
  intros Hself name HK2 HR. unfold setattr. cbn [getattr].
  destruct (String.eqb_spec "degree" name) as [<-|Hne]; [reflexivity|].
  rewrite Hself by assumption.
  unfold instance_of. cbn [getattr].
  repeat match goal with
  | |- context [String.eqb ?n name] =>
      destruct (String.eqb_spec n name); [try congruence; try reflexivity|]
  end.
  reflexivity.
Qed.

Lemma european_solver_ok `{NumPy} (a : Args) (p : string) (self : Instance) :
  valid_args a -> extends self (instance_of a p) ->
  p = "call" \/ p = "put" ->
  (1 <= int_of (arg_degree a) <= 20)%Z ->
  type_is_int (arg_M a) = true ->
  type_is_int (arg_samples a) = true ->
  (0 <= int_of (arg_samples a))%Z ->
  exists Y0,
    European._bsde_solver self = Ok (Y0, Scalar 0)
    /\ length Y0 = cfg_samples a.
Proof.
  intros Hvalid Hself Hpayoff Hdeg HM Hsi Hsn.
  destruct (@solver_loop_spec matrix self (arg_samples a)
              (European.batch self) (fun Y => np_mean (col 0 Y)) Hsi Hsn)
    as (Y0 & Hrun & Hlen & _).
  { intros k _.
    destruct (european_batch_spec Hvalid Hself HM Hdeg Hpayoff k)
      as (Y & HY & _).
    eauto. }
  exists Y0. split; [|exact Hlen].
  unfold European._bsde_solver. rewrite (attr_samples Hself). exact Hrun.
Qed.

Lemma european_solver_bad_degree `{NumPy} (a : Args) (p : string)
    (self : Instance) :
  valid_args a -> extends self (instance_of a p) ->
  p = "call" \/ p = "put" ->
  ~ (1 <= int_of (arg_degree a) <= 20)%Z ->
  type_is_int (arg_M a) = true ->
  type_is_int (arg_samples a) = true ->
  (1 <= int_of (arg_samples a))%Z ->
  European._bsde_solver self
  = Err (ValueError "Invalid degree on Polynomial basis").
Proof.
  intros Hvalid Hself Hpayoff Hbad HM Hsi Hsn.
  destruct (range_head Hsn) as (n' & Hrange).
  assert (HN : exists n, cfg_N a = S n).
  { pose proof (cfg_N_pos Hvalid). exists (cfg_N a - 1)%nat. lia. }
  destruct HN as (n & HN).
  unfold European._bsde_solver.
  rewrite (attr_samples Hself). cbn [bind].
  rewrite np_zeros_ok, as_index_int
      by (auto using type_is_int_isinstance; lia). cbn [bind].
  rewrite Hrange. cbn [for_each].
  unfold European.batch.
  rewrite (generate_stock_paths_eq Hvalid Hself HM), (attr_M Hvalid Hself HM),
    (attr_N Hvalid Hself). cbn [bind fst snd].
  rewrite (payoff_func_eq Hvalid Hself) by auto. cbn [bind].
  rewrite HN, range_down_S. cbn [for_each].
  unfold European.backward_step.
  rewrite (generate_regression_err Hvalid Hself) by exact Hbad.
  reflexivity.
Qed.

Lemma table_loop_ok (np : NumPy) (p : string) (ds : list Z) :
  p = "call" \/ p = "put" ->
  Forall (fun d => (1 <= d <= 20)%Z) ds ->
  forall (a : Args) (self : Instance) (calls : nat) (rows0 : list table_row),
  valid_args a -> extends self (instance_of a p) ->
  type_is_int (arg_M a) = true ->
  type_is_int (arg_samples a) = true ->
  (0 <= int_of (arg_samples a))%Z ->
  exists self' rows,
    table_loop (@European._bsde_solver) np (map PyInt ds) self calls rows0
    = (self', Ok (rows0 ++ rows))
    /\ map row_degree rows = map PyInt ds
    /\ (forall name, name <> "degree" ->
          getattr self' name = getattr self name)
    /\ getattr self' "degree"
       = match ds with
         | [] => getattr self "degree"
         | _ => Ok (PyInt (last ds 0%Z))
         end.
Proof.
  intros Hpayoff Hds.
  induction Hds as [|d ds Hd Hds IH]; intros a self calls rows0
    Hvalid Hself HM Hsi Hsn.
  - exists self, []. cbn [map table_loop]. rewrite app_nil_r. auto.
  - cbn [map table_loop].
    set (self1 := setattr self "degree" (PyInt d)).
    assert (Hvalid1 : valid_args (with_degree a d))
      by (apply with_degree_valid; [assumption | lia]).
    pose proof (extends_set_degree d Hself) as Hself1. fold self1 in Hself1.
    destruct (@european_solver_ok (after_calls calls np) (with_degree a d)
                p self1 Hvalid1 Hself1 Hpayoff Hd HM Hsi Hsn)
      as (Y0 & Hsolve & _).
    rewrite Hsolve.
    rewrite (@confidence_interval_eq np (with_degree a d) p self1 Y0
               Hvalid1 Hself1).
    cbn [fst snd].
    destruct (IH (with_degree a d) self1 (calls + length Y0)%nat
                (rows0 ++ [(PyInt d, np_mean Y0, np_std Y0,
                            round4 (np_mean Y0
                                    - @half_width np (with_degree a d) Y0),
                            round4 (np_mean Y0
                                    + @half_width np (with_degree a d) Y0))])
                Hvalid1 Hself1 HM Hsi Hsn)
      as (self' & rows & Hrun & Hdeg & Hkeep & Hlast).
    exists self'. eexists (_ :: rows).
    split; [rewrite Hrun, <- app_assoc; reflexivity|].
    split; [cbn [map]; rewrite Hdeg; reflexivity|].
    split.
    + intros name Hname. rewrite (Hkeep name Hname).
      unfold self1, setattr. cbn [getattr].
      destruct (String.eqb_spec "degree" name); [congruence | reflexivity].
    + rewrite Hlast. destruct ds as [|d' ds']; [reflexivity|].
      reflexivity.
Qed.



Lemma table_loop_bad (np : NumPy) (p : string) (good : list Z) (bad : Z)
    (rest : list PyVal) :
  p = "call" \/ p = "put" ->
  Forall (fun d => (1 <= d <= 20)%Z) good ->
  bad = 0%Z \/ (20 < bad)%Z ->
  forall (a : Args) (self : Instance) (calls : nat) (rows0 : list table_row),
  valid_args a -> extends self (instance_of a p) ->
  type_is_int (arg_M a) = true ->
  type_is_int (arg_samples a) = true ->
  (1 <= int_of (arg_samples a))%Z ->
  exists self',
    table_loop (@European._bsde_solver) np
      (map PyInt good ++ PyInt bad :: rest) self calls rows0
    = (self', Err (ValueError "Invalid degree on Polynomial basis"))
    /\ getattr self' "degree" = Ok (PyInt bad)
    /\ (forall name, name <> "degree" ->
          getattr self' name = getattr self name).
Proof.
  intros Hpayoff Hgood Hbad.
  induction Hgood as [|d ds Hd Hds IH]; intros a self calls rows0
    Hvalid Hself HM Hsi Hsn.
  - cbn [map app table_loop].
    set (self1 := setattr self "degree" (PyInt bad)).
    assert (Hvalid1 : valid_args (with_degree a bad))
      by (apply with_degree_valid; [assumption | lia]).
    pose proof (extends_set_degree bad Hself) as Hself1. fold self1 in Hself1.
    assert (Hout : ~ (1 <= int_of (arg_degree (with_degree a bad)) <= 20)%Z)
      by (cbn [with_degree arg_degree int_of]; lia).
    rewrite (@european_solver_bad_degree (after_calls calls np)
               (with_degree a bad) p self1 Hvalid1 Hself1 Hpayoff Hout
               HM Hsi Hsn).
    exists self1. split; [reflexivity | split; [reflexivity|]].
    intros name Hname. unfold self1, setattr. cbn [getattr].
    destruct (String.eqb_spec "degree" name); [congruence | reflexivity].
  - cbn [map app table_loop].
    set (self1 := setattr self "degree" (PyInt d)).
    assert (Hvalid1 : valid_args (with_degree a d))
      by (apply with_degree_valid; [assumption | lia]).
    pose proof (extends_set_degree d Hself) as Hself1. fold self1 in Hself1.
    assert (Hsn0 : (0 <= int_of (arg_samples a))%Z) by lia.
    destruct (@european_solver_ok (after_calls calls np) (with_degree a d)
                p self1 Hvalid1 Hself1 Hpayoff Hd HM Hsi Hsn0)
      as (Y0 & Hsolve & _).
    rewrite Hsolve.
    rewrite (@confidence_interval_eq np (with_degree a d) p self1 Y0
               Hvalid1 Hself1).
    cbn [fst snd].
    destruct (IH (with_degree a d) self1 (calls + length Y0)%nat
                (rows0 ++ [(PyInt d, np_mean Y0, np_std Y0,
                            round4 (np_mean Y0
                                    - @half_width np (with_degree a d) Y0),
                            round4 (np_mean Y0
                                    + @half_width np (with_degree a d) Y0))])
                Hvalid1 Hself1 HM Hsi Hsn)
      as (self' & Hrun & Hdeg & Hkeep).
    exists self'. split; [exact Hrun | split; [exact Hdeg|]].
    intros name Hname. rewrite (Hkeep name Hname).
    unfold self1, setattr. cbn [getattr].
    destruct (String.eqb_spec "degree" name); [congruence | reflexivity].
Qed.



(** ** A constant batch array *)

Lemma sum_repeat (c : R) (n : nat) : np_sum (repeat c n) = INR n * c.
Proof.
  induction n as [|n IH]; [simpl; ring|].
  rewrite S_INR. cbn [repeat np_sum fold_right].
  change (fold_right Rplus 0 (repeat c n)) with (np_sum (repeat c n)).
  rewrite IH. ring.
Qed.

Lemma mean_repeat (c : R) (n : nat) :
  (0 < n)%nat -> np_mean (repeat c n) = c.
Proof.
  intros Hn. unfold np_mean. rewrite sum_repeat, repeat_length.
  field. apply not_0_INR. lia.
Qed.

Lemma std_repeat (c : R) (n : nat) : (0 < n)%nat -> np_std (repeat c n) = 0.
Proof.
  intros Hn. unfold np_std. rewrite (mean_repeat c Hn).
  replace (map (fun x => Rabs (x - c) ^ 2) (repeat c n)) with (repeat 0 n).
  - rewrite (mean_repeat 0 Hn). apply sqrt_0.
  - clear Hn. induction n as [|n IH]; [reflexivity|].
    cbn [repeat map]. rewrite <- IH. f_equal.
    replace (c - c) with 0 by ring. rewrite Rabs_R0. simpl. ring.
Qed.

(** X19.  When all batches give the same estimate [c], the estimator
    returns the mean [c], the standard deviation 0 and the interval
    [[round(c, 4), round(c, 4)]], whatever the quantile, the number of
    paths and the number of batches (at least one). *)
Theorem confidence_interval_constant `{NumPy} (a : Args) (self : Instance)
    (c : R) (n : nat) :
  European.__init__ a = Ok self ->
  (0 < n)%nat ->
  European._confidence_interval self (Array (repeat c n))
  = Ok (c, 0, (round4 c, round4 c)).
Proof.
  intros Hinit Hn.
  apply init_inv in Hinit; destruct Hinit as (Hvalid & p & Hp & ->).
  rewrite (confidence_interval_eq (repeat c n) Hvalid (extends_refl _)).
  unfold half_width.
  rewrite (std_repeat c Hn), (mean_repeat c Hn).
  replace (quantile a * (0 / sqrt (INR (cfg_M a)))) with 0
    by (unfold Rdiv; ring).
  rewrite Rminus_0_r, Rplus_0_r. reflexivity.
Qed.

Lemma confidence_interval_constant_witness :
  @European._confidence_interval toy_numpy (instance_of scenario "call")
    (Array [7; 7; 7])
  = Ok (7, 0, (round4 7, round4 7)).
Proof.
  apply (@confidence_interval_constant toy_numpy scenario
           (instance_of scenario "call") 7 3 scenario_init).
  lia.
Defined.

(** ** The scalar of the Picard update *)

(** X20.  On an object of a spread class with a numeric [R], the right-hand
    side of the Picard assignment uses one scalar [g] for all paths: path
    [j] gets [E[j] + (-r*Y[j] + lamb*Z[j] - (R - r)*g)*dt], where [g] is a
    value of [Y - Z/sigma] on some path and is at most its value on every
    path; on empty vectors the minimum raises [ValueError]. *)
Theorem picard_rhs_one_scalar (a : SpreadArgs) (self : Instance)
    (E Yi Zi : vec) :
  EuropeanSpread.__init__ a = Ok self ->
  isinstance_num (R_or_default (arg_R a)) = true ->
  length E = length Yi -> length Zi = length Yi ->
  let b := base_args a in
  (Yi = [] -> exists msg, picard_rhs self E Yi Zi = Err (ValueError msg))
  /\ (Yi <> [] ->
      exists v g,
        picard_rhs self E Yi Zi = Ok v
        /\ length v = length Yi
        /\ (exists j0, (j0 < length Yi)%nat
                       /\ g = nth j0 Yi 0 - nth j0 Zi 0 / cfg_sigma b)
        /\ forall j, (j < length Yi)%nat ->
             g <= nth j Yi 0 - nth j Zi 0 / cfg_sigma b
             /\ nth j v 0
                = nth j E 0
                  + (- cfg_r b * nth j Yi 0 + cfg_lamb b * nth j Zi 0
                     - (cfg_R a - cfg_r b) * g) * cfg_dt b).
Proof.
  intros Hinit HR HE HZ. cbv zeta.
  apply spread_init_inv in Hinit; destruct Hinit as (Hvalid & p & Hp & ->).
  pose proof (spread_extends a p) as Hself.
  split.
  - intros ->. destruct Zi; [|discriminate HZ].
    unfold picard_rhs.
    rewrite (attr_r Hvalid Hself), (attr_lamb Hself),
      (attr_sigma Hvalid Hself).
    unfold attr_real at 1. rewrite attr_R. cbn [bind].
    rewrite (as_real_num _ HR). cbn [bind vmap2 combine map np_min].
    eexists; reflexivity.
  - intros Hne.
    assert (HY : (0 < length Yi)%nat) by (destruct Yi; [contradiction | simpl; lia]).
    set (d := vmap2 (fun y z => y - z / cfg_sigma (base_args a)) Yi Zi).
    assert (Hd : length d = length Yi)
      by (unfold d; rewrite length_vmap2; lia).
    destruct (min_over_paths_spec d) as [Hall Hin]; [lia|].
    exists (picard_value a E Yi Zi), (min_over_paths d).
    split; [apply (@picard_rhs_eq a p Hvalid HR); lia|].
    split; [apply length_picard_value; auto|].
    split.
    + apply (In_nth _ _ 0) in Hin. destruct Hin as (j0 & Hj0 & Hnth).
      exists j0. split; [lia|].
      rewrite <- Hnth. unfold d. apply nth_vmap2; lia.
    + intros j Hj. split.
      * rewrite Forall_forall in Hall.
        replace (nth j Yi 0 - nth j Zi 0 / cfg_sigma (base_args a))
          with (nth j d 0) by (unfold d; apply nth_vmap2; lia).
        apply Hall, nth_In. lia.
      * unfold picard_value. fold d.
        rewrite nth_vmap2
          by (rewrite ?length_map, ?length_vmap2, ?length_map; lia).
        rewrite (@nth_map_lt
                   (fun t => (t - (cfg_R a - cfg_r (super_args (base_args a)))
                                  * min_over_paths d)
                             * cfg_dt (super_args (base_args a))))
          by (rewrite length_vmap2, !length_map; lia).
        rewrite nth_vmap2 by (rewrite !length_map; lia).
        rewrite (@nth_map_lt
                   (fun y => - cfg_r (super_args (base_args a)) * y))
          by lia.
        rewrite (@nth_map_lt
                   (fun z => cfg_lamb (super_args (base_args a)) * z))
          by lia.
        reflexivity.
Qed.

Lemma picard_rhs_one_scalar_witness :
  exists v g,
    picard_rhs (spread_instance_of one_path "call") [0; 0] [1; 2] [0; 0]
    = Ok v
    /\ g <= 1 /\ g <= 2
    /\ nth 0 v 0 = 0 + (- 0 * 1 + (0.5 - 0) / 1 * 0 - (0.06 - 0) * g) * (1 / 1).
Proof.
  destruct (@picard_rhs_one_scalar one_path
              (spread_instance_of one_path "call") [0; 0] [1; 2] [0; 0])
    as (_ & Hok).
  - apply spread_init_ok; [apply one_path_valid | fits_float_tac | reflexivity].
  - reflexivity.
  - reflexivity.
  - reflexivity.
  - destruct Hok as (v & g & Hrun & _ & _ & Hall); [discriminate|].
    exists v, g. split; [exact Hrun|].
    destruct (Hall 0%nat) as [H0 Hv0]; [simpl; lia|].
    destruct (Hall 1%nat) as [H1 _]; [simpl; lia|].
    unfold cfg_sigma, cfg_r, cfg_R, cfg_lamb, cfg_dt, cfg_mu, cfg_T in *.
    simpl in *.
    split; [lra | split; [lra | exact Hv0]].
Defined.

(** ** The terminal column *)

Lemma last_is_nth (l : vec) (d : R) : last l d = nth (length l - 1) l d.
Proof.
  induction l as [|x l IH]; [reflexivity|].
  destruct l as [|y l]; [reflexivity|].
  change (last (x :: y :: l) d) with (last (y :: l) d).
  rewrite IH. simpl. rewrite Nat.sub_0_r. reflexivity.
Qed.

Lemma col_last_eq (m c : nat) (X : matrix) :
  shape m (c + 1) X -> col_last X = col c X.
Proof.
  intros [_ Hc]. unfold col_last, col.
  apply map_ext_in. intros row Hin.
  rewrite Forall_forall in Hc. rewrite last_is_nth, (Hc row Hin).
  f_equal. lia.
Qed.



(** ** American against European, batch by batch *)


